(** * Block gossip and vote aggregation layer of the Kwil node

    A shallow embedding of the [node] package's wire codec for block
    proposal announcements ([blockProp]), of the block proposal stream
    handler and of the pub/sub gossip loops (ACK, discovery, consensus
    reset), together with the Merkle root and vote signing rules of
    [core/types].

    Conventions.
    - Go's [int64] is a [Z] inside [Int64.in_range]; the conversions
      [uint64(x)] and [int64(u)] are written out with their wrap-around.
    - [[]byte] is [list byte]; a [types.Hash] ([[32]byte]) is a [list byte]
      whose length is [HashLen], stated as a well-formedness condition.
    - A call into the consensus engine, a stream write, a publish and a
      channel send are events of a trace; a goroutine started with [go] is
      the event [EvGo], a direct call is [EvCall]. *)

From Stdlib Require Import ZArith List Lia Bool Permutation.
From coqutil Require Import Byte Word.LittleEndianList.
From Equations Require Import Equations.
From Stdlib Require Strings.String.
Import ListNotations.
Import String.StringSyntax.
Delimit Scope string_scope with string.

Local Open Scope Z_scope.

(* Keep the unfolding equations of well-founded definitions axiom free. *)
Unset Equations With Funext.

(** ** Machine integers *)

Module Int64.

Definition min_int : Z := - 2 ^ 63.
Definition max_int : Z := 2 ^ 63 - 1.

Definition in_range (z : Z) : Prop := min_int <= z <= max_int.

(** [uint64(x)] for [x : int64]. *)
Definition to_uint64 (x : Z) : Z := x mod 2 ^ 64.

(** [int64(u)] for [u : uint64]. *)
Definition of_uint64 (u : Z) : Z :=
  if u <? 2 ^ 63 then u else u - 2 ^ 64.

End Int64.

(** ** Byte buffers *)

Definition bytes : Type := list Init.Byte.byte.

(** [make([]byte, n)] for [0 <= n]. *)
Definition make (n : nat) : bytes := repeat Byte.x00 n.

(** [copy(dst[c:], src)]: the first [min(len(dst)-c, len(src))] bytes of
    [src] overwrite [dst] from offset [c]. *)
Definition copy_at (dst : bytes) (c : nat) (src : bytes) : bytes :=
  let k := Nat.min (length dst - c) (length src) in
  firstn c dst ++ firstn k src ++ skipn (c + k) dst.

(** [binary.LittleEndian.PutUint64(buf[c:], v)]. *)
Definition PutUint64 (buf : bytes) (c : nat) (v : Z) : bytes :=
  copy_at buf c (le_split 8 v).

(** [binary.LittleEndian.Uint64(bs)] on an 8-byte slice. *)
Definition Uint64 (bs : bytes) : Z := le_combine bs.

(** Modelled from the spec: the constant [types.HashLen], declared in
    [node/types], is the length of the fixed 32-byte [Hash]. *)
Definition HashLen : nat := 32.

(** ** Errors and readers *)

Inductive error : Type :=
| EOF                  (* io.EOF *)
| ErrUnexpectedEOF     (* io.ErrUnexpectedEOF *)
| ErrTransport         (* any other error of the underlying reader *)
| ErrInvalidSigLen     (* errors.New("invalid signature length") *)
| ErrNilKey            (* SignVote: no private key *)
| ErrAppHashRequired   (* a positive vote without an app hash *)
| ErrInvalidVote       (* Verify: a Diverge vote without an app hash *)
| ErrBadSignature.     (* Verify: the signature does not verify *)

(** A Go result pair [(x, err)] of which only one side is meaningful. *)
Inductive result (A : Type) : Type :=
| Ok (a : A)
| Err (e : error).
Arguments Ok {A} a.
Arguments Err {A} e.

(** An [io.Reader]: the bytes it will still deliver and the error it
    reports once they are exhausted ([EOF] for [bytes.NewReader] and for a
    stream closed by the peer, another error for a stream that is reset or
    times out). *)
Record Reader : Type := mkReader {
  pending : bytes;
  at_end  : error
}.

Definition NewReader (data : bytes) : Reader := mkReader data EOF.

(** [io.ReadFull(r, buf)] with [len(buf) = n]: the bytes read, the error
    and the reader afterwards.  Nothing is read when [n = 0]. *)
Definition io_ReadFull (r : Reader) (n : nat) : bytes * option error * Reader :=
  if (n <=? length (pending r))%nat then
    (firstn n (pending r), None, mkReader (skipn n (pending r)) (at_end r))
  else
    let e := match at_end r, pending r with
             | EOF, [] => EOF
             | EOF, _ :: _ => ErrUnexpectedEOF
             | e, _ => e
             end in
    (pending r, Some e, mkReader [] (at_end r)).

(** [binary.Read(r, binary.LittleEndian, &x)] for [x : int64]: eight bytes
    are read into a scratch buffer; [x] is assigned only on success. *)
Definition binary_Read_int64 (r : Reader) : result Z * Reader :=
  let '(bs, err, r') := io_ReadFull r 8 in
  match err with
  | Some e => (Err e, r')
  | None => (Ok (Int64.of_uint64 (Uint64 bs)), r')
  end.

(** [io.ReadAll(r)]: everything up to [EOF]; any other terminal error is
    returned. *)
Definition io_ReadAll (r : Reader) : bytes * option error :=
  match at_end r with
  | EOF => (pending r, None)
  | e => (pending r, Some e)
  end.

(** The destination of a short [io.ReadFull]: the bytes that arrived
    overwrite a prefix of the old contents. *)
Definition fill (old got : bytes) : bytes := got ++ skipn (length got) old.

(** ** blockProp *)

(** The struct [blockProp].  A [nil] and an empty [LeaderSig] are both
    [[]]: they marshal to the same bytes and [bytes.Equal] does not tell
    them apart. *)
Record blockProp : Type := mkBlockProp {
  Height    : Z;
  Hash      : bytes;
  PrevHash  : bytes;
  Stamp     : Z;
  LeaderSig : bytes
}.

(** The values the Go type admits. *)
Definition wf_blockProp (bp : blockProp) : Prop :=
  Int64.in_range (Height bp) /\
  length (Hash bp) = HashLen /\
  length (PrevHash bp) = HashLen /\
  Int64.in_range (Stamp bp).

(** The zero value, [var prop blockProp]. *)
Definition zero_blockProp : blockProp :=
  mkBlockProp 0 (make HashLen) (make HashLen) 0 [].

(** [func (bp blockProp) MarshalBinary() ([]byte, error)] *)
Definition MarshalBinary (bp : blockProp) : bytes * option error :=
  let buf := make (8 + 2 * HashLen + 8 + 8 + length (LeaderSig bp)) in
  let c := 0%nat in
  let buf := PutUint64 buf 0 (Int64.to_uint64 (Height bp)) in
  let c := (c + 8)%nat in
  let buf := copy_at buf c (Hash bp) in
  let c := (c + HashLen)%nat in
  let buf := copy_at buf c (PrevHash bp) in
  let c := (c + HashLen)%nat in
  let buf := PutUint64 buf c (Int64.to_uint64 (Stamp bp)) in
  let c := (c + 8)%nat in
  let buf := PutUint64 buf c (Int64.to_uint64 (Z.of_nat (length (LeaderSig bp)))) in
  let c := (c + 8)%nat in
  let buf := copy_at buf c (LeaderSig bp) in
  (buf, None).

(** The outcome of a call that may panic. *)
Inductive exec (A : Type) : Type :=
| Done (a : A)
| Panic.
Arguments Done {A} a.
Arguments Panic {A}.

(** What [ReadFrom] leaves behind: the count and error it returns, the
    receiver it mutated in place, and the reader. *)
Record ReadFromRes : Type := mkRes {
  rf_n   : Z;
  rf_err : option error;
  rf_bp  : blockProp;
  rf_rd  : Reader
}.

Definition set_Height (bp : blockProp) (h : Z) : blockProp :=
  mkBlockProp h (Hash bp) (PrevHash bp) (Stamp bp) (LeaderSig bp).
Definition set_Hash (bp : blockProp) (h : bytes) : blockProp :=
  mkBlockProp (Height bp) h (PrevHash bp) (Stamp bp) (LeaderSig bp).
Definition set_PrevHash (bp : blockProp) (h : bytes) : blockProp :=
  mkBlockProp (Height bp) (Hash bp) h (Stamp bp) (LeaderSig bp).
Definition set_Stamp (bp : blockProp) (s : Z) : blockProp :=
  mkBlockProp (Height bp) (Hash bp) (PrevHash bp) s (LeaderSig bp).
Definition set_LeaderSig (bp : blockProp) (s : bytes) : blockProp :=
  mkBlockProp (Height bp) (Hash bp) (PrevHash bp) (Stamp bp) s.

(** [func (bp *blockProp) ReadFrom(r io.Reader) (int64, error)].
    [make([]byte, sigLen)] panics for a negative [sigLen]. *)
Definition ReadFrom (bp : blockProp) (r : Reader) : exec ReadFromRes :=
  let n := 0 in
  match binary_Read_int64 r with
  | (Err err, r) => Done (mkRes n (Some err) bp r)
  | (Ok h, r) =>
  let bp := set_Height bp h in
  let n := n + 8 in
  let '(got, err, r) := io_ReadFull r HashLen in
  let bp := set_Hash bp (fill (Hash bp) got) in
  let nr := Z.of_nat (length got) in
  match err with
  | Some err => Done (mkRes nr (Some err) bp r)
  | None =>
  let n := n + nr in
  let '(got, err, r) := io_ReadFull r HashLen in
  let bp := set_PrevHash bp (fill (PrevHash bp) got) in
  let nr := Z.of_nat (length got) in
  match err with
  | Some err => Done (mkRes nr (Some err) bp r)
  | None =>
  let n := n + nr in
  match binary_Read_int64 r with
  | (Err err, r) => Done (mkRes n (Some err) bp r)
  | (Ok s, r) =>
  let bp := set_Stamp bp s in
  let n := n + 8 in
  match binary_Read_int64 r with
  | (Err err, r) => Done (mkRes n (Some err) bp r)
  | (Ok sigLen, r) =>
  let n := n + 8 in
  if 1000 <? sigLen then Done (mkRes n (Some ErrInvalidSigLen) bp r)
  else if sigLen <? 0 then Panic
  else
  let buf := make (Z.to_nat sigLen) in
  let '(got, err, r) := io_ReadFull r (Z.to_nat sigLen) in
  let bp := set_LeaderSig bp (fill buf got) in
  let nr := Z.of_nat (length got) in
  match err with
  | Some err => Done (mkRes nr (Some err) bp r)
  | None =>
  let n := n + nr in
  Done (mkRes n None bp r)
  end end end end end end.

(** [func (bp *blockProp) UnmarshalBinary(data []byte) error]: the error
    and the receiver afterwards. *)
Definition UnmarshalBinary (bp : blockProp) (data : bytes) : exec (option error * blockProp) :=
  match ReadFrom bp (NewReader data) with
  | Done res => Done (rf_err res, rf_bp res)
  | Panic => Panic
  end.

(** [bytes.Equal], and [==] on [[32]byte] arrays and on peer ids. *)
Fixpoint bytes_eqb (a b : bytes) : bool :=
  match a, b with
  | [], [] => true
  | x :: a', y :: b' => Byte.eqb x y && bytes_eqb a' b'
  | _, _ => false
  end.

(** ** Wire types of the gossip topics *)

(** Modelled from the spec: the two key schemes of [core/crypto]. *)
Inductive KeyType : Type := KeyTypeSecp256k1 | KeyTypeEd25519.

(** [types.AckRes], with the fields [sendACK] fills in. *)
Record AckRes : Type := mkAckRes {
  ACK            : bool;
  ack_AppHash    : option bytes;
  BlkHash        : bytes;
  ack_Height     : Z;
  ack_Signature  : bytes;
  ack_PubKeyType : KeyType;
  ack_PubKey     : bytes
}.

(** [types.ConsensusReset], with the fields [sendReset] fills in. *)
Record ConsensusReset : Type := mkConsensusReset {
  ToHeight : Z;
  TxIDs    : list bytes
}.

(** [types.DiscoveryResponse], as [sendDiscoveryResponse] builds it. *)
Record DiscoveryResponse : Type := mkDiscoveryResponse {
  BestHeight : Z
}.

(** Modelled from the spec: the roles [CE.Role()] reports. *)
Inductive Role : Type := RoleLeader | RoleValidator | RoleSentry.

Definition Role_eqb (a b : Role) : bool :=
  match a, b with
  | RoleLeader, RoleLeader | RoleValidator, RoleValidator | RoleSentry, RoleSentry => true
  | _, _ => false
  end.

Inductive Topic : Type := TopicACKs | TopicDiscReq | TopicDiscResp | TopicReset.

(** A [pubsub.Message]: the peer that published it ([From], read through
    [GetFrom]), its payload and the peer that relayed it. *)
Record Message : Type := mkMessage {
  From         : bytes;
  Data         : bytes;
  ReceivedFrom : bytes
}.

(** One successful [sub.Next(ctx)], together with what the node's
    collaborators answer while the message is handled: [n.ce.Role()] and
    the height of [n.bki.Best()].  Both are reads of state owned by other
    tasks, so they are inputs of a loop iteration. *)
Record Delivery : Type := mkDelivery {
  d_msg  : Message;
  d_role : Role;
  d_best : Z
}.

(** One wake-up of a publish task's [select]: the context is done, or a
    value arrives on the channel, paired with the error [topic.Publish]
    will return for it. *)
Inductive Selected (A : Type) : Type :=
| SelDone
| SelRecv (a : A) (publishErr : option error).
Arguments SelDone {A}.
Arguments SelRecv {A} a publishErr.

(** How a task stands when its inputs are used up. *)
Inductive TaskState : Type :=
| Waiting    (* blocked in [select] or in [sub.Next] *)
| Exited.    (* returned; the deferred clean-up runs *)

(** How a stream handler ends. *)
Inductive Ending : Type := Returned | Panicked.

(** An inbound [network.Stream]: the reader side and the error [s.Write]
    returns. *)
Record Stream : Type := mkStream {
  s_in       : Reader;
  s_writeErr : option error
}.

(** ** Collaborators small enough to run

    They instantiate the collaborators of the node in the examples at the
    end of the file. *)

(** A block reduced to its height and hash, encoded as the 8-byte height
    followed by the 32-byte hash. *)
Definition toyBlock : Type := (Z * bytes)%type.

Definition toyDecodeBlock (raw : bytes) : option toyBlock :=
  if (40 <=? length raw)%nat
  then Some (Int64.of_uint64 (Uint64 (firstn 8 raw)), firstn 32 (skipn 8 raw))
  else None.

(** The three ASCII bytes "get". *)
Definition toyGetMsg : bytes := [Byte.x67; Byte.x65; Byte.x74].

(** An engine that accepts every announcement. *)
Definition acceptAll (_ : Z) (_ _ _ : bytes) (_ : Z) : bool := true.

(** A digest stand-in of the right length: the first 32 bytes of the
    zero-padded input. *)
Definition toyHashBytes (b : bytes) : bytes := firstn 32 (b ++ make 32).

(** A signer stand-in: a key is its own public key, a signature is the key
    followed by the message. *)
Definition toySign (k msg : bytes) : bytes := k ++ msg.
Definition toyPublic (k : bytes) : bytes := k.
Definition toyKeyType (_ : bytes) : KeyType := KeyTypeSecp256k1.
Definition toyVerify (_ : KeyType) (pub msg sig : bytes) : bool :=
  bytes_eqb sig (pub ++ msg).
Definition toyVoteBytes (blkID : bytes) (ack : bool) (appHash : option bytes) : bytes :=
  blkID ++ [if ack then Byte.x01 else Byte.x00] ++
  match appHash with Some h => h | None => [] end.

(** Gossip codecs over one-byte payloads, and a peer id that yields a key
    unless it is empty. *)
Definition toyAck (ack : bool) : AckRes :=
  mkAckRes ack None (le_split 32 7) 1 [] KeyTypeSecp256k1 [].

Definition toyAckMarshal (a : AckRes) : bytes * option error :=
  ([if ACK a then Byte.x01 else Byte.x00], None).

Definition toyAckUnmarshal (data : bytes) : option AckRes :=
  match data with
  | [Byte.x01] => Some (toyAck true)
  | [Byte.x00] => Some (toyAck false)
  | _ => None
  end.

Definition toyResetUnmarshal (data : bytes) : option ConsensusReset :=
  match data with
  | [] => None
  | b :: _ => Some (mkConsensusReset (byte.unsigned b) [])
  end.

Definition toyPubKeyFromPeerID (id : bytes) : option bytes :=
  match id with
  | [] => None
  | _ :: _ => Some (Byte.xff :: id)
  end.

Definition peerA : bytes := [Byte.x0a].
Definition peerB : bytes := [Byte.x0b].

(** ** Sample inputs *)

Definition sample_prop : blockProp :=
  mkBlockProp 1 (le_split 32 7) (le_split 32 9) 1729890593000
    [Byte.x01; Byte.x02; Byte.x03].

(** A well-formed proposal whose signature has 1001 bytes. *)
Definition long_sig_prop : blockProp :=
  mkBlockProp 1 (le_split 32 7) (le_split 32 9) 1729890593000 (repeat Byte.x01 1001).

(** The fixed fields with the given [sigLen], followed by two bytes. *)
Definition header_with_sigLen (sigLen : Z) : bytes :=
  le_split 8 1 ++ le_split 32 7 ++ le_split 32 9 ++ le_split 8 1729890593000 ++
  le_split 8 (Int64.to_uint64 sigLen) ++ [Byte.x01; Byte.x02].

(** A stream that carries an announcement of block (1, hash 7), then that
    block, and on which the write of the request token fails. *)
Definition announced_block : toyBlock := (1, le_split 32 7).

Definition write_error_stream : Stream :=
  mkStream
    (NewReader (fst (MarshalBinary (mkBlockProp 1 (le_split 32 7) (le_split 32 9) 0 []))
                ++ le_split 8 1 ++ le_split 32 7))
    (Some ErrTransport).

(** * The chain metadata store (package [meta])

    The store is a SQL schema with two tables: [chain], with the columns
    [height] and [app_hash] and no key, and [consensus_params], keyed by
    [param_name].  The SQL statements are the package's constants. *)

(** A value of a result row, or an argument of a statement. *)
Inductive SqlValue : Type :=
| SqlInt (z : Z)
| SqlText (s : String.string)
| SqlBytes (b : bytes)
| SqlNull.

(** The statements the package executes. *)
Inductive Stmt : Type :=
| insertChainState   (* INSERT INTO kwild_chain.chain VALUES ($1, $2); *)
| setChainState      (* UPDATE kwild_chain.chain SET height = $1, app_hash = $2; *)
| getChainState      (* SELECT height, app_hash FROM kwild_chain.chain; *)
| upsertParam        (* INSERT INTO kwild_chain.consensus_params VALUES ($1, $2)
                        ON CONFLICT (param_name) DO UPDATE SET param_value = $2; *)
| getParams.         (* SELECT param_name, param_value FROM kwild_chain.consensus_params; *)

(** The part of [sql.ResultSet] the package reads. *)
Record ResultSet : Type := mkResultSet {
  Rows         : list (list SqlValue);
  RowsAffected : Z
}.

(** The errors of the package. *)
Inductive MetaErr : Type :=
| DbErr (e : error)                       (* an error of the database *)
| ErrTooManyRows (n : nat)                (* "expected at most one row, got %d" *)
| ErrColumns (n : nat)                    (* "expected two columns, got %d" *)
| ErrHeightType                           (* "invalid type for height (%T)" *)
| ErrAppHashType                          (* "expected bytes for apphash, got %T" *)
| ErrParamsNotFound                       (* ErrParamsNotFound *)
| ErrRowCount (n : nat)                   (* "expected four rows, got %d" *)
| ErrParamNameType                        (* "expected string for param name, got %T" *)
| ErrParamValueType                       (* "expected bytes for param value, got %T" *)
| ErrUnknownParam (name : String.string). (* "internal bug: unknown param name: %s" *)

Definition maxBlockSizeKey : String.string := "max_block_size"%string.
Definition joinExpiryKey : String.string := "join_expiry"%string.
Definition voteExpiryKey : String.string := "vote_expiry"%string.
Definition disabledGasKey : String.string := "disabled_gas_costs"%string.

(** The fields of [common.NetworkParameters] the package reads and
    writes. *)
Record NetworkParameters : Type := mkParams {
  MaxBlockSize     : Z;
  JoinExpiry       : Z;
  VoteExpiry       : Z;
  DisabledGasCosts : bool
}.

(** The values the Go type admits. *)
Definition wf_params (p : NetworkParameters) : Prop :=
  Int64.in_range (MaxBlockSize p) /\ Int64.in_range (JoinExpiry p) /\
  Int64.in_range (VoteExpiry p).

(** [&common.NetworkParameters{}] *)
Definition zero_params : NetworkParameters := mkParams 0 0 0 false.

(** ** The tables and the meaning of the statements *)

Record Store : Type := mkStore {
  chain_rows : list (SqlValue * SqlValue);
  param_rows : list (String.string * bytes)
}.

Definition fresh_store : Store := mkStore [] [].

(** [ON CONFLICT (param_name) DO UPDATE]: the row of the key is replaced
    where it stands; a new key is added. *)
Fixpoint upsert (k : String.string) (v : bytes) (rows : list (String.string * bytes))
  : list (String.string * bytes) :=
  match rows with
  | [] => [(k, v)]
  | (k', v') :: rest =>
      if String.eqb k k' then (k, v) :: rest else (k', v') :: upsert k v rest
  end.

(** One statement on the tables: the result set and the tables afterwards.
    Arguments that do not fit the columns are an error of the database. *)
Definition run (q : Stmt) (args : list SqlValue) (st : Store)
  : (ResultSet + error) * Store :=
  match q, args with
  | getChainState, [] =>
      (inl (mkResultSet (map (fun r => [fst r; snd r]) (chain_rows st))
              (Z.of_nat (length (chain_rows st)))), st)
  | setChainState, [SqlInt h; a] =>
      (inl (mkResultSet [] (Z.of_nat (length (chain_rows st)))),
       mkStore (map (fun _ => (SqlInt h, a)) (chain_rows st)) (param_rows st))
  | insertChainState, [SqlInt h; a] =>
      (inl (mkResultSet [] 1),
       mkStore (chain_rows st ++ [(SqlInt h, a)]) (param_rows st))
  | upsertParam, [SqlText k; SqlBytes v] =>
      (inl (mkResultSet [] 1), mkStore (chain_rows st) (upsert k v (param_rows st)))
  | getParams, [] =>
      (inl (mkResultSet
              (map (fun r => [SqlText (fst r); SqlBytes (snd r)]) (param_rows st))
              (Z.of_nat (length (param_rows st)))), st)
  | _, _ => (inr ErrTransport, st)
  end.

(** What can go wrong in the database during one call: beginning the
    transaction, the i-th [Execute], and the commit. *)
Record Faults : Type := mkFaults {
  begin_fails  : option error;
  exec_fails   : nat -> option error;
  commit_fails : option error
}.

Definition no_faults : Faults := mkFaults None (fun _ => None) None.

(** The i-th [Execute] of a call, on the tables the caller sees. *)
Definition Execute (f : Faults) (i : nat) (q : Stmt) (args : list SqlValue) (st : Store)
  : (ResultSet + error) * Store :=
  match exec_fails f i with
  | Some e => (inr e, st)
  | None => run q args st
  end.

(** ** The functions of the package *)

(** [sql.Int64], declared in [common/sql]: the integer a value holds. *)
Definition sql_Int64 (v : SqlValue) : option Z :=
  match v with
  | SqlInt z => Some z
  | _ => None
  end.

(** [func GetChainState(ctx, db) (int64, []byte, error)] *)
Definition GetChainState (f : Faults) (db : Store) : Z * bytes * option MetaErr :=
  match fst (Execute f 0 getChainState [] db) with
  | inr err => (0, [], Some (DbErr err))
  | inl res =>
      match length (Rows res) with
      | 0%nat => (-1, [], None)
      | 1%nat =>
          let row := hd [] (Rows res) in
          if negb (length row =? 2)%nat then (0, [], Some (ErrColumns (length row)))
          else
            match sql_Int64 (nth 0 row SqlNull) with
            | None => (0, [], Some ErrHeightType)
            | Some height =>
                match nth 1 row SqlNull with
                | SqlBytes appHash => (height, appHash, None)
                | _ => (0, [], Some ErrAppHashType)
                end
            end
      | n => (0, [], Some (ErrTooManyRows n))
      end
  end.

(** [func SetChainState(ctx, db, height, appHash) error]: the error and the
    tables afterwards.  The transaction works on its own copy of the
    tables; the deferred [tx.Rollback] drops it unless [tx.Commit] came
    first.  [appHash] is a slice that is not [nil]. *)
Definition SetChainState (f : Faults) (db : Store) (height : Z) (appHash : bytes)
  : option MetaErr * Store :=
  match begin_fails f with
  | Some err => (Some (DbErr err), db)
  | None =>
      let tx := db in
      match Execute f 0 setChainState [SqlInt height; SqlBytes appHash] tx with
      | (inr err, _) => (Some (DbErr err), db)
      | (inl res, tx) =>
          let '(err, tx) :=
            if RowsAffected res =? 0
            then match Execute f 1 insertChainState [SqlInt height; SqlBytes appHash] tx with
                 | (inr err, tx) => (Some err, tx)
                 | (inl _, tx) => (None, tx)
                 end
            else (None, tx) in
          match err with
          | Some err => (Some (DbErr err), db)
          | None =>
              match commit_fails f with
              | Some err => (Some (DbErr err), db)
              | None => (None, tx)
              end
          end
      end
  end.

(** The one-byte encoding of [DisabledGasCosts]. *)
Definition gas_byte (disabled : bool) : bytes :=
  let buf := make 1 in
  if disabled then copy_at buf 0 [Byte.x01] else buf.

(** [func StoreParams(ctx, db, params) error]: the error and the tables
    afterwards.  Each [Execute] is handed the contents the buffer has at
    the time of the call. *)
Definition StoreParams (f : Faults) (db : Store) (params : NetworkParameters)
  : option MetaErr * Store :=
  match begin_fails f with
  | Some err => (Some (DbErr err), db)
  | None =>
      let tx := db in
      let buf := make 8 in
      let buf := PutUint64 buf 0 (Int64.to_uint64 (MaxBlockSize params)) in
      match Execute f 0 upsertParam [SqlText maxBlockSizeKey; SqlBytes buf] tx with
      | (inr err, _) => (Some (DbErr err), db)
      | (inl _, tx) =>
      let buf := PutUint64 buf 0 (Int64.to_uint64 (JoinExpiry params)) in
      match Execute f 1 upsertParam [SqlText joinExpiryKey; SqlBytes buf] tx with
      | (inr err, _) => (Some (DbErr err), db)
      | (inl _, tx) =>
      let buf := PutUint64 buf 0 (Int64.to_uint64 (VoteExpiry params)) in
      match Execute f 2 upsertParam [SqlText voteExpiryKey; SqlBytes buf] tx with
      | (inr err, _) => (Some (DbErr err), db)
      | (inl _, tx) =>
      let buf := gas_byte (DisabledGasCosts params) in
      match Execute f 3 upsertParam [SqlText disabledGasKey; SqlBytes buf] tx with
      | (inr err, _) => (Some (DbErr err), db)
      | (inl _, tx) =>
      match commit_fails f with
      | Some err => (Some (DbErr err), db)
      | None => (None, tx)
      end end end end end
  end.

(** [func diff(original, new) map[string][]byte]: the entries of the map,
    in the order of the tests that add them; the keys are distinct. *)
Definition diff (original new : NetworkParameters) : list (String.string * bytes) :=
  (if negb (MaxBlockSize original =? MaxBlockSize new)
   then [(maxBlockSizeKey, PutUint64 (make 8) 0 (Int64.to_uint64 (MaxBlockSize new)))]
   else []) ++
  (if negb (JoinExpiry original =? JoinExpiry new)
   then [(joinExpiryKey, PutUint64 (make 8) 0 (Int64.to_uint64 (JoinExpiry new)))]
   else []) ++
  (if negb (VoteExpiry original =? VoteExpiry new)
   then [(voteExpiryKey, PutUint64 (make 8) 0 (Int64.to_uint64 (VoteExpiry new)))]
   else []) ++
  (if negb (Bool.eqb (DisabledGasCosts original) (DisabledGasCosts new))
   then [(disabledGasKey, gas_byte (DisabledGasCosts new))]
   else []).

(** The body of the [for param, value := range diff] loop of [StoreDiff],
    over the entries in the order the map yields them; [i] counts the
    [Execute] calls. *)
Fixpoint store_entries (f : Faults) (i : nat) (entries : list (String.string * bytes))
  (tx : Store) : option error * Store :=
  match entries with
  | [] => (None, tx)
  | (param, value) :: rest =>
      match Execute f i upsertParam [SqlText param; SqlBytes value] tx with
      | (inr err, tx) => (Some err, tx)
      | (inl _, tx) => store_entries f (S i) rest tx
      end
  end.

(** [func StoreDiff(ctx, db, original, new) error], with the order
    [range] yields the entries of [diff original new] in. *)
Definition StoreDiff (f : Faults) (db : Store) (original new : NetworkParameters)
  (ranged : list (String.string * bytes)) : option MetaErr * Store :=
  if (length (diff original new) =? 0)%nat then (None, db)
  else
    match begin_fails f with
    | Some err => (Some (DbErr err), db)
    | None =>
        match store_entries f 0 ranged db with
        | (Some err, _) => (Some (DbErr err), db)
        | (None, tx) =>
            match commit_fails f with
            | Some err => (Some (DbErr err), db)
            | None => (None, tx)
            end
        end
    end.

(** What [LoadParams] returns, unless it panics. *)
Inductive Loaded : Type :=
| LoadedParams (p : NetworkParameters)
| LoadFailed (e : MetaErr).

(** The [for _, row := range res.Rows] loop of [LoadParams].
    [binary.LittleEndian.Uint64] panics on fewer than 8 bytes and reads the
    first 8 of more; [value[0]] panics on no byte. *)
Fixpoint load_rows (rows : list (list SqlValue)) (params : NetworkParameters) : exec Loaded :=
  match rows with
  | [] => Done (LoadedParams params)
  | row :: rest =>
      if negb (length row =? 2)%nat then Done (LoadFailed (ErrColumns (length row)))
      else
        match nth 0 row SqlNull with
        | SqlText param =>
            match nth 1 row SqlNull with
            | SqlBytes value =>
                if String.eqb param maxBlockSizeKey then
                  if (length value <? 8)%nat then Panic
                  else load_rows rest
                         (mkParams (Int64.of_uint64 (Uint64 (firstn 8 value)))
                            (JoinExpiry params) (VoteExpiry params) (DisabledGasCosts params))
                else if String.eqb param joinExpiryKey then
                  if (length value <? 8)%nat then Panic
                  else load_rows rest
                         (mkParams (MaxBlockSize params)
                            (Int64.of_uint64 (Uint64 (firstn 8 value)))
                            (VoteExpiry params) (DisabledGasCosts params))
                else if String.eqb param voteExpiryKey then
                  if (length value <? 8)%nat then Panic
                  else load_rows rest
                         (mkParams (MaxBlockSize params) (JoinExpiry params)
                            (Int64.of_uint64 (Uint64 (firstn 8 value)))
                            (DisabledGasCosts params))
                else if String.eqb param disabledGasKey then
                  match value with
                  | [] => Panic
                  | b :: _ =>
                      load_rows rest
                        (mkParams (MaxBlockSize params) (JoinExpiry params)
                           (VoteExpiry params) (Byte.eqb b Byte.x01))
                  end
                else Done (LoadFailed (ErrUnknownParam param))
            | _ => Done (LoadFailed ErrParamValueType)
            end
        | _ => Done (LoadFailed ErrParamNameType)
        end
  end.

(** [func LoadParams(ctx, db)], which returns the parameters or an error. *)
Definition LoadParams (f : Faults) (db : Store) : exec Loaded :=
  match fst (Execute f 0 getParams [] db) with
  | inr err => Done (LoadFailed (DbErr err))
  | inl res =>
      if (length (Rows res) =? 0)%nat then Done (LoadFailed ErrParamsNotFound)
      else if negb (length (Rows res) =? 4)%nat
      then Done (LoadFailed (ErrRowCount (length (Rows res))))
      else load_rows (Rows res) zero_params
  end.

(** The calls of a history of [SetChainState]: the faults of the database
    during the call, and the arguments. *)
Definition SetCall : Type := (Faults * Z * bytes)%type.

Fixpoint run_sets (calls : list SetCall) (db : Store) : Store :=
  match calls with
  | [] => db
  | (f, h, a) :: rest => run_sets rest (snd (SetChainState f db h a))
  end.

(** The arguments of the last call of a history that returned no error. *)
Fixpoint last_set (calls : list SetCall) (db : Store) (prev : option (Z * bytes))
  : option (Z * bytes) :=
  match calls with
  | [] => prev
  | (f, h, a) :: rest =>
      match SetChainState f db h a with
      | (None, db') => last_set rest db' (Some (h, a))
      | (Some _, db') => last_set rest db' prev
      end
  end.

(** ** Conditions of the properties of the store *)

Definition param_keys : list String.string :=
  [maxBlockSizeKey; joinExpiryKey; voteExpiryKey; disabledGasKey].

(** The value the parameters table holds for a key. *)
Fixpoint lookup_param (k : String.string) (rows : list (String.string * bytes))
  : option bytes :=
  match rows with
  | [] => None
  | (k', v) :: rest => if String.eqb k k' then Some v else lookup_param k rest
  end.

(** A parameters table as the schema and the package keep it: one row per
    name, and only the four names of the package. *)
Definition wf_param_rows (rows : list (String.string * bytes)) : Prop :=
  NoDup (map fst rows) /\ incl (map fst rows) param_keys.

(** The eight bytes [StoreParams] and [diff] store for an [int64]. *)
Definition enc_int64 (x : Z) : bytes := le_split 8 (Int64.to_uint64 x).

(** The table holds exactly the encodings of the parameters. *)
Definition holds_params (rows : list (String.string * bytes)) (p : NetworkParameters) : Prop :=
  wf_param_rows rows /\
  lookup_param maxBlockSizeKey rows = Some (enc_int64 (MaxBlockSize p)) /\
  lookup_param joinExpiryKey rows = Some (enc_int64 (JoinExpiry p)) /\
  lookup_param voteExpiryKey rows = Some (enc_int64 (VoteExpiry p)) /\
  lookup_param disabledGasKey rows = Some (gas_byte (DisabledGasCosts p)).

(** A row [LoadParams] reads without panic, and a row on which it
    panics. *)
Definition row_readable (r : String.string * bytes) : Prop :=
  ((fst r = maxBlockSizeKey \/ fst r = joinExpiryKey \/ fst r = voteExpiryKey) /\
   (8 <= length (snd r))%nat) \/
  (fst r = disabledGasKey /\ snd r <> []).

Definition row_too_short (r : String.string * bytes) : Prop :=
  ((fst r = maxBlockSizeKey \/ fst r = joinExpiryKey \/ fst r = voteExpiryKey) /\
   (length (snd r) < 8)%nat) \/
  (fst r = disabledGasKey /\ snd r = []).

(** * Votable events and migration status (package [types]) *)

(** [type MigrationStatus string] and its constants. *)
Definition MigrationStatus : Type := String.string.

Definition NoActiveMigration : MigrationStatus := "NoActiveMigration"%string.
Definition ActivationPeriod : MigrationStatus := "ActivationPeriod"%string.
Definition MigrationInProgress : MigrationStatus := "MigrationInProgress"%string.
Definition MigrationCompleted : MigrationStatus := "MigrationCompleted"%string.
Definition GenesisMigration : MigrationStatus := "GenesisMigration"%string.

(** [func (ms MigrationStatus) NoneActive() bool] *)
Definition NoneActive (ms : MigrationStatus) : bool :=
  String.eqb ms NoActiveMigration || String.eqb ms String.EmptyString.

(** [func (ms MigrationStatus) Active() bool] *)
Definition Active (ms : MigrationStatus) : bool := negb (NoneActive ms).

(** [func (ms MigrationStatus) Valid() bool] *)
Definition Valid (ms : MigrationStatus) : bool :=
  if String.eqb ms NoActiveMigration then true
  else if String.eqb ms ActivationPeriod then true
  else if String.eqb ms MigrationInProgress then true
  else if String.eqb ms MigrationCompleted then true
  else if String.eqb ms GenesisMigration then true
  else false.

(** The struct [VotableEvent]. *)
Record VotableEvent : Type := mkVotableEvent {
  ve_Type : String.string;
  ve_Body : bytes
}.

Definition veVersion : Z := 0.

(** What [VotableEvent.UnmarshalBinary] returns as an error: an error of a
    read, or [fmt.Errorf("invalid version: %d", version)]. *)
Inductive VeError : Type :=
| VeRead (e : error)
| VeInvalidVersion (version : Z).

(** [binary.Write(buf, binary.BigEndian, v)] for [v : uint16] on a
    [bytes.Buffer], which takes every write: the two bytes appended. *)
Definition binary_Write_uint16_be (v : Z) : bytes := rev (le_split 2 v).

(** [binary.Read(buf, binary.BigEndian, &x)] for [x : uint16]: two bytes
    are read in full, or the error of the read is returned. *)
Definition binary_Read_uint16_be (r : Reader) : result Z * Reader :=
  let '(bs, err, r') := io_ReadFull r 2 in
  match err with
  | Some e => (Err e, r')
  | None => (Ok (le_combine (rev bs)), r')
  end.

(** Length-prefixed stand-ins for the helpers [WriteBytes], [ReadBytes],
    [WriteString] and [ReadString] of the package: a 4-byte little-endian
    length, then the bytes. *)
Definition toyWriteBytes (b : bytes) : bytes :=
  le_split 4 (Z.of_nat (length b)) ++ b.

Definition toyReadBytes (data : bytes) : result (bytes * bytes) :=
  let '(hd, err, r) := io_ReadFull (NewReader data) 4 in
  match err with
  | Some e => Err e
  | None =>
      let '(bs, err, r') := io_ReadFull r (Z.to_nat (le_combine hd)) in
      match err with
      | Some e => Err e
      | None => Ok (bs, pending r')
      end
  end.

Definition toyWriteString (s : String.string) : bytes :=
  toyWriteBytes (String.list_byte_of_string s).

Definition toyReadString (data : bytes) : result (String.string * bytes) :=
  match toyReadBytes data with
  | Ok (b, rest) => Ok (String.string_of_list_byte b, rest)
  | Err e => Err e
  end.

Definition sample_event : VotableEvent :=
  mkVotableEvent "deposit"%string [Byte.x01; Byte.x02; Byte.x03].

(** ** Stand-ins and samples for the further properties *)

Definition toyEncodeBlock (blk : toyBlock) : bytes :=
  le_split 8 (Int64.to_uint64 (fst blk)) ++ snd blk.



Definition toyResetBytes (r : ConsensusReset) : bytes := [byte.of_Z (ToHeight r)].

Definition sample_params : NetworkParameters := mkParams 6291456 14400 108000 false.
Definition other_params : NetworkParameters := mkParams 6291456 86400 108000 true.

(** The tables after [StoreParams] of [sample_params] on empty tables. *)
Definition sample_store : Store :=
  snd (StoreParams no_faults fresh_store sample_params).

Section Node.

Set Default Proof Using "Type".

(** ** Collaborators declared outside this package

    [ktypes.Block] with [ktypes.DecodeBlock], [blk.Header.Height] and
    [blk.Header.Hash()]; the codecs of the gossip payloads;
    [peers.PubKeyFromPeerID] followed by [Bytes()]; the request token
    [getMsg]; and the consensus engine's [AcceptProposal]. *)

Variable Block : Type.
Variable DecodeBlock : bytes -> option Block.
Variable Header_Height : Block -> Z.
Variable Header_Hash : Block -> bytes.

Variable AckRes_MarshalBinary : AckRes -> bytes * option error.
Variable AckRes_UnmarshalBinary : bytes -> option AckRes.
Variable DiscRes_UnmarshalBinary : bytes -> option DiscoveryResponse.
Variable ConsensusReset_UnmarshalBinary : bytes -> option ConsensusReset.

Variable PubKeyFromPeerID : bytes -> option bytes.

Variable getMsg : bytes.

Variable ce_AcceptProposal : Z -> bytes -> bytes -> bytes -> Z -> bool.

(** ** Events *)

(** The notifications of the consensus engine. *)
Inductive CENotify : Type :=
| NotifyBlockProposal (blk : Block)
| NotifyACK (senderPubKey : bytes) (ack : AckRes)
| NotifyDiscoveryMessage (senderPubKey : bytes) (bestHeight : Z)
| NotifyResetState (toHeight : Z) (txIDs : list bytes) (senderPubKey : bytes).

Inductive event : Type :=
| EvAcceptProposal (height : Z) (hash prevHash leaderSig : bytes) (stamp : Z) (ret : bool)
| EvCall (c : CENotify)                             (* n.ce.X(...) *)
| EvGo (c : CENotify)                               (* go n.ce.X(...) *)
| EvWrite (data : bytes) (err : option error)       (* s.Write(data) *)
| EvClose                                           (* s.Close() *)
| EvPublish (t : Topic) (data : bytes) (err : option error)
| EvSendDiscResp (m : DiscoveryResponse).           (* n.discResp <- m *)

(** ** Block proposal stream *)

(** The body of [blkPropStreamHandler], before the deferred [s.Close()]. *)
Definition blkPropStreamBody (s : Stream) : list event * Ending :=
  match ReadFrom zero_blockProp (s_in s) with
  | Panic => ([], Panicked)
  | Done res =>
  match rf_err res with
  | Some _ => ([], Returned)
  | None =>
  let prop := rf_bp res in
  let height := Height prop in
  let accept :=
    ce_AcceptProposal height (Hash prop) (PrevHash prop) (LeaderSig prop) (Stamp prop) in
  let tr :=
    [EvAcceptProposal height (Hash prop) (PrevHash prop) (LeaderSig prop) (Stamp prop) accept] in
  if negb accept then (tr, Returned)
  else
  let tr := tr ++ [EvWrite getMsg (s_writeErr s)] in
  match s_writeErr s with
  | Some _ => (tr, Returned)
  | None =>
  match io_ReadAll (rf_rd res) with
  | (_, Some _) => (tr, Returned)
  | (blkProp, None) =>
  match DecodeBlock blkProp with
  | None => (tr, Returned)
  | Some blk =>
  if negb (Header_Height blk =? height) then (tr, Returned)
  else
  let annHash := Hash prop in
  let hash := Header_Hash blk in
  if negb (bytes_eqb hash annHash) then (tr, Returned)
  else (tr ++ [EvCall (NotifyBlockProposal blk)], Returned)
  end end end end end.

(** [func (n *Node) blkPropStreamHandler(s network.Stream)]: the deferred
    [s.Close()] runs on every exit, a panic included. *)
Definition blkPropStreamHandler (s : Stream) : list event * Ending :=
  let '(tr, e) := blkPropStreamBody s in (tr ++ [EvClose], e).

(** ** ACK gossip *)

(** The publish task of [startAckGossip]: the [for]/[select] loop over
    [ctx.Done()] and [n.ackChan]. *)
Fixpoint ackPublishLoop (wakeups : list (Selected AckRes)) : list event * TaskState :=
  match wakeups with
  | [] => ([], Waiting)
  | SelDone :: _ => ([], Exited)
  | SelRecv ack err :: rest =>
      let ackMsg := fst (AckRes_MarshalBinary ack) in
      let ev := EvPublish TopicACKs ackMsg err in
      match err with
      | Some _ => ([ev], Exited)
      | None => let '(tr, st) := ackPublishLoop rest in (ev :: tr, st)
      end
  end.

(** One iteration of the receive task of [startAckGossip], after a
    successful [subAck.Next]. *)
Definition ackRecvStep (me : bytes) (d : Delivery) : list event :=
  let ackMsg := d_msg d in
  if negb (Role_eqb (d_role d) RoleLeader) then []
  else if bytes_eqb (From ackMsg) me then []
  else
  match AckRes_UnmarshalBinary (Data ackMsg) with
  | None => []
  | Some ack =>
  let fromPeerID := From ackMsg in
  match PubKeyFromPeerID fromPeerID with
  | None => []
  | Some pubkeyBytes => [EvGo (NotifyACK pubkeyBytes ack)]
  end end.

(** The receive task runs its iterations in the order of delivery, until
    [Next] fails. *)
Definition ackRecvLoop (me : bytes) (ds : list Delivery) : list event :=
  flat_map (ackRecvStep me) ds.

(** ** Discovery gossip *)

(** [func (n *Node) sendDiscoveryResponse(bestHeight int64)] *)
Definition sendDiscoveryResponse (bestHeight : Z) : list event :=
  [EvSendDiscResp (mkDiscoveryResponse bestHeight)].

(** One iteration of the receive task of [startDiscoveryRequestGossip]. *)
Definition discReqRecvStep (me : bytes) (d : Delivery) : list event :=
  let discMsg := d_msg d in
  if bytes_eqb (From discMsg) me then []
  else
  let bestHeight := d_best d in
  sendDiscoveryResponse bestHeight.

Definition discReqRecvLoop (me : bytes) (ds : list Delivery) : list event :=
  flat_map (discReqRecvStep me) ds.

(** One iteration of the receive task of [startDiscoveryResponseGossip]. *)
Definition discRespRecvStep (me : bytes) (d : Delivery) : list event :=
  let discMsg := d_msg d in
  if negb (Role_eqb (d_role d) RoleLeader) then []
  else if bytes_eqb (From discMsg) me then []
  else
  match DiscRes_UnmarshalBinary (Data discMsg) with
  | None => []
  | Some dm =>
  let fromPeerID := From discMsg in
  match PubKeyFromPeerID fromPeerID with
  | None => []
  | Some pubkeyBytes => [EvGo (NotifyDiscoveryMessage pubkeyBytes (BestHeight dm))]
  end end.

Definition discRespRecvLoop (me : bytes) (ds : list Delivery) : list event :=
  flat_map (discRespRecvStep me) ds.

(** ** Consensus reset gossip *)

(** One iteration of the receive task of [startConsensusResetGossip]. *)
Definition resetRecvStep (me : bytes) (d : Delivery) : list event :=
  let resetMsg := d_msg d in
  if bytes_eqb (From resetMsg) me then []
  else
  match ConsensusReset_UnmarshalBinary (Data resetMsg) with
  | None => []
  | Some reset =>
  let fromPeerID := From resetMsg in
  match PubKeyFromPeerID fromPeerID with
  | None => []
  | Some pubkeyBytes =>
      [EvCall (NotifyResetState (ToHeight reset) (TxIDs reset) pubkeyBytes)]
  end end.

Definition resetRecvLoop (me : bytes) (ds : list Delivery) : list event :=
  flat_map (resetRecvStep me) ds.

(** ** Merkle root *)

(** [types.HashBytes], the 32-byte digest of [core/types]. *)
Variable HashBytes : bytes -> bytes.
Hypothesis HashBytes_length : forall b, length (HashBytes b) = HashLen.

(** The zero value [Hash{}]. *)
Definition ZeroHash : bytes := make HashLen.

(** Modelled from the spec: [CalcMerkleRoot] is defined in [core/types],
    of which only the tests are at hand.  "If the current level has odd
    count, duplicate the last". *)
Definition dup_last (level : list bytes) : list bytes :=
  if Nat.odd (length level) then level ++ [last level ZeroHash] else level.

(** Modelled from the spec: "pair adjacent leaves; concatenate 32-byte
    children and hash to 32 bytes". *)
Fixpoint pair_up (level : list bytes) : list bytes :=
  match level with
  | l :: r :: rest => HashBytes (l ++ r) :: pair_up rest
  | _ => []
  end.

(** Modelled from the spec: one level of the tree. *)
Definition merkle_level (level : list bytes) : list bytes :=
  pair_up (dup_last level).

(** Modelled from the spec: [CalcMerkleRoot] of [core/types], of which
    only the tests are at hand.  "Empty -> zero hash; one leaf -> the leaf
    itself; otherwise ... repeat". *)
Equations CalcMerkleRoot (leaves : list bytes) : bytes by wf (length leaves) lt :=
CalcMerkleRoot [] := ZeroHash;
CalcMerkleRoot [leaf] := leaf;
CalcMerkleRoot (l :: r :: rest) := CalcMerkleRoot (merkle_level (l :: r :: rest)).
Next Obligation.
  assert (Hpair : forall level : list bytes,
            length (pair_up level) = Nat.div2 (length level)).
  { intros level.
    enough (H : length (pair_up level) = Nat.div2 (length level) /\
                forall x, length (pair_up (x :: level)) = Nat.div2 (S (length level)))
      by apply H.
    induction level as [| y level [IH1 IH2]]; split; intros; try reflexivity.
    - apply IH2.
    - cbn [pair_up length Nat.div2]. f_equal. exact IH1. }
  unfold merkle_level, dup_last. rewrite Hpair.
  assert (Hdup : (length (if Nat.odd (length (l :: r :: rest))
                          then (l :: r :: rest) ++ [last (l :: r :: rest) ZeroHash]
                          else l :: r :: rest) <= S (length (l :: r :: rest)))%nat).
  { destruct (Nat.odd (length (l :: r :: rest))).
    - rewrite length_app, Nat.add_1_r. apply Nat.le_refl.
    - apply Nat.le_succ_diag_r. }
  revert Hdup. generalize (length (if Nat.odd (length (l :: r :: rest))
                          then (l :: r :: rest) ++ [last (l :: r :: rest) ZeroHash]
                          else l :: r :: rest)).
  cbn [length]. intros n Hn. rewrite Nat.div2_div.
  apply Nat.Div0.div_lt_upper_bound. lia.
Qed.

(** ** Votes *)

(** Modelled from the spec: [SignVote] and [VoteInfo.Verify] are defined
    in [core/types], of which only the tests are at hand; so are the types
    [Signature], [AckStatus] and [VoteInfo] of the spec's data model. *)
Inductive AckStatus : Type := AckStatusAgree | AckStatusDisagree | AckStatusDiverge.

Record Signature : Type := mkSignature {
  sig_Data       : bytes;
  sig_PubKey     : bytes;
  sig_PubKeyType : KeyType
}.

Record VoteInfo : Type := mkVoteInfo {
  vi_Signature : Signature;
  vi_AckStatus : AckStatus;
  vi_AppHash   : option bytes
}.

(** The abstract signer and verifier of the spec's signer contract: a
    private key signs message bytes and carries its public key and key
    type; a signature made by a key verifies under that key's public key. *)
Variable PrivateKey : Type.
Variable key_Sign : PrivateKey -> bytes -> bytes.
Variable key_Public : PrivateKey -> bytes.
Variable key_Type : PrivateKey -> KeyType.
Variable sig_Verify : KeyType -> bytes -> bytes -> bytes -> bool.
Hypothesis sig_Verify_Sign : forall k msg,
  sig_Verify (key_Type k) (key_Public k) msg (key_Sign k msg) = true.

(** The canonical byte string over [(BlockID, Ack, AppHash?)]. *)
Variable voteBytes : bytes -> bool -> option bytes -> bytes.

(** Modelled from the spec: the vote digest of [core/types], of which only
    the tests are at hand; [Ack = true] with no app hash is an error, the
    three other combinations are signed. *)
Definition voteDigest (blkID : bytes) (ack : bool) (appHash : option bytes) : result bytes :=
  match ack, appHash with
  | true, None => Err ErrAppHashRequired
  | _, _ => Ok (voteBytes blkID ack appHash)
  end.

(** Modelled from the spec: [SignVote(blkID, ack, appHash, privKey)] of
    [core/types], of which only the tests are at hand.  [privKey] is an
    interface value and may be [nil]; the test "SignVote with nil key" of
    [TestSignAndVerifyVote] expects an error then. *)
Definition SignVote (blkID : bytes) (ack : bool) (appHash : option bytes)
  (privKey : option PrivateKey) : result Signature :=
  match privKey with
  | None => Err ErrNilKey
  | Some k =>
      match voteDigest blkID ack appHash with
      | Err e => Err e
      | Ok msg => Ok (mkSignature (key_Sign k msg) (key_Public k) (key_Type k))
      end
  end.

(** Modelled from the spec: [VoteInfo.Verify(blkID, appHash)] of
    [core/types], of which only the tests are at hand.  It rebuilds the
    digest from the [AckStatus] and checks the signature under the public
    key the signature carries; [None] is a [nil] error. *)
Definition VoteInfo_Verify (v : VoteInfo) (blkID appHash : bytes) : option error :=
  let digest :=
    match vi_AckStatus v with
    | AckStatusAgree => voteDigest blkID true (Some appHash)
    | AckStatusDisagree => voteDigest blkID false None
    | AckStatusDiverge =>
        match vi_AppHash v with
        | None => Err ErrInvalidVote
        | Some ah => voteDigest blkID false (Some ah)
        end
    end in
  match digest with
  | Err e => Some e
  | Ok msg =>
      let sig := vi_Signature v in
      if sig_Verify (sig_PubKeyType sig) (sig_PubKey sig) msg (sig_Data sig)
      then None else Some ErrBadSignature
  end.

(** The [sigLen] field of an input that holds the five fixed fields: the
    eight bytes from offset 80, read as a little-endian [int64]. *)
Definition sigLen_field (data : bytes) : Z :=
  Int64.of_uint64 (Uint64 (firstn 8 (skipn 80 data))).

(** ** The conditions the properties speak of *)

(** The announcement decodes, the engine accepts it, the remainder of the
    stream is read to [EOF] and decodes as [blk], and [blk] has the
    announced height and hash. *)
Definition proposal_matches (s : Stream) (blk : Block) : Prop :=
  exists res raw,
    ReadFrom zero_blockProp (s_in s) = Done res /\
    rf_err res = None /\
    ce_AcceptProposal (Height (rf_bp res)) (Hash (rf_bp res)) (PrevHash (rf_bp res))
      (LeaderSig (rf_bp res)) (Stamp (rf_bp res)) = true /\
    io_ReadAll (rf_rd res) = (raw, None) /\
    DecodeBlock raw = Some blk /\
    Header_Height blk = Height (rf_bp res) /\
    Header_Hash blk = Hash (rf_bp res).

(** An ACK delivery the leader acts on. *)
Definition ack_deliverable (me : bytes) (d : Delivery) (pk : bytes) (ack : AckRes) : Prop :=
  d_role d = RoleLeader /\
  From (d_msg d) <> me /\
  AckRes_UnmarshalBinary (Data (d_msg d)) = Some ack /\
  PubKeyFromPeerID (From (d_msg d)) = Some pk.

(** A reset delivery the node acts on. *)
Definition reset_deliverable (me : bytes) (d : Delivery) (pk : bytes) (reset : ConsensusReset) : Prop :=
  From (d_msg d) <> me /\
  ConsensusReset_UnmarshalBinary (Data (d_msg d)) = Some reset /\
  PubKeyFromPeerID (From (d_msg d)) = Some pk.

(** The values the channel hands to a publish task's [select], in channel
    order. *)
Fixpoint received {A : Type} (wakeups : list (Selected A)) : list A :=
  match wakeups with
  | [] => []
  | SelDone :: rest => received rest
  | SelRecv a _ :: rest => a :: received rest
  end.

(** The payload and the error of a publish event. *)
Definition published (e : event) : option (Topic * bytes) :=
  match e with
  | EvPublish t data _ => Some (t, data)
  | _ => None
  end.

(** What the publish task is to publish for a value of [ackChan]. *)
Definition ack_payload (a : AckRes) : option (Topic * bytes) :=
  Some (TopicACKs, fst (AckRes_MarshalBinary a)).

Definition publish_failed (e : event) : bool :=
  match e with
  | EvPublish _ _ (Some _) => true
  | _ => false
  end.

(** A receive task handles its messages one by one, in the order of
    delivery: its events are those the first message yields, then those
    the second yields, and so on; [outcome] tells what one message may
    yield. *)
Definition one_by_one (outcome : Delivery -> list event -> Prop)
  (ds : list Delivery) (tr : list event) : Prop :=
  exists outs, Forall2 outcome ds outs /\ tr = concat outs.

(** What one message of the ACK topic yields: one asynchronous
    [NotifyACK] if the leader acts on it, and nothing otherwise. *)
Definition ack_outcome (me : bytes) (d : Delivery) (out : list event) : Prop :=
  (exists pk ack, ack_deliverable me d pk ack /\ out = [EvGo (NotifyACK pk ack)]) \/
  ((forall pk ack, ~ ack_deliverable me d pk ack) /\ out = []).

(** What one message of the reset topic yields: one direct
    [NotifyResetState] if the node acts on it, and nothing otherwise. *)
Definition reset_outcome (me : bytes) (d : Delivery) (out : list event) : Prop :=
  (exists pk reset, reset_deliverable me d pk reset /\
     out = [EvCall (NotifyResetState (ToHeight reset) (TxIDs reset) pk)]) \/
  ((forall pk reset, ~ reset_deliverable me d pk reset) /\ out = []).

(** What a publish task does with the wake-ups of its [select], which
    begin with values [xs] whose publish succeeds: if nothing follows, it
    has published them all and waits; if the context is done next, it has
    published them all and exited; if next comes a value whose publish
    fails, it has published them all, tried that value and exited,
    whatever comes later.  [publish a err] is the publish call for the
    value [a] that returns [err]. *)
Definition runs_until_stop {A : Type} (publish : A -> option error -> event)
  (wakeups : list (Selected A)) (out : list event * TaskState) : Prop :=
  (forall xs,
     wakeups = map (fun a => SelRecv a None) xs ->
     out = (map (fun a => publish a None) xs, Waiting)) /\
  (forall xs later,
     wakeups = map (fun a => SelRecv a None) xs ++ SelDone :: later ->
     out = (map (fun a => publish a None) xs, Exited)) /\
  (forall xs a e later,
     wakeups = map (fun a => SelRecv a None) xs ++ SelRecv a (Some e) :: later ->
     out = (map (fun a => publish a None) xs ++ [publish a (Some e)], Exited)).

(** ** Conditions of the further properties *)

(** The error of a read that meets the end of the input: [io.EOF] when no
    byte was read, [io.ErrUnexpectedEOF] after some. *)
Definition eof_error (got : bytes) : error :=
  match got with
  | [] => EOF
  | _ :: _ => ErrUnexpectedEOF
  end.

(** The offsets at which the fixed fields of a blockProp begin. *)
Definition field_starts : list nat := [0; 8; 40; 72; 80]%nat.

(** ** Writers *)

(** An [io.Writer]: what it has taken so far, and how many more bytes it
    takes before it fails ([None] for a writer that takes everything, such
    as a [bytes.Buffer]). *)
Record Writer : Type := mkWriter {
  sink : bytes;
  room : option nat
}.

(** [w.Write(data)]: the count, the error and the writer afterwards.  A
    writer that runs out of room takes what fits and reports an error. *)
Definition Write (w : Writer) (data : bytes) : nat * option error * Writer :=
  match room w with
  | None => (length data, None, mkWriter (sink w ++ data) None)
  | Some k =>
      if (length data <=? k)%nat
      then (length data, None, mkWriter (sink w ++ data) (Some (k - length data)%nat))
      else (k, Some ErrTransport, mkWriter (sink w ++ firstn k data) (Some 0%nat))
  end.

(** [func (bp *blockProp) WriteTo(w io.Writer) (int64, error)] *)
Definition WriteTo (bp : blockProp) (w : Writer) : Z * option error * Writer :=
  match MarshalBinary bp with
  | (_, Some err) => (0, Some err, w)
  | (data, None) =>
      let '(nr, err, w) := Write w data in
      (Z.of_nat nr, err, w)
  end.

(** ** Announcing a proposal *)

(** Further collaborators declared outside this package: [ktypes.EncodeBlock],
    [blk.Hash()], [blk.Header.PrevHash], [blk.Header.Timestamp.UnixMilli()]
    and [blk.Signature]; the rendering of [bp.String()], which formats the
    hashes with their own [String] method; and the node's public key. *)
Variable EncodeBlock : Block -> bytes.
Variable Block_Hash : Block -> bytes.
Variable Header_PrevHash : Block -> bytes.
Variable Header_Timestamp_UnixMilli : Block -> Z.
Variable Block_Signature : Block -> bytes.
Variable blockProp_String : blockProp -> bytes.
Variable pubkey_Type : KeyType.
Variable pubkey_Bytes : bytes.

Variable DiscRes_MarshalBinary : DiscoveryResponse -> bytes * option error.
Variable ConsensusReset_Bytes : ConsensusReset -> bytes.

(** The value [contentAnn{prop.String(), propID, rawBlk}] handed to
    [advertiseToPeer]. *)
Record contentAnn : Type := mkContentAnn {
  ann_cType   : bytes;
  ann_ann     : bytes;
  ann_content : bytes
}.

(** A call [n.advertiseToPeer(ctx, peerID, ProtocolIDBlockPropose, ann,
    blkSendTimeout)] and the error it returned. *)
Inductive announce_event : Type :=
| EvAdvertise (peerID : bytes) (ann : contentAnn) (err : option error).

(** The announcement [announceBlkProp] builds for a block. *)
Definition blockProp_of (blk : Block) : blockProp :=
  mkBlockProp (Header_Height blk) (Block_Hash blk) (Header_PrevHash blk)
    (Header_Timestamp_UnixMilli blk) (Block_Signature blk).

(** [func (n *Node) announceBlkProp(ctx context.Context, blk *ktypes.Block)],
    over the peer list [n.peers()] and the outcome of each
    [advertiseToPeer]. *)
Definition announceBlkProp (me : bytes) (peers : list bytes)
  (advertiseToPeer : bytes -> contentAnn -> option error) (blk : Block)
  : list announce_event :=
  let rawBlk := EncodeBlock blk in
  let blkHash := Block_Hash blk in
  let height := Header_Height blk in
  match peers with
  | [] => []
  | _ :: _ =>
      flat_map (fun peerID =>
        if bytes_eqb peerID me then []
        else
          let prop := mkBlockProp height blkHash (Header_PrevHash blk)
                        (Header_Timestamp_UnixMilli blk) (Block_Signature blk) in
          let propID := fst (MarshalBinary prop) in
          let ann := mkContentAnn (blockProp_String prop) propID rawBlk in
          [EvAdvertise peerID ann (advertiseToPeer peerID ann)]) peers
  end.

(** ** Feeding the gossip channels *)


(** [func (n *Node) sendReset(height, txIDs) error]: the value sent on
    [n.resetMsg] and the [nil] error. *)
Definition sendReset (height : Z) (txIDs : list bytes) : ConsensusReset * option error :=
  (mkConsensusReset height txIDs, None).

(** ** The other publish tasks *)

(** The publish task of [startDiscoveryRequestGossip]: the request taken
    from [n.discReq] is the empty struct and the payload is [nil]. *)
Fixpoint discReqPublishLoop (wakeups : list (Selected unit)) : list event * TaskState :=
  match wakeups with
  | [] => ([], Waiting)
  | SelDone :: _ => ([], Exited)
  | SelRecv _ err :: rest =>
      let ev := EvPublish TopicDiscReq [] err in
      match err with
      | Some _ => ([ev], Exited)
      | None => let '(tr, st) := discReqPublishLoop rest in (ev :: tr, st)
      end
  end.

(** The publish task of [startDiscoveryResponseGossip]. *)
Fixpoint discRespPublishLoop (wakeups : list (Selected DiscoveryResponse))
  : list event * TaskState :=
  match wakeups with
  | [] => ([], Waiting)
  | SelDone :: _ => ([], Exited)
  | SelRecv msg err :: rest =>
      let discMsg := fst (DiscRes_MarshalBinary msg) in
      let ev := EvPublish TopicDiscResp discMsg err in
      match err with
      | Some _ => ([ev], Exited)
      | None => let '(tr, st) := discRespPublishLoop rest in (ev :: tr, st)
      end
  end.

(** The publish task of [startConsensusResetGossip]. *)
Fixpoint resetPublishLoop (wakeups : list (Selected ConsensusReset))
  : list event * TaskState :=
  match wakeups with
  | [] => ([], Waiting)
  | SelDone :: _ => ([], Exited)
  | SelRecv resetMsg err :: rest =>
      let ev := EvPublish TopicReset (ConsensusReset_Bytes resetMsg) err in
      match err with
      | Some _ => ([ev], Exited)
      | None => let '(tr, st) := resetPublishLoop rest in (ev :: tr, st)
      end
  end.

(** ** Conditions of the further gossip properties *)

(** A discovery response the leader acts on. *)
Definition disc_deliverable (me : bytes) (d : Delivery) (pk : bytes)
  (dm : DiscoveryResponse) : Prop :=
  d_role d = RoleLeader /\
  From (d_msg d) <> me /\
  DiscRes_UnmarshalBinary (Data (d_msg d)) = Some dm /\
  PubKeyFromPeerID (From (d_msg d)) = Some pk.

(** What one message of the discovery response topic yields: one
    asynchronous [NotifyDiscoveryMessage] if the leader acts on it, and
    nothing otherwise. *)
Definition disc_outcome (me : bytes) (d : Delivery) (out : list event) : Prop :=
  (exists pk dm, disc_deliverable me d pk dm /\
     out = [EvGo (NotifyDiscoveryMessage pk (BestHeight dm))]) \/
  ((forall pk dm, ~ disc_deliverable me d pk dm) /\ out = []).

(** The deliveries a subscriber of topic [t] sees when every successful
    publish of the peer [from] on that topic reaches it, in order, while
    its engine reports [role] and its block store [best]. *)
Definition deliveries_of (from : bytes) (role : Role) (best : Z) (t : Topic)
  (tr : list event) : list Delivery :=
  flat_map (fun e =>
    match e with
    | EvPublish t' data None =>
        match t, t' with
        | TopicACKs, TopicACKs | TopicDiscReq, TopicDiscReq
        | TopicDiscResp, TopicDiscResp | TopicReset, TopicReset =>
            [mkDelivery (mkMessage from data from) role best]
        | _, _ => []
        end
    | _ => []
    end) tr.


(** What a publish task owes its channel: its publish calls carry the
    payloads of a prefix of the channel's values, in channel order; a
    failed publish ends the task; and without a failure or a done context
    every value is published. *)
Definition publishes_in_order {A : Type} (payload : A -> option (Topic * bytes))
  (wakeups : list (Selected A)) (out : list event * TaskState) : Prop :=
  map published (fst out) =
    map payload (firstn (length (fst out)) (received wakeups)) /\
  (forall tr1 e tr2,
     fst out = tr1 ++ e :: tr2 -> publish_failed e = true ->
     tr2 = [] /\ snd out = Exited) /\
  (Forall (fun w => exists a, w = SelRecv a None) wakeups ->
     map published (fst out) = map payload (received wakeups) /\ snd out = Waiting).


(** The values [sendReset] puts on [n.resetMsg] for a sequence of calls. *)
Definition sent_resets (calls : list (Z * list bytes)) : list ConsensusReset :=
  map (fun '(height, txIDs) => fst (sendReset height txIDs)) calls.

(** ** Votable events *)

(** The helpers of package [types] that move a string or a byte slice to
    and from a [bytes.Buffer], and the name-based UUID, are declared in
    files that are not part of the sources at hand: [WriteString] and
    [WriteBytes] are the bytes appended to the buffer, [ReadString] and
    [ReadBytes] give the value read and the bytes left in the buffer, or
    an error. *)
Variable UUID : Type.
Variable NewUUIDV5 : bytes -> UUID.
Variable WriteString : String.string -> bytes.
Variable WriteBytes : bytes -> bytes.
Variable ReadString : bytes -> result (String.string * bytes).
Variable ReadBytes : bytes -> result (bytes * bytes).

(** [func VotableEventID(ty string, body []byte) UUID] *)
Definition VotableEventID (ty : String.string) (body : bytes) : UUID :=
  NewUUIDV5 (String.list_byte_of_string ty ++ body).

(** [func (e *VotableEvent) ID() *UUID] *)
Definition VotableEvent_ID (e : VotableEvent) : UUID :=
  VotableEventID (ve_Type e) (ve_Body e).

(** [func (e VotableEvent) MarshalBinary() ([]byte, error)] *)
Definition VotableEvent_MarshalBinary (e : VotableEvent) : bytes * option error :=
  let buf := [] in
  let buf := buf ++ binary_Write_uint16_be veVersion in
  let buf := buf ++ WriteString (ve_Type e) in
  let buf := buf ++ WriteBytes (ve_Body e) in
  (buf, None).

(** [func (e *VotableEvent) UnmarshalBinary(b []byte) error]: the error
    and the receiver afterwards. *)
Definition VotableEvent_UnmarshalBinary (e : VotableEvent) (b : bytes)
  : option VeError * VotableEvent :=
  let buf := NewReader b in
  match binary_Read_uint16_be buf with
  | (Err err, _) => (Some (VeRead err), e)
  | (Ok version, buf) =>
      if negb (version =? veVersion) then (Some (VeInvalidVersion version), e)
      else
        match ReadString (pending buf) with
        | Err err => (Some (VeRead err), e)
        | Ok (eType, rest) =>
            match ReadBytes rest with
            | Err err => (Some (VeRead err), e)
            | Ok (eBody, _) => (None, mkVotableEvent eType eBody)
            end
        end
  end.

(** * Properties *)

(** ** Machine integers and buffers *)

Lemma to_uint64_range x : 0 <= Int64.to_uint64 x < 2 ^ 64.
Proof. unfold Int64.to_uint64. apply Z.mod_pos_bound. lia. Qed.

Lemma of_uint64_range u : 0 <= u < 2 ^ 64 -> Int64.in_range (Int64.of_uint64 u).
Proof.
  unfold Int64.of_uint64, Int64.in_range, Int64.min_int, Int64.max_int. intros Hu.
  destruct (Z.ltb_spec u (2 ^ 63)); lia.
Qed.

Lemma of_to_uint64 x : Int64.in_range x -> Int64.of_uint64 (Int64.to_uint64 x) = x.
Proof.
  unfold Int64.in_range, Int64.min_int, Int64.max_int, Int64.of_uint64, Int64.to_uint64.
  intros Hx.
  destruct (Z_lt_le_dec x 0) as [Hneg | Hpos].
  - replace (x mod 2 ^ 64) with (x + 2 ^ 64).
    + destruct (Z.ltb_spec (x + 2 ^ 64) (2 ^ 63)); lia.
    + apply Z.mod_unique with (q := -1); lia.
  - rewrite Z.mod_small by lia.
    destruct (Z.ltb_spec x (2 ^ 63)); lia.
Qed.

Lemma Uint64_le_split u : 0 <= u < 2 ^ 64 -> Uint64 (le_split 8 u) = u.
Proof.
  intros Hu. unfold Uint64. rewrite le_combine_split.
  change (2 ^ (Z.of_nat 8 * 8)) with (2 ^ 64). apply Z.mod_small. exact Hu.
Qed.

Lemma bytes_eqb_eq a b : bytes_eqb a b = true <-> a = b.
Proof.
  revert b. induction a as [| x a IH]; intros [| y b]; cbn [bytes_eqb].
  - split; reflexivity.
  - split; intros H; discriminate H.
  - split; intros H; discriminate H.
  - rewrite andb_true_iff, IH. split.
    + intros [Hxy ->]. apply Byte.byte_dec_bl in Hxy. rewrite Hxy. reflexivity.
    + intros H. injection H as -> ->. split; [apply Byte.byte_dec_lb |]; reflexivity.
Qed.

Lemma bytes_eqb_refl a : bytes_eqb a a = true.
Proof. apply bytes_eqb_eq. reflexivity. Qed.

Lemma length_make n : length (make n) = n.
Proof. apply repeat_length. Qed.

Lemma make_add a b : make (a + b) = make a ++ make b.
Proof. apply repeat_app. Qed.

(** Drop the collaborators a statement does not speak of. *)
Ltac clear_unused := repeat match goal with x : _ |- _ => clear x end.

Ltac len :=
  rewrite ?length_app, ?length_make, ?length_le_split;
  repeat match goal with H : length _ = _ |- _ => rewrite H end;
  solve [reflexivity | lia].

(** A [copy] that exactly covers a chunk of the buffer replaces it. *)
Lemma copy_at_chunk (pre old post src : bytes) (c : nat) :
  length pre = c -> length old = length src ->
  copy_at (pre ++ old ++ post) c src = pre ++ src ++ post.
Proof.
  intros Hc Hlen. unfold copy_at. rewrite !length_app.
  replace (Nat.min (length pre + (length old + length post) - c) (length src))
    with (length src) by lia.
  rewrite firstn_all. subst c.
  rewrite firstn_app, firstn_all, Nat.sub_diag. cbn [firstn]. rewrite app_nil_r.
  replace (length pre + length src)%nat with (length old + length pre)%nat by lia.
  rewrite <- skipn_skipn, skipn_app, skipn_all, Nat.sub_diag. cbn [skipn app].
  rewrite skipn_app, skipn_all, Nat.sub_diag. reflexivity.
Qed.

Lemma copy_at_head (old post src : bytes) :
  length old = length src -> copy_at (old ++ post) 0 src = src ++ post.
Proof. intros H. apply (copy_at_chunk [] old post src 0); [reflexivity | exact H]. Qed.

(** ** The wire form of a blockProp *)

(** [MarshalBinary] lays the fields out one after the other:
    Height, Hash, PrevHash, Stamp, sigLen, LeaderSig. *)
Lemma MarshalBinary_layout (bp : blockProp) :
  wf_blockProp bp ->
  fst (MarshalBinary bp) =
    le_split 8 (Int64.to_uint64 (Height bp)) ++ Hash bp ++ PrevHash bp ++
    le_split 8 (Int64.to_uint64 (Stamp bp)) ++
    le_split 8 (Int64.to_uint64 (Z.of_nat (length (LeaderSig bp)))) ++ LeaderSig bp.
Proof.
  intros (_ & Hh & Hp & _). unfold MarshalBinary, PutUint64. cbv zeta. cbn [fst].
  set (h := le_split 8 (Int64.to_uint64 (Height bp))).
  set (st := le_split 8 (Int64.to_uint64 (Stamp bp))).
  set (sl := le_split 8 (Int64.to_uint64 (Z.of_nat (length (LeaderSig bp))))).
  assert (Lh : length h = 8%nat) by apply length_le_split.
  assert (Lst : length st = 8%nat) by apply length_le_split.
  assert (Lsl : length sl = 8%nat) by apply length_le_split.
  clearbody h st sl.
  replace (make (8 + 2 * HashLen + 8 + 8 + length (LeaderSig bp)))
    with (make 8 ++ make HashLen ++ make HashLen ++ make 8 ++ make 8 ++
          make (length (LeaderSig bp)) ++ [])
    by (rewrite app_nil_r, <- !make_add; reflexivity).
  unfold HashLen in *.
  rewrite copy_at_head by len.
  rewrite copy_at_chunk by len.
  rewrite (app_assoc h).
  rewrite copy_at_chunk by len.
  rewrite (app_assoc (h ++ Hash bp)).
  rewrite copy_at_chunk by len.
  rewrite (app_assoc ((h ++ Hash bp) ++ PrevHash bp)).
  rewrite copy_at_chunk by len.
  rewrite (app_assoc (((h ++ Hash bp) ++ PrevHash bp) ++ st)).
  rewrite copy_at_chunk by len.
  rewrite app_nil_r, <- !app_assoc. reflexivity.
Qed.

(** ** Reading *)

Lemma io_ReadFull_app (pre rest : bytes) (e : error) (n : nat) :
  length pre = n ->
  io_ReadFull (mkReader (pre ++ rest) e) n = (pre, None, mkReader rest e).
Proof.
  intros Hn. unfold io_ReadFull. cbn [pending at_end].
  replace (n <=? length (pre ++ rest))%nat with true
    by (symmetry; apply Nat.leb_le; rewrite length_app; lia).
  subst n. rewrite firstn_app, firstn_all, Nat.sub_diag. cbn [firstn].
  rewrite app_nil_r, skipn_app, skipn_all, Nat.sub_diag. reflexivity.
Qed.

Lemma binary_Read_int64_app (b8 rest : bytes) (e : error) :
  length b8 = 8%nat ->
  binary_Read_int64 (mkReader (b8 ++ rest) e) =
    (Ok (Int64.of_uint64 (Uint64 b8)), mkReader rest e).
Proof.
  intros H. unfold binary_Read_int64. rewrite io_ReadFull_app by exact H. reflexivity.
Qed.

Lemma fill_full (old got : bytes) : length old = length got -> fill old got = got.
Proof.
  intros H. unfold fill. rewrite <- H, skipn_all. apply app_nil_r.
Qed.

(** [ReadFrom] on an input that holds the five fixed fields: what is left
    to do depends on the decoded [sigLen] only. *)
Lemma ReadFrom_header (bp : blockProp) (h hash prev st sl rest : bytes) (e : error) :
  length h = 8%nat -> length hash = HashLen -> length prev = HashLen ->
  length st = 8%nat -> length sl = 8%nat ->
  ReadFrom bp (mkReader (h ++ hash ++ prev ++ st ++ sl ++ rest) e) =
    let sigLen := Int64.of_uint64 (Uint64 sl) in
    let bp' := mkBlockProp (Int64.of_uint64 (Uint64 h)) (fill (Hash bp) hash)
                 (fill (PrevHash bp) prev) (Int64.of_uint64 (Uint64 st)) (LeaderSig bp) in
    if 1000 <? sigLen then Done (mkRes 88 (Some ErrInvalidSigLen) bp' (mkReader rest e))
    else if sigLen <? 0 then Panic
    else
      let '(got, err, r) := io_ReadFull (mkReader rest e) (Z.to_nat sigLen) in
      let bp'' := set_LeaderSig bp' (fill (make (Z.to_nat sigLen)) got) in
      match err with
      | Some err => Done (mkRes (Z.of_nat (length got)) (Some err) bp'' r)
      | None => Done (mkRes (88 + Z.of_nat (length got)) None bp'' r)
      end.
Proof.
  intros Lh Lhash Lprev Lst Lsl. unfold ReadFrom.
  rewrite binary_Read_int64_app by exact Lh. cbv beta iota zeta.
  rewrite io_ReadFull_app by exact Lhash. cbv beta iota zeta.
  rewrite io_ReadFull_app by exact Lprev. cbv beta iota zeta.
  rewrite binary_Read_int64_app by exact Lst. cbv beta iota zeta.
  rewrite binary_Read_int64_app by exact Lsl. cbv beta iota zeta.
  rewrite Lhash, Lprev. unfold set_Stamp, set_PrevHash, set_Hash, set_Height.
  cbn [Height Hash PrevHash Stamp LeaderSig].
  destruct (1000 <? Int64.of_uint64 (Uint64 sl)); [reflexivity |].
  destruct (Int64.of_uint64 (Uint64 sl) <? 0); [reflexivity |].
  destruct (io_ReadFull (mkReader rest e) (Z.to_nat (Int64.of_uint64 (Uint64 sl))))
    as [[got err] r].
  destruct err; reflexivity.
Qed.

Lemma io_ReadFull_all (pre : bytes) (e : error) :
  io_ReadFull (mkReader pre e) (length pre) = (pre, None, mkReader [] e).
Proof.
  rewrite <- (app_nil_r pre) at 1. apply io_ReadFull_app. reflexivity.
Qed.

(** Any input of at least 88 bytes splits into the five fixed fields and
    the rest. *)
Lemma header_split (l : bytes) :
  (88 <= length l)%nat ->
  exists h hash prev st,
    length h = 8%nat /\ length hash = HashLen /\ length prev = HashLen /\
    length st = 8%nat /\ length (firstn 8 (skipn 80 l)) = 8%nat /\
    l = h ++ hash ++ prev ++ st ++ firstn 8 (skipn 80 l) ++ skipn 88 l.
Proof.
  intros Hl.
  exists (firstn 8 l), (firstn 32 (skipn 8 l)), (firstn 32 (skipn 40 l)),
    (firstn 8 (skipn 72 l)).
  unfold HashLen. rewrite !length_firstn, !length_skipn.
  repeat split; try lia.
  rewrite <- (firstn_skipn 8 l) at 1. f_equal.
  rewrite <- (firstn_skipn 32 (skipn 8 l)) at 1. f_equal.
  rewrite skipn_skipn. cbn [Nat.add].
  rewrite <- (firstn_skipn 32 (skipn 40 l)) at 1. f_equal.
  rewrite skipn_skipn. cbn [Nat.add].
  rewrite <- (firstn_skipn 8 (skipn 72 l)) at 1. f_equal.
  rewrite skipn_skipn. cbn [Nat.add].
  rewrite <- (firstn_skipn 8 (skipn 80 l)) at 1. f_equal.
  rewrite skipn_skipn. reflexivity.
Qed.

(** C2 (as amended): for every blockProp value [x] whose [LeaderSig] has at
    most 1000 bytes, [MarshalBinary] succeeds, [UnmarshalBinary] of its
    output succeeds and yields [x], and marshaling the decoded value
    reproduces the same bytes. *)
Theorem blockProp_roundtrip (x recv : blockProp) :
  wf_blockProp x -> wf_blockProp recv ->
  (length (LeaderSig x) <= 1000)%nat ->
  snd (MarshalBinary x) = None /\
  UnmarshalBinary recv (fst (MarshalBinary x)) = Done (None, x) /\
  (forall y, UnmarshalBinary recv (fst (MarshalBinary x)) = Done (None, y) ->
             fst (MarshalBinary y) = fst (MarshalBinary x)).
Proof.
  intros Hx Hrecv Hsig.
  assert (Hdec : UnmarshalBinary recv (fst (MarshalBinary x)) = Done (None, x)).
  { rewrite (MarshalBinary_layout x Hx).
    destruct Hx as (HH & Hh & Hp & HS). destruct Hrecv as (_ & Rh & Rp & _).
    unfold UnmarshalBinary, NewReader.
    rewrite ReadFrom_header by (try apply length_le_split; assumption).
    cbv zeta.
    rewrite !Uint64_le_split by apply to_uint64_range.
    rewrite !of_to_uint64
      by (try assumption; unfold Int64.in_range, Int64.min_int, Int64.max_int; lia).
    replace (1000 <? Z.of_nat (length (LeaderSig x))) with false
      by (symmetry; apply Z.ltb_ge; lia).
    replace (Z.of_nat (length (LeaderSig x)) <? 0) with false
      by (symmetry; apply Z.ltb_ge; lia).
    rewrite Nat2Z.id, io_ReadFull_all.
    rewrite !fill_full by (rewrite ?length_make; congruence).
    destruct x; reflexivity. }
  split; [reflexivity |]. split; [exact Hdec |].
  intros y Hy. rewrite Hdec in Hy. injection Hy as <-. reflexivity.
Qed.

(** C3: when the decoded [sigLen] field exceeds 1000, [ReadFrom] returns
    the error "invalid signature length" after the 88 bytes of the fixed
    fields; every later byte of the input is still unread and [LeaderSig]
    is untouched.  [UnmarshalBinary] returns the same error. *)
Theorem ReadFrom_rejects_long_sig (bp : blockProp) (r : Reader) :
  (88 <= length (pending r))%nat ->
  1000 < sigLen_field (pending r) ->
  exists bp',
    ReadFrom bp r =
      Done (mkRes 88 (Some ErrInvalidSigLen) bp'
              (mkReader (skipn 88 (pending r)) (at_end r))) /\
    LeaderSig bp' = LeaderSig bp /\
    (forall data, r = NewReader data ->
       UnmarshalBinary bp data = Done (Some ErrInvalidSigLen, bp')).
Proof.
  intros Hlen Hsig. unfold sigLen_field in Hsig.
  destruct r as [l e]. cbn [pending at_end] in *.
  destruct (header_split l Hlen) as (h & hash & prev & st & Lh & Lhash & Lprev & Lst & Lsl & El).
  pose proof (ReadFrom_header bp h hash prev st (firstn 8 (skipn 80 l)) (skipn 88 l) e
                Lh Lhash Lprev Lst Lsl) as HR.
  rewrite <- El in HR. cbv zeta in HR.
  apply Z.ltb_lt in Hsig. rewrite Hsig in HR.
  eexists. split; [exact HR |]. split; [reflexivity |].
  intros data [= -> ->]. unfold UnmarshalBinary, NewReader. rewrite HR. reflexivity.
Qed.

(** C9: when the decoded [sigLen] field is negative, the [sigLen > 1000]
    guard passes and [ReadFrom] panics in [make]; so does
    [UnmarshalBinary], which returns no error to its caller. *)
Theorem ReadFrom_panics_on_negative_sigLen (bp : blockProp) (r : Reader) :
  (88 <= length (pending r))%nat ->
  sigLen_field (pending r) < 0 ->
  (1000 <? sigLen_field (pending r)) = false /\
  ReadFrom bp r = Panic /\
  (forall data, r = NewReader data -> UnmarshalBinary bp data = Panic).
Proof.
  intros Hlen Hsig.
  assert (Hguard : (1000 <? sigLen_field (pending r)) = false) by (apply Z.ltb_ge; lia).
  split; [exact Hguard |].
  unfold sigLen_field in *.
  destruct r as [l e]. cbn [pending at_end] in *.
  destruct (header_split l Hlen) as (h & hash & prev & st & Lh & Lhash & Lprev & Lst & Lsl & El).
  pose proof (ReadFrom_header bp h hash prev st (firstn 8 (skipn 80 l)) (skipn 88 l) e
                Lh Lhash Lprev Lst Lsl) as HR.
  rewrite <- El in HR. cbv zeta in HR.
  apply Z.ltb_lt in Hsig. rewrite Hguard, Hsig in HR.
  split; [exact HR |].
  intros data [= -> ->]. unfold UnmarshalBinary, NewReader. rewrite HR. reflexivity.
Qed.

(** ** Block proposal stream *)

Ltac in_trace H :=
  cbn [fst snd app In] in H;
  repeat match type of H with
         | _ \/ _ => destruct H as [H | H]
         | False => contradiction
         | _ = _ => try discriminate H
         end.

(** C1 (as amended): the handler notifies the engine of [blk] exactly when
    the listed conditions hold and the write of [getMsg] succeeds; the
    stream is closed last on every path; the engine is notified at most
    once; and [getMsg] is written only after [AcceptProposal] has returned
    true. *)
Theorem blkPropStreamHandler_notifies (s : Stream) :
  (forall blk,
     In (EvCall (NotifyBlockProposal blk)) (fst (blkPropStreamHandler s)) <->
     proposal_matches s blk /\ s_writeErr s = None) /\
  (exists tr, fst (blkPropStreamHandler s) = tr ++ [EvClose] /\ ~ In EvClose tr) /\
  (forall pre data err post,
     fst (blkPropStreamHandler s) = pre ++ EvWrite data err :: post ->
     data = getMsg /\
     exists h hash prev sig stamp, pre = [EvAcceptProposal h hash prev sig stamp true]).
Proof.
  clear_unused.
  unfold blkPropStreamHandler, blkPropStreamBody, proposal_matches.
  destruct (ReadFrom zero_blockProp (s_in s)) as [res |] eqn:ERead.
  2: { cbn. split; [| split].
       - intros blk. split; [intros H; in_trace H |]. intros [(res & raw & [=] & _) _].
       - exists []. split; [reflexivity | tauto].
       - intros [| ? [| ? ?]] ? ? ? [=]. }
  destruct (rf_err res) as [err |] eqn:EErr.
  { cbn. split; [| split].
    - intros blk. split; [intros H; in_trace H |].
      intros [(res' & raw & [= <-] & He & _) _]. congruence.
    - exists []. split; [reflexivity | tauto].
    - intros [| ? [| ? ?]] ? ? ? [=]. }
  cbv zeta. set (prop := rf_bp res).
  destruct (ce_AcceptProposal (Height prop) (Hash prop) (PrevHash prop)
              (LeaderSig prop) (Stamp prop)) eqn:EAcc; cbn [negb].
  2: { cbn. split; [| split].
       - intros blk. split; [intros H; in_trace H |].
         intros [(res' & raw & [= <-] & _ & Ha & _) _]. fold prop in Ha. congruence.
       - eexists [_]. split; [reflexivity |]. intros [H | []]. discriminate H.
       - intros [| ? [| ? [| ? ?]]] ? ? ? [=]. }
  assert (HW : forall tail pre data err post,
             (forall d e, ~ In (EvWrite d e) tail) ->
             EvAcceptProposal (Height prop) (Hash prop) (PrevHash prop) (LeaderSig prop)
               (Stamp prop) true :: EvWrite getMsg (s_writeErr s) :: tail
               = pre ++ EvWrite data err :: post ->
             data = getMsg /\
             exists h hash prev sig stamp, pre = [EvAcceptProposal h hash prev sig stamp true]).
  { intros tail pre data err post Htail E.
    destruct pre as [| e0 [| e1 pre]]; cbn [app] in E.
    - discriminate E.
    - injection E as <- <- <- <-. split; [reflexivity |]. repeat eexists.
    - injection E as _ _ E. exfalso. apply (Htail data err).
      rewrite E. apply in_or_app. right. left. reflexivity. }
  destruct (s_writeErr s) as [werr |] eqn:EW.
  { cbn [fst app]. split; [| split].
    - intros blk. split; [intros H; in_trace H |]. intros [_ [=]].
    - eexists [_; _]. split; [reflexivity |]. intros H; in_trace H.
    - intros pre data err post E. apply (HW [EvClose] pre data err post); [| exact E].
      intros d e H; in_trace H. }
  destruct (io_ReadAll (rf_rd res)) as [raw [rerr |]] eqn:ERd.
  { cbn [fst app]. split; [| split].
    - intros blk. split; [intros H; in_trace H |].
      intros [(res' & raw' & [= <-] & _ & _ & Hr & _) _]. congruence.
    - eexists [_; _]. split; [reflexivity |]. intros H; in_trace H.
    - intros pre data err post E. apply (HW [EvClose] pre data err post); [| exact E].
      intros d e H; in_trace H. }
  destruct (DecodeBlock raw) as [b |] eqn:EDec.
  2: { cbn [fst app]. split; [| split].
       - intros blk. split; [intros H; in_trace H |].
         intros [(res' & raw' & [= <-] & _ & _ & Hr & Hd & _) _]. congruence.
       - eexists [_; _]. split; [reflexivity |]. intros H; in_trace H.
       - intros pre data err post E. apply (HW [EvClose] pre data err post); [| exact E].
         intros d e H; in_trace H. }
  destruct (Header_Height b =? Height prop) eqn:EH; cbn [negb].
  2: { cbn [fst app]. apply Z.eqb_neq in EH. split; [| split].
       - intros blk. split; [intros H; in_trace H |].
         intros [(res' & raw' & [= <-] & _ & _ & Hr & Hd & Hh & _) _].
         fold prop in Hh. congruence.
       - eexists [_; _]. split; [reflexivity |]. intros H; in_trace H.
       - intros pre data err post E. apply (HW [EvClose] pre data err post); [| exact E].
         intros d e H; in_trace H. }
  apply Z.eqb_eq in EH.
  destruct (bytes_eqb (Header_Hash b) (Hash prop)) eqn:EHash; cbn [negb].
  2: { cbn [fst app]. split; [| split].
       - intros blk. split; [intros H; in_trace H |].
         intros [(res' & raw' & [= <-] & _ & _ & Hr & Hd & _ & Hh) _].
         fold prop in Hh. rewrite ERd in Hr. injection Hr as <-.
         rewrite EDec in Hd. injection Hd as <-.
         apply bytes_eqb_eq in Hh. congruence.
       - eexists [_; _]. split; [reflexivity |]. intros H; in_trace H.
       - intros pre data err post E. apply (HW [EvClose] pre data err post); [| exact E].
         intros d e H; in_trace H. }
  apply bytes_eqb_eq in EHash.
  cbn [fst app]. split; [| split].
  - intros blk. split.
    + intros H; in_trace H. injection H as <-.
      split; [| reflexivity]. exists res, raw. fold prop. repeat split; assumption.
    + intros [(res' & raw' & [= <-] & _ & _ & Hr & Hd & _) _].
      rewrite ERd in Hr. injection Hr as <-. rewrite EDec in Hd. injection Hd as <-.
      right. right. left. reflexivity.
  - eexists [_; _; _]. split; [reflexivity |]. intros H; in_trace H.
  - intros pre data err post E.
    apply (HW [EvCall (NotifyBlockProposal b); EvClose] pre data err post); [| exact E].
    intros d e H; in_trace H.
Qed.

(** ** Gossip receive tasks *)

Lemma Role_eqb_eq a b : Role_eqb a b = true <-> a = b.
Proof. destruct a, b; cbn; split; intros H; try reflexivity; discriminate H. Qed.

Lemma bytes_eqb_neq a b : bytes_eqb a b = false <-> a <> b.
Proof.
  rewrite <- bytes_eqb_eq. destruct (bytes_eqb a b); split; intros H; congruence.
Qed.

(** One ACK iteration: a single asynchronous [NotifyACK] for a deliverable
    message, nothing otherwise. *)
Lemma one_by_one_flat_map (outcome : Delivery -> list event -> Prop)
  (step : Delivery -> list event) (ds : list Delivery) :
  (forall d, outcome d (step d)) -> one_by_one outcome ds (flat_map step ds).
Proof.
  intros H. exists (map step ds). split; [| apply flat_map_concat_map].
  induction ds as [| d ds IH]; cbn [map]; constructor; [apply H | exact IH].
Qed.

Ltac runs_until_stop_by prefix :=
  unfold runs_until_stop; split; [| split];
  [ intros xs ->; rewrite <- (app_nil_r (map _ xs)), prefix; cbn;
    rewrite app_nil_r; reflexivity
  | intros xs later ->; rewrite prefix; cbn; rewrite app_nil_r; reflexivity
  | intros xs a e later ->; rewrite prefix; reflexivity ].

Lemma ackRecvStep_cases (me : bytes) (d : Delivery) :
  (exists pk ack, ack_deliverable me d pk ack /\
                  ackRecvStep me d = [EvGo (NotifyACK pk ack)]) \/
  ((forall pk ack, ~ ack_deliverable me d pk ack) /\ ackRecvStep me d = []).
Proof.
  unfold ackRecvStep, ack_deliverable.
  destruct (Role_eqb (d_role d) RoleLeader) eqn:ER; cbn [negb].
  2: { right. split; [| reflexivity]. intros pk ack (Hr & _).
       apply Role_eqb_eq in Hr. congruence. }
  apply Role_eqb_eq in ER.
  destruct (bytes_eqb (From (d_msg d)) me) eqn:EMe.
  { right. split; [| reflexivity]. intros pk ack (_ & Hne & _).
    apply bytes_eqb_eq in EMe. contradiction. }
  apply bytes_eqb_neq in EMe.
  destruct (AckRes_UnmarshalBinary (Data (d_msg d))) as [ack |] eqn:EDec.
  2: { right. split; [| reflexivity]. intros pk ack (_ & _ & Hd & _). discriminate Hd. }
  destruct (PubKeyFromPeerID (From (d_msg d))) as [pk |] eqn:EPk.
  2: { right. split; [| reflexivity]. intros pk0 ack0 (_ & _ & _ & Hp). discriminate Hp. }
  left. exists pk, ack. repeat split; assumption.
Qed.

Lemma ack_deliverable_step (me : bytes) (d : Delivery) (pk : bytes) (ack : AckRes) :
  ack_deliverable me d pk ack -> ackRecvStep me d = [EvGo (NotifyACK pk ack)].
Proof.
  intros Hd. destruct (ackRecvStep_cases me d) as [(pk' & ack' & Hd' & E) | [Hn _]].
  - destruct Hd as (_ & _ & H1 & H2), Hd' as (_ & _ & H1' & H2'). congruence.
  - destruct (Hn pk ack Hd).
Qed.

(** C4: over the messages of the ACK topic, the events of the receive task
    are exactly the asynchronous [NotifyACK(senderPubKey, ack)] calls of
    the messages received as leader, from another peer, that decode and
    whose sender key can be derived; the task handles the messages one by
    one in the order of delivery, each such message yields one call, a
    message received twice yields two, and every other message yields no
    event. *)
Theorem ackRecvLoop_delivers (me : bytes) (ds : list Delivery) :
  one_by_one (ack_outcome me) ds (ackRecvLoop me ds) /\
  (forall ds', ackRecvLoop me (ds ++ ds') = ackRecvLoop me ds ++ ackRecvLoop me ds') /\
  (forall e, In e (ackRecvLoop me ds) <->
     exists d pk ack, In d ds /\ ack_deliverable me d pk ack /\
                      e = EvGo (NotifyACK pk ack)) /\
  (forall d pk ack, ack_deliverable me d pk ack ->
     ackRecvStep me d = [EvGo (NotifyACK pk ack)]) /\
  (forall d, (forall pk ack, ~ ack_deliverable me d pk ack) -> ackRecvStep me d = []) /\
  (forall d, d_role d <> RoleLeader -> ackRecvStep me d = []) /\
  (forall d, From (d_msg d) = me -> ackRecvStep me d = []).
Proof.
  split; [apply one_by_one_flat_map; intros d; apply ackRecvStep_cases |].
  split; [intros ds'; apply flat_map_app |].
  repeat split.
  - unfold ackRecvLoop. rewrite in_flat_map. intros (d & Hin & He).
    destruct (ackRecvStep_cases me d) as [(pk & ack & Hd & E) | [_ E]];
      rewrite E in He; cbn in He; [| contradiction].
    destruct He as [<- | []]. exists d, pk, ack. auto.
  - intros (d & pk & ack & Hin & Hd & ->). unfold ackRecvLoop. apply in_flat_map.
    exists d. split; [exact Hin |]. rewrite (ack_deliverable_step me d pk ack Hd).
    left. reflexivity.
  - apply ack_deliverable_step.
  - intros d Hn. destruct (ackRecvStep_cases me d) as [(pk & ack & Hd & _) | [_ E]];
      [destruct (Hn pk ack Hd) | exact E].
  - intros d Hr. destruct (ackRecvStep_cases me d) as [(pk & ack & (Hl & _) & _) | [_ E]];
      [contradiction | exact E].
  - intros d Hme. destruct (ackRecvStep_cases me d) as [(pk & ack & (_ & Hne & _) & _) | [_ E]];
      [contradiction | exact E].
Qed.

(** C8: a discovery request from another peer makes the node send, on
    [discResp], a response carrying the best height read from the block
    store, whatever role the engine reports; a request of the node itself
    yields nothing.  The responses sent are, one per request of another
    peer and in the order of delivery, those of the requests received. *)
Theorem discReqRecvLoop_responds (me : bytes) (ds : list Delivery) :
  discReqRecvLoop me ds =
    map (fun d => EvSendDiscResp (mkDiscoveryResponse (d_best d)))
      (filter (fun d => negb (bytes_eqb (From (d_msg d)) me)) ds) /\
  (forall d, In d (filter (fun d => negb (bytes_eqb (From (d_msg d)) me)) ds) <->
     In d ds /\ From (d_msg d) <> me) /\
  (forall e, In e (discReqRecvLoop me ds) <->
     exists d, In d ds /\ From (d_msg d) <> me /\
               e = EvSendDiscResp (mkDiscoveryResponse (d_best d))) /\
  (forall d, From (d_msg d) <> me ->
     discReqRecvStep me d = [EvSendDiscResp (mkDiscoveryResponse (d_best d))]) /\
  (forall d, From (d_msg d) = me -> discReqRecvStep me d = []) /\
  (forall d role,
     discReqRecvStep me (mkDelivery (d_msg d) role (d_best d)) = discReqRecvStep me d).
Proof.
  assert (Hne : forall d, From (d_msg d) <> me ->
            discReqRecvStep me d = [EvSendDiscResp (mkDiscoveryResponse (d_best d))]).
  { intros d H. unfold discReqRecvStep. apply bytes_eqb_neq in H. rewrite H. reflexivity. }
  assert (Heq : forall d, From (d_msg d) = me -> discReqRecvStep me d = []).
  { intros d H. unfold discReqRecvStep. apply bytes_eqb_eq in H. rewrite H. reflexivity. }
  split.
  { unfold discReqRecvLoop. induction ds as [| d ds IH]; [reflexivity |].
    cbn [flat_map filter]. rewrite IH. unfold discReqRecvStep, sendDiscoveryResponse.
    destruct (bytes_eqb (From (d_msg d)) me); reflexivity. }
  split.
  { intros d. rewrite filter_In. split; intros [Hin H]; (split; [exact Hin |]).
    - destruct (bytes_eqb (From (d_msg d)) me) eqn:E; [discriminate H |].
      apply bytes_eqb_neq. exact E.
    - apply bytes_eqb_neq in H. rewrite H. reflexivity. }
  repeat split; try assumption.
  - unfold discReqRecvLoop. rewrite in_flat_map. intros (d & Hin & He).
    exists d. split; [exact Hin |].
    unfold discReqRecvStep in He.
    destruct (bytes_eqb (From (d_msg d)) me) eqn:E; [destruct He |].
    apply bytes_eqb_neq in E. destruct He as [<- | []]. auto.
  - intros (d & Hin & Hd & ->). unfold discReqRecvLoop. apply in_flat_map.
    exists d. split; [exact Hin |]. rewrite (Hne d Hd). left. reflexivity.
Qed.

(** One reset iteration: a single synchronous [NotifyResetState] for a
    deliverable message, nothing otherwise. *)
Lemma resetRecvStep_cases (me : bytes) (d : Delivery) :
  (exists pk reset, reset_deliverable me d pk reset /\
     resetRecvStep me d =
       [EvCall (NotifyResetState (ToHeight reset) (TxIDs reset) pk)]) \/
  ((forall pk reset, ~ reset_deliverable me d pk reset) /\ resetRecvStep me d = []).
Proof.
  unfold resetRecvStep, reset_deliverable.
  destruct (bytes_eqb (From (d_msg d)) me) eqn:EMe.
  { right. split; [| reflexivity]. intros pk reset (Hne & _).
    apply bytes_eqb_eq in EMe. contradiction. }
  apply bytes_eqb_neq in EMe.
  destruct (ConsensusReset_UnmarshalBinary (Data (d_msg d))) as [reset |] eqn:EDec.
  2: { right. split; [| reflexivity]. intros pk reset (_ & Hd & _). discriminate Hd. }
  destruct (PubKeyFromPeerID (From (d_msg d))) as [pk |] eqn:EPk.
  2: { right. split; [| reflexivity]. intros pk0 reset0 (_ & _ & Hp). discriminate Hp. }
  left. exists pk, reset. repeat split; assumption.
Qed.

Lemma discRespRecvStep_go (me : bytes) (d : Delivery) (e : event) :
  In e (discRespRecvStep me d) ->
  d_role d = RoleLeader /\ exists c, e = EvGo c.
Proof.
  unfold discRespRecvStep.
  destruct (Role_eqb (d_role d) RoleLeader) eqn:ER; cbn [negb]; [| intros []].
  apply Role_eqb_eq in ER.
  destruct (bytes_eqb (From (d_msg d)) me); [intros [] |].
  destruct (DiscRes_UnmarshalBinary (Data (d_msg d))); [| intros []].
  destruct (PubKeyFromPeerID (From (d_msg d))); [| intros []].
  intros [<- | []]. split; [exact ER |]. eexists. reflexivity.
Qed.

(** C10: over the messages of the reset topic, the events of the receive
    task are exactly the direct [NotifyResetState(ToHeight, TxIDs,
    senderPubKey)] calls of the messages from another peer that decode and
    whose sender key can be derived; the role the engine reports plays no
    part.  The task handles the messages one by one in the order of
    delivery, each such message yields one call and every other message
    none.  The ACK and the discovery response receivers, in contrast, act
    as leader only and start their notification with [go]. *)
Theorem resetRecvLoop_notifies (me : bytes) (ds : list Delivery) :
  one_by_one (reset_outcome me) ds (resetRecvLoop me ds) /\
  (forall ds', resetRecvLoop me (ds ++ ds') = resetRecvLoop me ds ++ resetRecvLoop me ds') /\
  (forall d pk reset, reset_deliverable me d pk reset ->
     resetRecvLoop me [d] =
       [EvCall (NotifyResetState (ToHeight reset) (TxIDs reset) pk)]) /\
  (forall d, (forall pk reset, ~ reset_deliverable me d pk reset) ->
     resetRecvLoop me [d] = []) /\
  (forall e, In e (resetRecvLoop me ds) <->
     exists d pk reset, In d ds /\ reset_deliverable me d pk reset /\
       e = EvCall (NotifyResetState (ToHeight reset) (TxIDs reset) pk)) /\
  (forall d role,
     resetRecvStep me (mkDelivery (d_msg d) role (d_best d)) = resetRecvStep me d) /\
  (forall d e, In e (ackRecvStep me d) \/ In e (discRespRecvStep me d) ->
     d_role d = RoleLeader /\ exists c, e = EvGo c).
Proof.
  split; [apply one_by_one_flat_map; intros d; apply resetRecvStep_cases |].
  split; [intros ds'; apply flat_map_app |].
  split.
  { intros d pk reset Hd. unfold resetRecvLoop. cbn [flat_map]. rewrite app_nil_r.
    destruct (resetRecvStep_cases me d) as [(pk' & reset' & Hd' & E) | [Hn _]].
    - rewrite E. destruct Hd as (_ & H1 & H2), Hd' as (_ & H1' & H2').
      rewrite H1 in H1'. rewrite H2 in H2'. injection H1' as <-. injection H2' as <-.
      reflexivity.
    - destruct (Hn pk reset Hd). }
  split.
  { intros d Hn. unfold resetRecvLoop. cbn [flat_map]. rewrite app_nil_r.
    destruct (resetRecvStep_cases me d) as [(pk & reset & Hd & _) | [_ E]];
      [destruct (Hn pk reset Hd) | exact E]. }
  repeat split.
  - unfold resetRecvLoop. rewrite in_flat_map. intros (d & Hin & He).
    destruct (resetRecvStep_cases me d) as [(pk & reset & Hd & E) | [_ E]];
      rewrite E in He; cbn in He; [| contradiction].
    destruct He as [<- | []]. exists d, pk, reset. auto.
  - intros (d & pk & reset & Hin & Hd & ->). unfold resetRecvLoop. apply in_flat_map.
    exists d. split; [exact Hin |].
    destruct (resetRecvStep_cases me d) as [(pk' & reset' & Hd' & E) | [Hn _]].
    + rewrite E. destruct Hd as (_ & H1 & H2), Hd' as (_ & H1' & H2').
      left. congruence.
    + destruct (Hn pk reset Hd).
  - destruct H as [H | H].
    + destruct (ackRecvStep_cases me d) as [(pk & ack & (Hl & _) & E) | [_ E]];
        rewrite E in H; [exact Hl | destruct H].
    + apply (discRespRecvStep_go me d e H).
  - destruct H as [H | H].
    + destruct (ackRecvStep_cases me d) as [(pk & ack & _ & E) | [_ E]];
        rewrite E in H; cbn in H; [| contradiction].
      destruct H as [<- | []]. eexists. reflexivity.
    + apply (discRespRecvStep_go me d e H).
Qed.

(** ** ACK publish task *)

Lemma ackPublishLoop_cons_ok (a : AckRes) (rest : list (Selected AckRes)) :
  ackPublishLoop (SelRecv a None :: rest) =
    (EvPublish TopicACKs (fst (AckRes_MarshalBinary a)) None :: fst (ackPublishLoop rest),
     snd (ackPublishLoop rest)).
Proof. cbn [ackPublishLoop]. destruct (ackPublishLoop rest). reflexivity. Qed.

Lemma ackPublishLoop_prefix (xs : list AckRes) (rest : list (Selected AckRes)) :
  ackPublishLoop (map (fun a => SelRecv a None) xs ++ rest) =
    (map (fun a => EvPublish TopicACKs (fst (AckRes_MarshalBinary a)) None) xs
       ++ fst (ackPublishLoop rest),
     snd (ackPublishLoop rest)).
Proof.
  induction xs as [| x xs IH]; [cbn [map app]; destruct (ackPublishLoop rest); reflexivity |].
  cbn [map app]. rewrite ackPublishLoop_cons_ok, IH. reflexivity.
Qed.

(** C7: the publish calls of the task carry the marshaled form of a prefix
    of the values of [ackChan], one call per value and in channel order; a
    failed publish is the last event of the task, which has then exited;
    and as long as no publish fails and the context is not done, every
    value of the channel is published.  The prefix is the values received
    before the task stops: every value received before the first failed
    publish or done context is published, the value whose publish fails is
    the last one tried, and nothing is published once the context is
    done. *)
Theorem ackPublishLoop_in_order (wakeups : list (Selected AckRes)) :
  runs_until_stop (fun a err => EvPublish TopicACKs (fst (AckRes_MarshalBinary a)) err)
    wakeups (ackPublishLoop wakeups) /\
  map published (fst (ackPublishLoop wakeups)) =
    map ack_payload (firstn (length (fst (ackPublishLoop wakeups))) (received wakeups)) /\
  (forall tr1 e tr2,
     fst (ackPublishLoop wakeups) = tr1 ++ e :: tr2 -> publish_failed e = true ->
     tr2 = [] /\ snd (ackPublishLoop wakeups) = Exited) /\
  (Forall (fun w => exists a, w = SelRecv a None) wakeups ->
     map published (fst (ackPublishLoop wakeups)) = map ack_payload (received wakeups) /\
     snd (ackPublishLoop wakeups) = Waiting).
Proof.
  split; [runs_until_stop_by ackPublishLoop_prefix |].
  induction wakeups as [| w rest (IHord & IHfail & IHall)].
  - cbn. split; [reflexivity | split].
    + intros [| ? ?] ? ? [=].
    + intros _. split; reflexivity.
  - destruct w as [| a [err |]].
    + cbn. split; [reflexivity | split].
      * intros [| ? ?] ? ? [=].
      * intros H. inversion H as [| ? ? [a Ha] _]. discriminate Ha.
    + cbn. split; [reflexivity | split].
      * intros tr1 e tr2 E _. destruct tr1 as [| ? [| ? ?]]; cbn in E; try discriminate E.
        injection E as _ <-. split; reflexivity.
      * intros H. inversion H as [| ? ? [a' Ha] _]. discriminate Ha.
    + rewrite ackPublishLoop_cons_ok. cbn [fst snd map length firstn received].
      split; [| split].
      * f_equal. exact IHord.
      * intros tr1 e tr2 E Hf. destruct tr1 as [| e1 tr1]; cbn [app] in E.
        -- injection E as <- _. discriminate Hf.
        -- injection E as _ E. apply (IHfail tr1 e tr2 E Hf).
      * intros Hall. inversion Hall as [| ? ? _ Hrest]. subst.
        destruct (IHall Hrest) as [E1 E2]. split; [| exact E2].
        f_equal. exact E1.
Qed.

(** ** Merkle root *)

Lemma dup_last_cons2 (l r : bytes) (rest : list bytes) :
  dup_last (l :: r :: rest) = l :: r :: dup_last rest.
Proof.
  unfold dup_last. cbn [length]. rewrite Nat.odd_succ_succ.
  destruct (Nat.odd (length rest)) eqn:E; [| reflexivity].
  destruct rest as [| x rest']; [discriminate E |]. reflexivity.
Qed.

Lemma merkle_level_cons2 (l r : bytes) (rest : list bytes) :
  merkle_level (l :: r :: rest) = HashBytes (l ++ r) :: merkle_level rest.
Proof. unfold merkle_level. rewrite dup_last_cons2. reflexivity. Qed.

Lemma merkle_level_one (l : bytes) : merkle_level [l] = [HashBytes (l ++ l)].
Proof. reflexivity. Qed.

(** The nodes of a level are digests of two concatenated children. *)
Lemma merkle_level_nodes (level : list bytes) :
  Forall (fun h => length h = HashLen) level ->
  Forall (fun node => length node = HashLen /\
            exists l r, node = HashBytes (l ++ r) /\ length (l ++ r) = (2 * HashLen)%nat)
    (merkle_level level).
Proof using HashBytes_length.
  enough (H : forall n level, (length level <= n)%nat ->
            Forall (fun h => length h = HashLen) level ->
            Forall (fun node => length node = HashLen /\
              exists l r, node = HashBytes (l ++ r) /\ length (l ++ r) = (2 * HashLen)%nat)
              (merkle_level level))
    by (intros Hall; apply (H (length level)); [apply Nat.le_refl | exact Hall]).
  intros n. induction n as [| n IH]; intros [| l [| r rest]] Hlen Hall;
    try (cbn in Hlen; lia); try (constructor; fail).
  - rewrite merkle_level_one. inversion Hall as [| ? ? Hl _]. subst.
    constructor; [| constructor]. split; [apply HashBytes_length |].
    exists l, l. split; [reflexivity |]. rewrite length_app, Hl. lia.
  - rewrite merkle_level_cons2.
    inversion Hall as [| ? ? Hl Hall']. inversion Hall' as [| ? ? Hr Hall'']. subst.
    constructor.
    + split; [apply HashBytes_length |].
      exists l, r. split; [reflexivity |]. rewrite length_app, Hl, Hr. lia.
    + apply IH; [cbn in Hlen; lia | exact Hall''].
Qed.

(** Repeating the level step ends with the root alone. *)
Lemma CalcMerkleRoot_iter (leaves : list bytes) :
  leaves <> [] -> exists k, Nat.iter k merkle_level leaves = [CalcMerkleRoot leaves].
Proof.
  funelim (CalcMerkleRoot leaves); intros Hne.
  - contradiction.
  - exists 0%nat. reflexivity.
  - destruct H as [k Hk].
    + rewrite merkle_level_cons2. discriminate.
    + exists (S k). rewrite <- Hk, Nat.iter_succ_r. reflexivity.
Qed.

(** C5: [CalcMerkleRoot] returns the zero hash on no leaves and the leaf on
    one leaf; on more leaves it is the root of the next level, where
    adjacent nodes are paired, the last node of an odd level is paired with
    itself, and each node is the 32-byte digest of the 64 bytes of its two
    children; repeating the level step ends with the root alone. *)
Theorem CalcMerkleRoot_reference :
  CalcMerkleRoot [] = ZeroHash /\
  (forall leaf, CalcMerkleRoot [leaf] = leaf) /\
  (forall l r rest,
     CalcMerkleRoot (l :: r :: rest) = CalcMerkleRoot (merkle_level (l :: r :: rest))) /\
  (forall l r rest, merkle_level (l :: r :: rest) = HashBytes (l ++ r) :: merkle_level rest) /\
  (forall l, merkle_level [l] = [HashBytes (l ++ l)]) /\
  merkle_level [] = [] /\
  (forall level, Forall (fun h => length h = HashLen) level ->
     Forall (fun node => length node = HashLen /\
               exists l r, node = HashBytes (l ++ r) /\ length (l ++ r) = (2 * HashLen)%nat)
       (merkle_level level)) /\
  (forall leaves, leaves <> [] ->
     exists k, Nat.iter k merkle_level leaves = [CalcMerkleRoot leaves]).
Proof using HashBytes_length.
  split; [apply CalcMerkleRoot_equation_1 |].
  split; [apply CalcMerkleRoot_equation_2 |].
  split; [apply CalcMerkleRoot_equation_3 |].
  split; [apply merkle_level_cons2 |].
  split; [apply merkle_level_one |].
  split; [reflexivity |].
  split; [apply merkle_level_nodes | apply CalcMerkleRoot_iter].
Qed.

(** The expectations of [TestCalcMerkleRoot], "two leaves", and of
    [TestCalcMerkleRoot_Extended], "five leaves". *)
Lemma CalcMerkleRoot_two_leaves (leaf1 leaf2 : bytes) :
  CalcMerkleRoot [leaf1; leaf2] = HashBytes (leaf1 ++ leaf2).
Proof.
  rewrite CalcMerkleRoot_equation_3, merkle_level_cons2.
  change (merkle_level []) with (@nil bytes). apply CalcMerkleRoot_equation_2.
Qed.

Lemma CalcMerkleRoot_five_leaves (l0 l1 l2 l3 l4 : bytes) :
  let h01 := HashBytes (l0 ++ l1) in
  let h23 := HashBytes (l2 ++ l3) in
  let h44 := HashBytes (l4 ++ l4) in
  let h0123 := HashBytes (h01 ++ h23) in
  let h4444 := HashBytes (h44 ++ h44) in
  CalcMerkleRoot [l0; l1; l2; l3; l4] = HashBytes (h0123 ++ h4444).
Proof.
  cbv zeta.
  rewrite CalcMerkleRoot_equation_3, !merkle_level_cons2, merkle_level_one.
  rewrite CalcMerkleRoot_equation_3, !merkle_level_cons2, merkle_level_one.
  apply CalcMerkleRoot_two_leaves.
Qed.

(** ** Votes *)

(** C6: [SignVote] of a positive vote without an app hash returns an
    error, whatever the key; with an app hash and a signing key it
    succeeds, the signature carries the signer's public key, and the vote
    with [AckStatus] Agree verifies for the same block id and app hash. *)
Theorem SignVote_positive_vote :
  (forall blkID key, exists e, SignVote blkID true None key = Err e) /\
  (forall blkID appHash k,
     exists sig,
       SignVote blkID true (Some appHash) (Some k) = Ok sig /\
       sig_PubKey sig = key_Public k /\
       VoteInfo_Verify (mkVoteInfo sig AckStatusAgree None) blkID appHash = None).
Proof using sig_Verify_Sign.
  split.
  - intros blkID [k |]; eexists; reflexivity.
  - intros blkID appHash k. eexists. split; [reflexivity |]. split; [reflexivity |].
    unfold VoteInfo_Verify. cbn. rewrite sig_Verify_Sign. reflexivity.
Qed.

(** ** More on the wire form of a blockProp *)

Lemma to_of_uint64 u : 0 <= u < 2 ^ 64 -> Int64.to_uint64 (Int64.of_uint64 u) = u.
Proof.
  unfold Int64.of_uint64, Int64.to_uint64. intros Hu.
  destruct (Z.ltb_spec u (2 ^ 63)).
  - apply Z.mod_small; lia.
  - symmetry. apply Z.mod_unique with (q := -1); lia.
Qed.

Lemma Uint64_range (b8 : bytes) : length b8 = 8%nat -> 0 <= Uint64 b8 < 2 ^ 64.
Proof.
  intros H. unfold Uint64. pose proof (le_combine_bound b8) as B.
  rewrite H in B. exact B.
Qed.

(** Eight bytes that are decoded as [int64] and encoded again are the same
    eight bytes. *)
Lemma le_split_of_uint64 (b8 : bytes) :
  length b8 = 8%nat ->
  le_split 8 (Int64.to_uint64 (Int64.of_uint64 (Uint64 b8))) = b8.
Proof.
  intros H. rewrite to_of_uint64 by (apply Uint64_range; exact H).
  unfold Uint64. rewrite <- H. apply split_le_combine.
Qed.

Lemma io_ReadFull_short (l : bytes) (n : nat) :
  (length l < n)%nat ->
  io_ReadFull (mkReader l EOF) n =
    (l, Some (match l with [] => EOF | _ :: _ => ErrUnexpectedEOF end), mkReader [] EOF).
Proof.
  intros H. unfold io_ReadFull. cbn [pending at_end].
  replace (n <=? length l)%nat with false by (symmetry; apply Nat.leb_gt; exact H).
  destruct l; reflexivity.
Qed.

Lemma io_ReadFull_fits (l : bytes) (e : error) (n : nat) :
  (n <= length l)%nat ->
  io_ReadFull (mkReader l e) n = (firstn n l, None, mkReader (skipn n l) e).
Proof.
  intros H. rewrite <- (firstn_skipn n l) at 1.
  apply io_ReadFull_app. rewrite length_firstn. apply Nat.min_l. exact H.
Qed.

Lemma binary_Read_int64_short (l : bytes) :
  (length l < 8)%nat ->
  binary_Read_int64 (mkReader l EOF) =
    (Err (match l with [] => EOF | _ :: _ => ErrUnexpectedEOF end), mkReader [] EOF).
Proof.
  intros H. unfold binary_Read_int64. rewrite io_ReadFull_short by exact H. reflexivity.
Qed.

Lemma ReadFrom_Marshal (x recv : blockProp) (rest : bytes) (e : error) :
  wf_blockProp x -> wf_blockProp recv ->
  (length (LeaderSig x) <= 1000)%nat ->
  ReadFrom recv (mkReader (fst (MarshalBinary x) ++ rest) e) =
    Done (mkRes (88 + Z.of_nat (length (LeaderSig x))) None x (mkReader rest e)).
Proof.
  intros Hx Hrecv Hsig. rewrite (MarshalBinary_layout x Hx).
  destruct Hx as (HH & Hh & Hp & HS). destruct Hrecv as (_ & Rh & Rp & _).
  rewrite <- !app_assoc.
  rewrite ReadFrom_header by (try apply length_le_split; assumption).
  cbv zeta.
  rewrite !Uint64_le_split by apply to_uint64_range.
  rewrite !of_to_uint64
    by (try assumption; unfold Int64.in_range, Int64.min_int, Int64.max_int; lia).
  replace (1000 <? Z.of_nat (length (LeaderSig x))) with false
    by (symmetry; apply Z.ltb_ge; lia).
  replace (Z.of_nat (length (LeaderSig x)) <? 0) with false
    by (symmetry; apply Z.ltb_ge; lia).
  rewrite Nat2Z.id, io_ReadFull_app by reflexivity.
  rewrite !fill_full by (rewrite ?length_make; congruence).
  destruct x; reflexivity.
Qed.

(** X1: [ReadFrom] frames its input.  On the bytes of a marshaled value
    followed by anything, it stops after the 88 fixed bytes and the
    signature, returns that count and the value, and leaves the following
    bytes in the reader; hence [UnmarshalBinary] ignores trailing bytes. *)
Theorem ReadFrom_frames (x recv : blockProp) (rest : bytes) (e : error) :
  wf_blockProp x -> wf_blockProp recv ->
  (length (LeaderSig x) <= 1000)%nat ->
  length (fst (MarshalBinary x)) = (88 + length (LeaderSig x))%nat /\
  ReadFrom recv (mkReader (fst (MarshalBinary x) ++ rest) e) =
    Done (mkRes (Z.of_nat (length (fst (MarshalBinary x)))) None x (mkReader rest e)) /\
  UnmarshalBinary recv (fst (MarshalBinary x) ++ rest) = Done (None, x).
Proof.
  intros Hx Hrecv Hsig.
  assert (Hlen : length (fst (MarshalBinary x)) = (88 + length (LeaderSig x))%nat).
  { rewrite (MarshalBinary_layout x Hx). destruct Hx as (_ & Hh & Hp & _).
    rewrite !length_app, !length_le_split, Hh, Hp. unfold HashLen. lia. }
  split; [exact Hlen |]. split.
  - rewrite ReadFrom_Marshal by assumption. rewrite Hlen.
    repeat f_equal. lia.
  - unfold UnmarshalBinary, NewReader. rewrite ReadFrom_Marshal by assumption.
    reflexivity.
Qed.

Lemma eof_error_cases (got : bytes) :
  (eof_error got = EOF \/ eof_error got = ErrUnexpectedEOF) /\
  (eof_error got = EOF <-> length got = 0%nat).
Proof.
  destruct got; cbn; split; auto; split; intros H; try reflexivity; discriminate H.
Qed.

Lemma split_at (k : nat) (l : bytes) :
  (k <= length l)%nat ->
  exists pre post, l = pre ++ post /\ length pre = k /\ length post = (length l - k)%nat.
Proof.
  intros H. exists (firstn k l), (skipn k l).
  rewrite firstn_skipn, length_firstn, length_skipn. repeat split; lia.
Qed.

(** [ReadFrom] on fewer than 88 bytes: an end-of-input error, whose kind
    tells whether the input stops at the start of a field. *)
Lemma ReadFrom_short (bp : blockProp) (data : bytes) :
  (length data < 88)%nat ->
  exists n e bp',
    ReadFrom bp (NewReader data) = Done (mkRes n (Some e) bp' (mkReader [] EOF)) /\
    (e = EOF \/ e = ErrUnexpectedEOF) /\
    (e = EOF <-> In (length data) field_starts) /\
    LeaderSig bp' = LeaderSig bp.
Proof.
  intros Hlen. unfold NewReader, field_starts. cbn [In].
  destruct (Nat.lt_ge_cases (length data) 8) as [H8 | H8].
  { exists 0, (eof_error data), bp. unfold ReadFrom.
    rewrite binary_Read_int64_short by exact H8.
    destruct (eof_error_cases data) as [Hk Hz].
    split; [reflexivity |]. split; [exact Hk |]. split; [| reflexivity].
    rewrite Hz. revert H8. generalize (length data). intros m Hm. lia. }
  destruct (split_at 8 data H8) as (h & r1 & -> & Lh & Lr1).
  rewrite length_app, Lh in *.
  unfold ReadFrom. rewrite binary_Read_int64_app by exact Lh. cbv beta iota zeta.
  destruct (Nat.lt_ge_cases (length r1) 32) as [H40 | H40].
  { rewrite io_ReadFull_short by exact H40. cbv beta iota zeta.
    destruct (eof_error_cases r1) as [Hk Hz].
    do 3 eexists. split; [reflexivity |]. split; [exact Hk |]. split; [| reflexivity].
    rewrite Hz. revert H40. generalize (length r1). intros m Hm. lia. }
  destruct (split_at 32 r1 H40) as (hash & r2 & -> & Lhash & Lr2).
  rewrite length_app, Lhash in *.
  rewrite io_ReadFull_app by exact Lhash. cbv beta iota zeta.
  destruct (Nat.lt_ge_cases (length r2) 32) as [H72 | H72].
  { rewrite io_ReadFull_short by exact H72. cbv beta iota zeta.
    destruct (eof_error_cases r2) as [Hk Hz].
    do 3 eexists. split; [reflexivity |]. split; [exact Hk |]. split; [| reflexivity].
    rewrite Hz. revert H72. generalize (length r2). intros m Hm. lia. }
  destruct (split_at 32 r2 H72) as (prev & r3 & -> & Lprev & Lr3).
  rewrite length_app, Lprev in *.
  rewrite io_ReadFull_app by exact Lprev. cbv beta iota zeta.
  destruct (Nat.lt_ge_cases (length r3) 8) as [H80 | H80].
  { rewrite binary_Read_int64_short by exact H80.
    destruct (eof_error_cases r3) as [Hk Hz].
    do 3 eexists. split; [reflexivity |]. split; [exact Hk |]. split; [| reflexivity].
    rewrite Hz. revert H80. generalize (length r3). intros m Hm. lia. }
  destruct (split_at 8 r3 H80) as (st & r4 & -> & Lst & Lr4).
  rewrite length_app, Lst in *.
  rewrite binary_Read_int64_app by exact Lst. cbv beta iota zeta.
  assert (H88 : (length r4 < 8)%nat) by lia.
  rewrite binary_Read_int64_short by exact H88.
  destruct (eof_error_cases r4) as [Hk Hz].
  do 3 eexists. split; [reflexivity |]. split; [exact Hk |]. split; [| reflexivity].
  rewrite Hz. revert H88. generalize (length r4). intros m Hm. lia.
Qed.

(** X2: on fewer than 88 bytes [UnmarshalBinary] never succeeds and never
    panics: it returns [io.EOF] when the input stops where a fixed field
    begins (the empty input included) and [io.ErrUnexpectedEOF] when it
    stops inside a field; [LeaderSig] is left as it was. *)
Theorem UnmarshalBinary_truncated (bp : blockProp) (data : bytes) :
  (length data < 88)%nat ->
  exists e bp',
    UnmarshalBinary bp data = Done (Some e, bp') /\
    (e = EOF \/ e = ErrUnexpectedEOF) /\
    (e = EOF <-> In (length data) field_starts) /\
    LeaderSig bp' = LeaderSig bp.
Proof.
  intros Hlen.
  destruct (ReadFrom_short bp data Hlen) as (n & e & bp' & HR & Hk & Hz & HS).
  exists e, bp'. unfold UnmarshalBinary. rewrite HR. auto.
Qed.

(** The shape of an input that [UnmarshalBinary] accepts, and the value it
    yields. *)
Lemma UnmarshalBinary_success (recv : blockProp) (data : bytes) (bp : blockProp) :
  UnmarshalBinary recv data = Done (None, bp) ->
  exists h hash prev st sig tail,
    data = h ++ hash ++ prev ++ st ++ firstn 8 (skipn 80 data) ++ sig ++ tail /\
    length h = 8%nat /\ length hash = HashLen /\ length prev = HashLen /\
    length st = 8%nat /\ length (firstn 8 (skipn 80 data)) = 8%nat /\
    0 <= sigLen_field data <= 1000 /\
    length sig = Z.to_nat (sigLen_field data) /\
    bp = mkBlockProp (Int64.of_uint64 (Uint64 h)) (fill (Hash recv) hash)
           (fill (PrevHash recv) prev) (Int64.of_uint64 (Uint64 st)) sig.
Proof.
  intros H. unfold UnmarshalBinary in H.
  destruct (Nat.lt_ge_cases (length data) 88) as [Hs | Hl].
  { destruct (ReadFrom_short recv data Hs) as (n & e & bp' & HR & _).
    rewrite HR in H. discriminate H. }
  destruct (header_split data Hl) as (h & hash & prev & st & Lh & Lhash & Lprev & Lst & Lsl & El).
  pose proof (ReadFrom_header recv h hash prev st (firstn 8 (skipn 80 data)) (skipn 88 data) EOF
                Lh Lhash Lprev Lst Lsl) as HR.
  rewrite <- El in HR. cbv zeta in HR. fold (sigLen_field data) in HR.
  unfold NewReader in H. rewrite HR in H. clear HR.
  destruct (Z.ltb_spec 1000 (sigLen_field data)) as [Hgt | Hle]; [discriminate H |].
  destruct (Z.ltb_spec (sigLen_field data) 0) as [Hneg | Hpos]; [discriminate H |].
  destruct (Nat.le_gt_cases (Z.to_nat (sigLen_field data)) (length (skipn 88 data)))
    as [Hfit | Hshort].
  2: { rewrite io_ReadFull_short in H by exact Hshort. discriminate H. }
  rewrite io_ReadFull_fits in H by exact Hfit.
  apply (f_equal (fun x => match x with Done (_, b) => b | Panic => bp end)) in H.
  cbv beta iota in H. cbn [rf_bp] in H. subst bp.
  exists h, hash, prev, st, (firstn (Z.to_nat (sigLen_field data)) (skipn 88 data)),
    (skipn (Z.to_nat (sigLen_field data)) (skipn 88 data)).
  rewrite firstn_skipn.
  assert (Lsig : length (firstn (Z.to_nat (sigLen_field data)) (skipn 88 data))
                 = Z.to_nat (sigLen_field data))
    by (rewrite length_firstn; apply Nat.min_l; exact Hfit).
  repeat match goal with |- _ /\ _ => split end; try assumption; try lia.
  unfold set_LeaderSig. cbn [Height Hash PrevHash Stamp].
  rewrite (fill_full (make (Z.to_nat (sigLen_field data))))
    by (rewrite length_make, Lsig; reflexivity).
  reflexivity.
Qed.

(** X3: [UnmarshalBinary] accepts an input exactly when it holds the 88
    fixed bytes, its [sigLen] field is between 0 and 1000, and at least
    [sigLen] more bytes follow. *)
Theorem UnmarshalBinary_accepts_iff (recv : blockProp) (data : bytes) :
  (exists bp, UnmarshalBinary recv data = Done (None, bp)) <->
  (88 <= length data)%nat /\
  0 <= sigLen_field data <= 1000 /\
  (88 + Z.to_nat (sigLen_field data) <= length data)%nat.
Proof.
  split.
  - intros [bp H].
    destruct (UnmarshalBinary_success recv data bp H)
      as (h & hash & prev & st & sig & tail & El & Lh & Lhash & Lprev & Lst & Lsl & Hr & Lsig & _).
    assert (HL : length data = (8 + (32 + (32 + (8 + (8 + (length sig + length tail))))))%nat).
    { rewrite El at 1. rewrite !length_app, Lh, Lhash, Lprev, Lst, Lsl. reflexivity. }
    rewrite Lsig in HL. revert HL. generalize (length data). intros m Hm.
    repeat split; lia.
  - intros (Hl & [Hpos Hle] & Hfit).
    destruct (header_split data Hl) as (h & hash & prev & st & Lh & Lhash & Lprev & Lst & Lsl & El).
    pose proof (ReadFrom_header recv h hash prev st (firstn 8 (skipn 80 data)) (skipn 88 data) EOF
                  Lh Lhash Lprev Lst Lsl) as HR.
    rewrite <- El in HR. cbv zeta in HR. fold (sigLen_field data) in HR.
    unfold UnmarshalBinary, NewReader. rewrite HR. clear HR.
    replace (1000 <? sigLen_field data) with false by (symmetry; apply Z.ltb_ge; lia).
    replace (sigLen_field data <? 0) with false by (symmetry; apply Z.ltb_ge; lia).
    rewrite io_ReadFull_fits.
    + eexists. reflexivity.
    + rewrite length_skipn. revert Hfit. generalize (length data). intros m Hm. lia.
Qed.

(** X4: whatever [UnmarshalBinary] accepts, the value it yields is well
    formed, its signature has at most 1000 bytes, and marshaling it gives
    back exactly the bytes that were consumed: the first 88 plus the
    signature length. *)
Theorem UnmarshalBinary_canonical (recv : blockProp) (data : bytes) (bp : blockProp) :
  wf_blockProp recv ->
  UnmarshalBinary recv data = Done (None, bp) ->
  wf_blockProp bp /\
  (length (LeaderSig bp) <= 1000)%nat /\
  fst (MarshalBinary bp) = firstn (88 + length (LeaderSig bp)) data.
Proof.
  intros (_ & Rh & Rp & _) H.
  destruct (UnmarshalBinary_success recv data bp H)
    as (h & hash & prev & st & sig & tail & El & Lh & Lhash & Lprev & Lst & Lsl & Hr & Lsig & ->).
  rewrite !fill_full by congruence.
  assert (Hwf : wf_blockProp
            (mkBlockProp (Int64.of_uint64 (Uint64 h)) hash prev (Int64.of_uint64 (Uint64 st)) sig)).
  { unfold wf_blockProp. cbn [Height Hash PrevHash Stamp].
    repeat split; try assumption; apply of_uint64_range; apply Uint64_range; assumption. }
  split; [exact Hwf |]. cbn [LeaderSig]. split; [lia |].
  rewrite (MarshalBinary_layout _ Hwf). cbn [Height Hash PrevHash Stamp LeaderSig].
  rewrite !le_split_of_uint64 by assumption.
  replace (Z.of_nat (length sig)) with (sigLen_field data) by lia.
  unfold sigLen_field at 1. rewrite le_split_of_uint64 by exact Lsl.
  set (P := h ++ hash ++ prev ++ st ++ firstn 8 (skipn 80 data) ++ sig).
  assert (EP : data = P ++ tail)
    by (rewrite El at 1; subst P; rewrite <- !app_assoc; reflexivity).
  assert (LP : length P = (88 + length sig)%nat)
    by (subst P; rewrite !length_app, Lh, Lhash, Lprev, Lst, Lsl; reflexivity).
  rewrite <- LP. clearbody P. rewrite EP.
  rewrite firstn_app, firstn_all, Nat.sub_diag. cbn [firstn]. rewrite app_nil_r.
  reflexivity.
Qed.

(** ** Writing and reading back *)

Lemma MarshalBinary_pair (bp : blockProp) :
  MarshalBinary bp = (fst (MarshalBinary bp), None).
Proof. reflexivity. Qed.

Lemma WriteTo_buffer (bp : blockProp) (buf : bytes) :
  WriteTo bp (mkWriter buf None) =
    (Z.of_nat (length (fst (MarshalBinary bp))), None,
     mkWriter (buf ++ fst (MarshalBinary bp)) None).
Proof. reflexivity. Qed.

(** X5: two values written one after the other into a buffer are read
    back one after the other: each [ReadFrom] returns the count the
    matching [WriteTo] returned and the value written, and the second read
    leaves the reader empty. *)
Theorem WriteTo_ReadFrom_sequence (x y recv : blockProp) :
  wf_blockProp x -> wf_blockProp y -> wf_blockProp recv ->
  (length (LeaderSig x) <= 1000)%nat -> (length (LeaderSig y) <= 1000)%nat ->
  exists nx ny w1 w2,
    WriteTo x (mkWriter [] None) = (nx, None, w1) /\
    WriteTo y w1 = (ny, None, w2) /\
    ReadFrom recv (NewReader (sink w2)) =
      Done (mkRes nx None x (mkReader (fst (MarshalBinary y)) EOF)) /\
    ReadFrom x (mkReader (fst (MarshalBinary y)) EOF) =
      Done (mkRes ny None y (mkReader [] EOF)).
Proof.
  intros Hx Hy Hrecv Sx Sy.
  assert (Lx : length (fst (MarshalBinary x)) = (88 + length (LeaderSig x))%nat).
  { rewrite (MarshalBinary_layout x Hx). destruct Hx as (_ & Hh & Hp & _).
    rewrite !length_app, !length_le_split, Hh, Hp. reflexivity. }
  assert (Ly : length (fst (MarshalBinary y)) = (88 + length (LeaderSig y))%nat).
  { rewrite (MarshalBinary_layout y Hy). destruct Hy as (_ & Hh & Hp & _).
    rewrite !length_app, !length_le_split, Hh, Hp. reflexivity. }
  do 4 eexists. rewrite !WriteTo_buffer. cbn [app].
  split; [reflexivity |]. split; [reflexivity |]. cbn [sink]. unfold NewReader. split.
  - rewrite ReadFrom_Marshal by assumption. rewrite Lx. repeat f_equal. lia.
  - rewrite <- (app_nil_r (fst (MarshalBinary y))) at 1.
    rewrite ReadFrom_Marshal by assumption. rewrite Ly. repeat f_equal. lia.
Qed.

(** X6: no proper prefix of a marshaled value decodes: [UnmarshalBinary]
    returns [io.EOF] or [io.ErrUnexpectedEOF] on it, never a value and
    never a panic. *)
Theorem UnmarshalBinary_prefix_fails (x recv : blockProp) (k : nat) :
  wf_blockProp x ->
  (length (LeaderSig x) <= 1000)%nat ->
  (k < length (fst (MarshalBinary x)))%nat ->
  exists e bp',
    UnmarshalBinary recv (firstn k (fst (MarshalBinary x))) = Done (Some e, bp') /\
    (e = EOF \/ e = ErrUnexpectedEOF).
Proof.
  intros Hx Hsig Hk.
  destruct (Nat.lt_ge_cases k 88) as [Hs | Hl].
  { destruct (ReadFrom_short recv (firstn k (fst (MarshalBinary x))))
      as (n & e & bp' & HR & Hkind & _).
    - rewrite length_firstn. lia.
    - exists e, bp'. unfold UnmarshalBinary. rewrite HR. auto. }
  revert Hk. rewrite (MarshalBinary_layout x Hx). destruct Hx as (HH & Hh & Hp & HS).
  set (h := le_split 8 (Int64.to_uint64 (Height x))).
  set (st := le_split 8 (Int64.to_uint64 (Stamp x))).
  set (sl := le_split 8 (Int64.to_uint64 (Z.of_nat (length (LeaderSig x))))).
  assert (Lh : length h = 8%nat) by apply length_le_split.
  assert (Lst : length st = 8%nat) by apply length_le_split.
  assert (Lsl : length sl = 8%nat) by apply length_le_split.
  assert (Esl : Int64.of_uint64 (Uint64 sl) = Z.of_nat (length (LeaderSig x))).
  { subst sl. rewrite Uint64_le_split by apply to_uint64_range.
    apply of_to_uint64. unfold Int64.in_range, Int64.min_int, Int64.max_int. lia. }
  clearbody h st sl. intros Hk.
  rewrite !length_app, Lh, Hh, Hp, Lst, Lsl in Hk. unfold HashLen in *.
  assert (E : firstn k (h ++ Hash x ++ PrevHash x ++ st ++ sl ++ LeaderSig x) =
              h ++ Hash x ++ PrevHash x ++ st ++ sl ++ firstn (k - 88) (LeaderSig x)).
  { rewrite firstn_app, (firstn_all2 h) by lia. f_equal.
    rewrite firstn_app, (firstn_all2 (Hash x)) by lia. f_equal.
    rewrite firstn_app, (firstn_all2 (PrevHash x)) by lia. f_equal.
    rewrite firstn_app, (firstn_all2 st) by lia. f_equal.
    rewrite firstn_app, (firstn_all2 sl) by lia. f_equal.
    f_equal. lia. }
  rewrite E. unfold UnmarshalBinary, NewReader.
  rewrite ReadFrom_header by assumption. cbv zeta. rewrite Esl.
  replace (1000 <? Z.of_nat (length (LeaderSig x))) with false
    by (symmetry; apply Z.ltb_ge; lia).
  replace (Z.of_nat (length (LeaderSig x)) <? 0) with false
    by (symmetry; apply Z.ltb_ge; lia).
  rewrite Nat2Z.id, io_ReadFull_short by (rewrite length_firstn; lia).
  do 2 eexists. split; [reflexivity |].
  apply (eof_error_cases (firstn (k - 88) (LeaderSig x))).
Qed.

(** ** Announcing a proposal *)

Lemma announceBlkProp_map (me : bytes) (peers : list bytes)
  (adv : bytes -> contentAnn -> option error) (blk : Block) :
  announceBlkProp me peers adv blk =
    map (fun p =>
           let a := mkContentAnn (blockProp_String (blockProp_of blk))
                      (fst (MarshalBinary (blockProp_of blk))) (EncodeBlock blk) in
           EvAdvertise p a (adv p a))
      (filter (fun p => negb (bytes_eqb p me)) peers).
Proof.
  unfold announceBlkProp. cbv zeta. fold (blockProp_of blk).
  destruct peers as [| p0 peers0]; [reflexivity |].
  generalize (p0 :: peers0). intros l.
  induction l as [| p l IH]; [reflexivity |].
  cbn [flat_map filter]. destruct (bytes_eqb p me); cbn [negb app map].
  - exact IH.
  - f_equal. exact IH.
Qed.

Lemma announced_content (me : bytes) (peers : list bytes)
  (adv : bytes -> contentAnn -> option error) (blk : Block)
  (p : bytes) (a : contentAnn) (err : option error) :
  In (EvAdvertise p a err) (announceBlkProp me peers adv blk) ->
  p <> me /\ In p peers /\ err = adv p a /\
  ann_ann a = fst (MarshalBinary (blockProp_of blk)) /\
  ann_content a = EncodeBlock blk /\
  ann_cType a = blockProp_String (blockProp_of blk).
Proof.
  rewrite announceBlkProp_map. cbv zeta.
  intros Hin. apply in_map_iff in Hin. destruct Hin as (q & E & Hq).
  injection E as -> <- <-.
  apply filter_In in Hq. destruct Hq as [Hq Hne].
  apply negb_true_iff, bytes_eqb_neq in Hne.
  repeat match goal with |- _ /\ _ => split end; auto.
Qed.

(** X7: [announceBlkProp] advertises to every peer of the list other than
    the node itself, once each and in list order, whether or not earlier
    advertisements failed; every advertisement carries the same marshaled
    proposal, built from the block's height, hash, previous hash,
    timestamp and signature, and the same encoded block. *)
Theorem announceBlkProp_targets (me : bytes) (peers : list bytes)
  (adv : bytes -> contentAnn -> option error) (blk : Block) :
  map (fun ev => match ev with EvAdvertise p _ _ => p end)
      (announceBlkProp me peers adv blk)
    = filter (fun p => negb (bytes_eqb p me)) peers /\
  (forall p a err, In (EvAdvertise p a err) (announceBlkProp me peers adv blk) ->
     p <> me /\ In p peers /\ err = adv p a /\
     ann_ann a = fst (MarshalBinary (blockProp_of blk)) /\
     ann_content a = EncodeBlock blk /\
     ann_cType a = blockProp_String (blockProp_of blk)).
Proof.
  split.
  - rewrite announceBlkProp_map. cbv zeta. rewrite map_map. cbn. apply map_id.
  - apply announced_content.
Qed.

(** X8: what the announcer sends is what the receiver acts on.  For a
    block whose fields fit the wire form and whose encoding decodes to
    itself, the handler of a peer that is sent the announcement and then
    the block asks its engine about exactly the block's height, hash,
    previous hash, signature and timestamp; if the engine accepts, it
    requests the block and notifies the engine of it, and otherwise it
    closes without writing. *)
Theorem announced_proposal_reaches_engine (me : bytes) (peers : list bytes)
  (adv : bytes -> contentAnn -> option error) (blk : Block)
  (p : bytes) (a : contentAnn) (err : option error) :
  wf_blockProp (blockProp_of blk) ->
  (length (Block_Signature blk) <= 1000)%nat ->
  DecodeBlock (EncodeBlock blk) = Some blk ->
  Header_Hash blk = Block_Hash blk ->
  In (EvAdvertise p a err) (announceBlkProp me peers adv blk) ->
  blkPropStreamHandler (mkStream (NewReader (ann_ann a ++ ann_content a)) None) =
    (EvAcceptProposal (Header_Height blk) (Block_Hash blk) (Header_PrevHash blk)
       (Block_Signature blk) (Header_Timestamp_UnixMilli blk)
       (ce_AcceptProposal (Header_Height blk) (Block_Hash blk) (Header_PrevHash blk)
          (Block_Signature blk) (Header_Timestamp_UnixMilli blk))
     :: (if ce_AcceptProposal (Header_Height blk) (Block_Hash blk) (Header_PrevHash blk)
             (Block_Signature blk) (Header_Timestamp_UnixMilli blk)
         then [EvWrite getMsg None; EvCall (NotifyBlockProposal blk)]
         else [])
     ++ [EvClose], Returned).
Proof.
  intros Hwf Hsig Hdec Hhash Hin.
  destruct (announced_content me peers adv blk p a err Hin) as (_ & _ & _ & -> & -> & _).
  assert (Hzero : wf_blockProp zero_blockProp).
  { unfold wf_blockProp, zero_blockProp, Int64.in_range, Int64.min_int, Int64.max_int.
    cbn [Height Hash PrevHash Stamp]. rewrite !length_make. repeat split; lia. }
  unfold blkPropStreamHandler, blkPropStreamBody. cbn [s_in s_writeErr]. unfold NewReader.
  rewrite ReadFrom_Marshal by assumption.
  cbn [rf_err rf_bp rf_rd]. cbv zeta. unfold blockProp_of.
  cbn [Height Hash PrevHash Stamp LeaderSig].
  destruct (ce_AcceptProposal (Header_Height blk) (Block_Hash blk) (Header_PrevHash blk)
              (Block_Signature blk) (Header_Timestamp_UnixMilli blk)); cbn [negb].
  - unfold io_ReadAll. cbn [at_end pending]. rewrite Hdec, Z.eqb_refl. cbn [negb].
    rewrite Hhash, bytes_eqb_refl. reflexivity.
  - reflexivity.
Qed.

(** ** Discovery responses *)

Lemma discRespRecvStep_cases (me : bytes) (d : Delivery) :
  (exists pk dm, disc_deliverable me d pk dm /\
     discRespRecvStep me d = [EvGo (NotifyDiscoveryMessage pk (BestHeight dm))]) \/
  ((forall pk dm, ~ disc_deliverable me d pk dm) /\ discRespRecvStep me d = []).
Proof.
  unfold discRespRecvStep, disc_deliverable.
  destruct (Role_eqb (d_role d) RoleLeader) eqn:ER; cbn [negb].
  2: { right. split; [| reflexivity]. intros pk dm (Hr & _).
       apply Role_eqb_eq in Hr. rewrite Hr in ER. discriminate ER. }
  apply Role_eqb_eq in ER.
  destruct (bytes_eqb (From (d_msg d)) me) eqn:EMe.
  { right. split; [| reflexivity]. intros pk dm (_ & Hne & _).
    apply bytes_eqb_eq in EMe. contradiction. }
  apply bytes_eqb_neq in EMe.
  destruct (DiscRes_UnmarshalBinary (Data (d_msg d))) as [dm |] eqn:EDec.
  2: { right. split; [| reflexivity]. intros pk dm (_ & _ & Hd & _). discriminate Hd. }
  destruct (PubKeyFromPeerID (From (d_msg d))) as [pk |] eqn:EPk.
  2: { right. split; [| reflexivity]. intros pk0 dm0 (_ & _ & _ & Hp). discriminate Hp. }
  left. exists pk, dm. repeat split; assumption.
Qed.

Lemma disc_deliverable_step (me : bytes) (d : Delivery) (pk : bytes) (dm : DiscoveryResponse) :
  disc_deliverable me d pk dm ->
  discRespRecvStep me d = [EvGo (NotifyDiscoveryMessage pk (BestHeight dm))].
Proof.
  intros Hd. destruct (discRespRecvStep_cases me d) as [(pk' & dm' & Hd' & E) | [Hn _]].
  - destruct Hd as (_ & _ & H1 & H2), Hd' as (_ & _ & H1' & H2').
    rewrite H1 in H1'. rewrite H2 in H2'. injection H1' as <-. injection H2' as <-. exact E.
  - destruct (Hn pk dm Hd).
Qed.

(** X9: over the messages of the discovery response topic, the events of
    the receive task are exactly the asynchronous
    [NotifyDiscoveryMessage(senderPubKey, BestHeight)] calls of the
    messages received as leader, from another peer, that decode and whose
    sender key can be derived; the task handles the messages one by one in
    the order of delivery, each such message yields one call and every
    other message none; a node that is not the leader and a node that
    hears itself do nothing. *)
Theorem discRespRecvLoop_delivers (me : bytes) (ds : list Delivery) :
  one_by_one (disc_outcome me) ds (discRespRecvLoop me ds) /\
  (forall ds',
     discRespRecvLoop me (ds ++ ds') = discRespRecvLoop me ds ++ discRespRecvLoop me ds') /\
  (forall d pk dm, disc_deliverable me d pk dm ->
     discRespRecvLoop me [d] = [EvGo (NotifyDiscoveryMessage pk (BestHeight dm))]) /\
  (forall d, (forall pk dm, ~ disc_deliverable me d pk dm) ->
     discRespRecvLoop me [d] = []) /\
  (forall e, In e (discRespRecvLoop me ds) <->
     exists d pk dm, In d ds /\ disc_deliverable me d pk dm /\
                     e = EvGo (NotifyDiscoveryMessage pk (BestHeight dm))) /\
  (forall d, d_role d <> RoleLeader -> discRespRecvStep me d = []) /\
  (forall d, From (d_msg d) = me -> discRespRecvStep me d = []).
Proof.
  split; [apply one_by_one_flat_map; intros d; apply discRespRecvStep_cases |].
  split; [intros ds'; apply flat_map_app |].
  split.
  { intros d pk dm Hd. unfold discRespRecvLoop. cbn [flat_map]. rewrite app_nil_r.
    apply disc_deliverable_step. exact Hd. }
  split.
  { intros d Hn. unfold discRespRecvLoop. cbn [flat_map]. rewrite app_nil_r.
    destruct (discRespRecvStep_cases me d) as [(pk & dm & Hd & _) | [_ E]];
      [destruct (Hn pk dm Hd) | exact E]. }
  split; [| split].
  - intros e. split.
    + unfold discRespRecvLoop. rewrite in_flat_map. intros (d & Hin & He).
      destruct (discRespRecvStep_cases me d) as [(pk & dm & Hd & E) | [_ E]];
        rewrite E in He; cbn in He; [| contradiction].
      destruct He as [<- | []]. exists d, pk, dm. auto.
    + intros (d & pk & dm & Hin & Hd & ->). unfold discRespRecvLoop. apply in_flat_map.
      exists d. split; [exact Hin |]. rewrite (disc_deliverable_step me d pk dm Hd).
      left. reflexivity.
  - intros d Hr. destruct (discRespRecvStep_cases me d) as [(pk & dm & (Hl & _) & _) | [_ E]];
      [contradiction | exact E].
  - intros d Hme.
    destruct (discRespRecvStep_cases me d) as [(pk & dm & (_ & Hne & _) & _) | [_ E]];
      [contradiction | exact E].
Qed.

(** ** The other publish tasks *)

Ltac publish_loop_induction wakeups unfold_ok :=
  unfold publishes_in_order;
  induction wakeups as [| w rest (IHord & IHfail & IHall)];
  [ cbn; split; [reflexivity | split];
    [ intros [| ? ?] ? ? [=] | intros _; split; reflexivity ]
  | destruct w as [| a [err |]];
    [ cbn; split; [reflexivity | split];
      [ intros [| ? ?] ? ? [=]
      | let H := fresh in let Ha := fresh in
        intros H; inversion H as [| ? ? [? Ha] _]; discriminate Ha ]
    | cbn; split; [reflexivity | split];
      [ let E := fresh in
        intros tr1 e tr2 E _; destruct tr1 as [| ? [| ? ?]]; cbn in E; try discriminate E;
        injection E as _ <-; split; reflexivity
      | let H := fresh in let Ha := fresh in
        intros H; inversion H as [| ? ? [? Ha] _]; discriminate Ha ]
    | rewrite unfold_ok; cbn [fst snd map length firstn received];
      split; [| split];
      [ f_equal; exact IHord
      | let E := fresh in let Hf := fresh in
        intros tr1 e tr2 E Hf; destruct tr1 as [| e1 tr1]; cbn [app] in E;
        [ injection E as <- _; discriminate Hf
        | injection E as _ E; apply (IHfail tr1 e tr2 E Hf) ]
      | let Hall := fresh in let Hrest := fresh in
        intros Hall; inversion Hall as [| ? ? _ Hrest]; subst;
        destruct (IHall Hrest) as [E1 E2]; split; [| exact E2];
        f_equal; exact E1 ] ] ].

Lemma discReqPublishLoop_cons_ok (a : unit) (rest : list (Selected unit)) :
  discReqPublishLoop (SelRecv a None :: rest) =
    (EvPublish TopicDiscReq [] None :: fst (discReqPublishLoop rest),
     snd (discReqPublishLoop rest)).
Proof. cbn [discReqPublishLoop]. destruct (discReqPublishLoop rest). reflexivity. Qed.

Lemma discRespPublishLoop_cons_ok (a : DiscoveryResponse)
  (rest : list (Selected DiscoveryResponse)) :
  discRespPublishLoop (SelRecv a None :: rest) =
    (EvPublish TopicDiscResp (fst (DiscRes_MarshalBinary a)) None
       :: fst (discRespPublishLoop rest),
     snd (discRespPublishLoop rest)).
Proof. cbn [discRespPublishLoop]. destruct (discRespPublishLoop rest). reflexivity. Qed.

Lemma resetPublishLoop_cons_ok (a : ConsensusReset) (rest : list (Selected ConsensusReset)) :
  resetPublishLoop (SelRecv a None :: rest) =
    (EvPublish TopicReset (ConsensusReset_Bytes a) None :: fst (resetPublishLoop rest),
     snd (resetPublishLoop rest)).
Proof. cbn [resetPublishLoop]. destruct (resetPublishLoop rest). reflexivity. Qed.

Lemma discReqPublishLoop_prefix (xs : list unit) (rest : list (Selected unit)) :
  discReqPublishLoop (map (fun a => SelRecv a None) xs ++ rest) =
    (map (fun _ => EvPublish TopicDiscReq [] None) xs ++ fst (discReqPublishLoop rest),
     snd (discReqPublishLoop rest)).
Proof.
  induction xs as [| x xs IH]; [cbn [map app]; destruct (discReqPublishLoop rest); reflexivity |].
  cbn [map app]. rewrite discReqPublishLoop_cons_ok, IH. reflexivity.
Qed.

Lemma discRespPublishLoop_prefix (xs : list DiscoveryResponse)
  (rest : list (Selected DiscoveryResponse)) :
  discRespPublishLoop (map (fun a => SelRecv a None) xs ++ rest) =
    (map (fun m => EvPublish TopicDiscResp (fst (DiscRes_MarshalBinary m)) None) xs
       ++ fst (discRespPublishLoop rest),
     snd (discRespPublishLoop rest)).
Proof.
  induction xs as [| x xs IH]; [cbn [map app]; destruct (discRespPublishLoop rest); reflexivity |].
  cbn [map app]. rewrite discRespPublishLoop_cons_ok, IH. reflexivity.
Qed.

Lemma resetPublishLoop_prefix (xs : list ConsensusReset)
  (rest : list (Selected ConsensusReset)) :
  resetPublishLoop (map (fun a => SelRecv a None) xs ++ rest) =
    (map (fun r => EvPublish TopicReset (ConsensusReset_Bytes r) None) xs
       ++ fst (resetPublishLoop rest),
     snd (resetPublishLoop rest)).
Proof.
  induction xs as [| x xs IH]; [cbn [map app]; destruct (resetPublishLoop rest); reflexivity |].
  cbn [map app]. rewrite resetPublishLoop_cons_ok, IH. reflexivity.
Qed.

(** X10: the publish tasks of the discovery request, discovery response
    and consensus reset topics publish, in channel order, an empty
    payload per request, the marshaled response, and the bytes of the
    reset.  Each publishes every value received before its first failed
    publish or done context, tries the value whose publish fails and
    exits, publishes nothing once the context is done and exits, and
    otherwise waits for the next value. *)
Theorem publish_tasks_in_order :
  (forall wakeups,
     runs_until_stop (fun _ err => EvPublish TopicDiscReq [] err)
       wakeups (discReqPublishLoop wakeups) /\
     publishes_in_order (fun _ : unit => Some (TopicDiscReq, []))
       wakeups (discReqPublishLoop wakeups)) /\
  (forall wakeups,
     runs_until_stop
       (fun m err => EvPublish TopicDiscResp (fst (DiscRes_MarshalBinary m)) err)
       wakeups (discRespPublishLoop wakeups) /\
     publishes_in_order (fun m => Some (TopicDiscResp, fst (DiscRes_MarshalBinary m)))
       wakeups (discRespPublishLoop wakeups)) /\
  (forall wakeups,
     runs_until_stop (fun r err => EvPublish TopicReset (ConsensusReset_Bytes r) err)
       wakeups (resetPublishLoop wakeups) /\
     publishes_in_order (fun r => Some (TopicReset, ConsensusReset_Bytes r))
       wakeups (resetPublishLoop wakeups)).
Proof.
  split; [| split]; intros wakeups; split.
  - runs_until_stop_by discReqPublishLoop_prefix.
  - publish_loop_induction wakeups discReqPublishLoop_cons_ok.
  - runs_until_stop_by discRespPublishLoop_prefix.
  - publish_loop_induction wakeups discRespPublishLoop_cons_ok.
  - runs_until_stop_by resetPublishLoop_prefix.
  - publish_loop_induction wakeups resetPublishLoop_cons_ok.
Qed.

(** ** From the sender's channel to the receiver's engine *)



Lemma resetPublishLoop_all_ok (rs : list ConsensusReset) :
  resetPublishLoop (map (fun r => SelRecv r None) rs) =
    (map (fun r => EvPublish TopicReset (ConsensusReset_Bytes r) None) rs, Waiting).
Proof.
  induction rs as [| r rs IH]; [reflexivity |].
  cbn [map]. rewrite resetPublishLoop_cons_ok, IH. reflexivity.
Qed.

Lemma deliveries_of_published {A : Type} (from : bytes) (role : Role) (best : Z)
  (t : Topic) (enc : A -> bytes) (xs : list A) :
  deliveries_of from role best t (map (fun x => EvPublish t (enc x) None) xs) =
    map (fun x => mkDelivery (mkMessage from (enc x) from) role best) xs.
Proof.
  unfold deliveries_of. induction xs as [| x xs IH]; [reflexivity |].
  cbn [map flat_map]. rewrite IH. destruct t; reflexivity.
Qed.

Lemma flat_map_singleton {A B : Type} (f : A -> list B) (g : A -> B) (xs : list A) :
  (forall x, In x xs -> f x = [g x]) -> flat_map f xs = map g xs.
Proof.
  induction xs as [| x xs IH]; intros H; [reflexivity |].
  cbn [flat_map map]. rewrite (H x) by (left; reflexivity).
  cbn [app]. f_equal. apply IH. intros y Hy. apply H. right. exact Hy.
Qed.




(** X13: resets end to end.  When the resets a node B hands to [sendReset]
    are all published and reach a node A, whose codec decodes what B's
    encodes and for whom B's key can be derived, A's engine is notified of
    each reset once, in the order of the calls, with the height and ids of
    the call and B's key, whatever A's role. *)
Theorem reset_gossip_end_to_end (A B pk : bytes) (role : Role) (best : Z)
  (calls : list (Z * list bytes)) :
  B <> A ->
  PubKeyFromPeerID B = Some pk ->
  (forall r, In r (sent_resets calls) ->
     ConsensusReset_UnmarshalBinary (ConsensusReset_Bytes r) = Some r) ->
  resetRecvLoop A
    (deliveries_of B role best TopicReset
       (fst (resetPublishLoop (map (fun r => SelRecv r None) (sent_resets calls)))))
    = map (fun c => EvCall (NotifyResetState (fst c) (snd c) pk)) calls.
Proof.
  intros Hne Hpk Hcodec.
  rewrite resetPublishLoop_all_ok. cbn [fst].
  rewrite (deliveries_of_published B role best TopicReset ConsensusReset_Bytes).
  unfold resetRecvLoop, sent_resets in *. rewrite !map_map.
  rewrite flat_map_concat_map, map_map, <- flat_map_concat_map.
  apply flat_map_singleton. intros [h ids] Hin. cbn [fst snd sendReset].
  pose proof (Hcodec _ (in_map (fun '(height, txIDs) => fst (sendReset height txIDs))
                          _ _ Hin)) as Hc.
  cbn [fst sendReset] in Hc.
  destruct (resetRecvStep_cases A
              (mkDelivery
                 (mkMessage B (ConsensusReset_Bytes (mkConsensusReset h ids)) B) role best))
    as [(pk' & r' & (_ & Hd & Hp) & E) | [Hn _]].
  - cbn [d_msg From Data] in Hd, Hp. rewrite Hc in Hd. rewrite Hpk in Hp.
    injection Hd as <-. injection Hp as <-. exact E.
  - exfalso. apply (Hn pk (mkConsensusReset h ids)).
    unfold reset_deliverable. cbn [d_msg From Data]. auto.
Qed.

(** ** Votable events *)

Lemma list_byte_of_string_app (s t : String.string) :
  String.list_byte_of_string (String.append s t) =
    String.list_byte_of_string s ++ String.list_byte_of_string t.
Proof.
  induction s as [| c s IH]; [reflexivity |].
  cbn [String.append]. unfold String.list_byte_of_string in *.
  cbn [String.list_ascii_of_string map app]. rewrite IH. reflexivity.
Qed.

(** X23: the id of a votable event depends on the bytes of the type
    followed by the body, not on where the type ends: moving the end of
    the type to the front of the body gives the same id, so that different
    events share an id, whatever the UUID function. *)
Theorem VotableEventID_boundary (ty suffix : String.string) (body : bytes) :
  VotableEventID (String.append ty suffix) body =
    VotableEventID ty (String.list_byte_of_string suffix ++ body) /\
  VotableEvent_ID (mkVotableEvent (String.append ty suffix) body) =
    VotableEvent_ID (mkVotableEvent ty (String.list_byte_of_string suffix ++ body)) /\
  (suffix <> String.EmptyString ->
   mkVotableEvent (String.append ty suffix) body <>
   mkVotableEvent ty (String.list_byte_of_string suffix ++ body)).
Proof.
  assert (E : VotableEventID (String.append ty suffix) body =
              VotableEventID ty (String.list_byte_of_string suffix ++ body)).
  { unfold VotableEventID. rewrite list_byte_of_string_app, <- app_assoc. reflexivity. }
  split; [exact E |]. split; [exact E |].
  intros Hne Heq. apply (f_equal ve_Body) in Heq. cbn [ve_Body] in Heq.
  apply (f_equal (@length _)) in Heq. rewrite length_app in Heq.
  destruct suffix as [| c suffix]; [apply Hne; reflexivity |].
  cbn in Heq. lia.
Qed.

Lemma binary_Read_uint16_be_app (b0 b1 : Init.Byte.byte) (rest : bytes) :
  binary_Read_uint16_be (NewReader (b0 :: b1 :: rest)) =
    (Ok (256 * byte.unsigned b0 + byte.unsigned b1), NewReader rest).
Proof.
  unfold binary_Read_uint16_be, io_ReadFull, NewReader.
  cbn [pending at_end length Nat.leb firstn skipn rev app le_combine].
  f_equal. f_equal.
  pose proof (byte.unsigned_range b0). pose proof (byte.unsigned_range b1).
  change (le_combine [b1; b0])
    with (Z.lor (byte.unsigned b1) (Z.shiftl (Z.lor (byte.unsigned b0) (Z.shiftl 0 8)) 8)).
  rewrite Z.shiftl_0_l, Z.lor_0_r.
  pose proof (Z.add_lor_land (byte.unsigned b1) (Z.shiftl (byte.unsigned b0) 8)) as Hadd.
  assert (Hland : Z.land (byte.unsigned b1) (Z.shiftl (byte.unsigned b0) 8) = 0).
  { apply Z.bits_inj'. intros n Hn. rewrite Z.land_spec, Z.bits_0.
    destruct (Z.ltb_spec n 8).
    - rewrite Z.shiftl_spec_low by lia. apply andb_false_r.
    - rewrite (Z.bits_above_log2 (byte.unsigned b1) n); [reflexivity | lia |].
      destruct (Z.eq_dec (byte.unsigned b1) 0) as [-> | Hnz]; [cbn; lia |].
      apply Z.log2_lt_pow2; [lia |].
      apply Z.lt_le_trans with (2 ^ 8); [lia | apply Z.pow_le_mono_r; lia]. }
  rewrite Z.shiftl_mul_pow2 in * by lia. lia.
Qed.

(** X24: a votable event round trip.  When the string and byte helpers
    read back what they wrote for the type and the body of an event, with
    any bytes [extra] after them, [UnmarshalBinary] of the marshaled event
    followed by [extra] succeeds and yields the event whatever the
    receiver held: the bytes after the body are not looked at. *)
Theorem VotableEvent_roundtrip (e recv : VotableEvent) (extra left : bytes) :
  ReadString (WriteString (ve_Type e) ++ WriteBytes (ve_Body e) ++ extra) =
    Ok (ve_Type e, WriteBytes (ve_Body e) ++ extra) ->
  ReadBytes (WriteBytes (ve_Body e) ++ extra) = Ok (ve_Body e, left) ->
  snd (VotableEvent_MarshalBinary e) = None /\
  VotableEvent_UnmarshalBinary recv (fst (VotableEvent_MarshalBinary e) ++ extra) =
    (None, e).
Proof.
  intros HS HB. split; [reflexivity |].
  unfold VotableEvent_MarshalBinary, VotableEvent_UnmarshalBinary.
  cbv zeta. cbn [fst app].
  change (binary_Write_uint16_be veVersion) with [Byte.x00; Byte.x00].
  rewrite <- !app_assoc. cbn [app].
  rewrite binary_Read_uint16_be_app.
  change (256 * byte.unsigned Byte.x00 + byte.unsigned Byte.x00 =? veVersion) with true.
  cbn [negb NewReader pending]. rewrite HS, HB. destruct e; reflexivity.
Qed.

(** X25: the version check of [VotableEvent.UnmarshalBinary].  An input
    of fewer than two bytes gives [io.EOF] if it is empty and
    [io.ErrUnexpectedEOF] otherwise; an input whose first two bytes are
    not both zero is rejected with their big-endian value as the invalid
    version, before any helper reads; the bytes [MarshalBinary] produces
    begin with two zero bytes; and on every error the receiver holds what
    it held. *)
Theorem VotableEvent_version_check (recv : VotableEvent) :
  VotableEvent_UnmarshalBinary recv [] = (Some (VeRead EOF), recv) /\
  (forall b0, VotableEvent_UnmarshalBinary recv [b0] =
     (Some (VeRead ErrUnexpectedEOF), recv)) /\
  (forall b0 b1 rest,
     (b0, b1) <> (Byte.x00, Byte.x00) ->
     VotableEvent_UnmarshalBinary recv (b0 :: b1 :: rest) =
       (Some (VeInvalidVersion (256 * byte.unsigned b0 + byte.unsigned b1)), recv)) /\
  (forall e, firstn 2 (fst (VotableEvent_MarshalBinary e)) = [Byte.x00; Byte.x00]) /\
  (forall b err e', VotableEvent_UnmarshalBinary recv b = (Some err, e') -> e' = recv).
Proof.
  split; [reflexivity |]. split; [intros b0; reflexivity |].
  split; [| split].
  - intros b0 b1 rest Hne. unfold VotableEvent_UnmarshalBinary. cbv zeta.
    rewrite binary_Read_uint16_be_app.
    destruct (Z.eqb_spec (256 * byte.unsigned b0 + byte.unsigned b1) veVersion) as [E | _];
      [| reflexivity].
    exfalso. apply Hne. unfold veVersion in E.
    pose proof (byte.unsigned_range b0). pose proof (byte.unsigned_range b1).
    assert (E0 : byte.unsigned b0 = 0) by lia.
    assert (E1 : byte.unsigned b1 = 0) by lia.
    f_equal; apply byte.unsigned_inj; [rewrite E0 | rewrite E1]; reflexivity.
  - intros e. reflexivity.
  - intros b err e'. unfold VotableEvent_UnmarshalBinary. cbv zeta.
    destruct (binary_Read_uint16_be (NewReader b)) as [[version | err0] buf].
    + destruct (negb (version =? veVersion)); [intros H; injection H as _ <-; reflexivity |].
      destruct (ReadString (pending buf)) as [[eType rest] | err1];
        [| intros H; injection H as _ <-; reflexivity].
      destruct (ReadBytes rest) as [[eBody rest'] | err2];
        [intros H; discriminate H | intros H; injection H as _ <-; reflexivity].
    + intros H. injection H as _ <-. reflexivity.
Qed.

End Node.

(** * Concrete instances *)

(** ** Examples and counterexamples *)

Lemma wf_sample_prop : wf_blockProp sample_prop.
Proof.
  unfold wf_blockProp, Int64.in_range, Int64.min_int, Int64.max_int.
  cbn. repeat split; lia.
Qed.

Lemma wf_zero_blockProp : wf_blockProp zero_blockProp.
Proof.
  unfold wf_blockProp, Int64.in_range, Int64.min_int, Int64.max_int.
  cbn. repeat split; lia.
Qed.

Lemma wf_long_sig_prop : wf_blockProp long_sig_prop.
Proof.
  unfold wf_blockProp, Int64.in_range, Int64.min_int, Int64.max_int.
  cbn. repeat split; lia.
Qed.

Lemma blockProp_roundtrip_witness :
  wf_blockProp sample_prop /\
  (length (LeaderSig sample_prop) <= 1000)%nat /\
  UnmarshalBinary zero_blockProp (fst (MarshalBinary sample_prop)) = Done (None, sample_prop).
Proof.
  split; [exact wf_sample_prop |]. split; [cbn; lia |].
  apply (blockProp_roundtrip sample_prop zero_blockProp);
    [exact wf_sample_prop | exact wf_zero_blockProp | cbn; lia].
Defined.

(** C2, as stated, fails on a signature of more than 1000 bytes: the value
    is well formed and marshals, but its bytes do not decode. *)
Lemma blockProp_roundtrip_long_sig :
  wf_blockProp long_sig_prop /\
  snd (MarshalBinary long_sig_prop) = None /\
  (exists bp, UnmarshalBinary zero_blockProp (fst (MarshalBinary long_sig_prop))
              = Done (Some ErrInvalidSigLen, bp)) /\
  UnmarshalBinary zero_blockProp (fst (MarshalBinary long_sig_prop))
    <> Done (None, long_sig_prop).
Proof.
  split; [exact wf_long_sig_prop |]. split; [reflexivity |]. split.
  - eexists. vm_compute. reflexivity.
  - vm_compute. intros H. discriminate H.
Qed.

Lemma ReadFrom_rejects_long_sig_witness :
  (88 <= length (header_with_sigLen 1001))%nat /\
  1000 < sigLen_field (header_with_sigLen 1001) /\
  exists bp',
    ReadFrom zero_blockProp (NewReader (header_with_sigLen 1001)) =
      Done (mkRes 88 (Some ErrInvalidSigLen) bp'
              (mkReader [Byte.x01; Byte.x02] EOF)) /\
    LeaderSig bp' = [].
Proof.
  split; [vm_compute; lia |]. split; [vm_compute; reflexivity |].
  destruct (ReadFrom_rejects_long_sig zero_blockProp (NewReader (header_with_sigLen 1001)))
    as (bp' & HR & HS & _); [vm_compute; lia | vm_compute; reflexivity |].
  exists bp'. split; [exact HR | exact HS].
Defined.

Lemma ReadFrom_panics_on_negative_sigLen_witness :
  (88 <= length (header_with_sigLen (-1)))%nat /\
  sigLen_field (header_with_sigLen (-1)) < 0 /\
  UnmarshalBinary zero_blockProp (header_with_sigLen (-1)) = Panic.
Proof.
  split; [vm_compute; lia |]. split; [vm_compute; reflexivity |].
  destruct (ReadFrom_panics_on_negative_sigLen zero_blockProp
              (NewReader (header_with_sigLen (-1))))
    as (_ & _ & HU); [vm_compute; lia | vm_compute; reflexivity |].
  apply HU. reflexivity.
Defined.

(** C1, as stated, fails when the write of [getMsg] fails: the listed
    conditions all hold of the stream, and the engine is not notified. *)
Lemma blkPropStreamHandler_write_error :
  proposal_matches toyBlock toyDecodeBlock fst snd acceptAll
    write_error_stream announced_block /\
  ~ In (EvCall toyBlock (NotifyBlockProposal toyBlock announced_block))
       (fst (blkPropStreamHandler toyBlock toyDecodeBlock fst snd toyGetMsg acceptAll
               write_error_stream)).
Proof.
  split.
  - exists (mkRes 88 None (mkBlockProp 1 (le_split 32 7) (le_split 32 9) 0 [])
              (mkReader (le_split 8 1 ++ le_split 32 7) EOF)),
      (le_split 8 1 ++ le_split 32 7).
    repeat split; vm_compute; reflexivity.
  - vm_compute. intros [H | [H | [H | []]]]; discriminate H.
Qed.

Lemma toyHashBytes_length (b : bytes) : length (toyHashBytes b) = HashLen.
Proof.
  unfold toyHashBytes, HashLen. rewrite length_firstn, length_app, length_make. lia.
Qed.

Lemma CalcMerkleRoot_reference_witness :
  (forall b, length (toyHashBytes b) = HashLen) /\
  CalcMerkleRoot toyHashBytes [] = ZeroHash /\
  CalcMerkleRoot toyHashBytes [le_split 32 1] = le_split 32 1 /\
  CalcMerkleRoot toyHashBytes [le_split 32 1; le_split 32 2; le_split 32 3] =
    toyHashBytes (toyHashBytes (le_split 32 1 ++ le_split 32 2) ++
                  toyHashBytes (le_split 32 3 ++ le_split 32 3)).
Proof.
  split; [exact toyHashBytes_length |].
  destruct (CalcMerkleRoot_reference toyHashBytes toyHashBytes_length)
    as (H0 & H1 & H2 & H3 & H4 & _).
  split; [exact H0 |]. split; [apply H1 |].
  rewrite H2, H3, H4, H2, H3. apply H1.
Defined.

Lemma toyVerify_Sign (k msg : bytes) :
  toyVerify (toyKeyType k) (toyPublic k) msg (toySign k msg) = true.
Proof. apply bytes_eqb_refl. Qed.

Lemma SignVote_positive_vote_witness :
  (forall k msg, toyVerify (toyKeyType k) (toyPublic k) msg (toySign k msg) = true) /\
  SignVote bytes toySign toyPublic toyKeyType toyVoteBytes
    [Byte.x0a] true None (Some [Byte.x01]) = Err ErrAppHashRequired /\
  exists sig,
    SignVote bytes toySign toyPublic toyKeyType toyVoteBytes
      [Byte.x0a] true (Some [Byte.x0b]) (Some [Byte.x01]) = Ok sig /\
    VoteInfo_Verify toyVerify toyVoteBytes (mkVoteInfo sig AckStatusAgree None)
      [Byte.x0a] [Byte.x0b] = None.
Proof.
  split; [exact toyVerify_Sign |]. split; [reflexivity |].
  destruct (SignVote_positive_vote bytes toySign toyPublic toyKeyType toyVerify
              toyVerify_Sign toyVoteBytes) as [_ H].
  destruct (H [Byte.x0a] [Byte.x0b] [Byte.x01]) as (sig & Hs & _ & Hv).
  exists sig. split; [exact Hs | exact Hv].
Defined.

(** The case "SignVote with nil key" of [TestSignAndVerifyVote]: without
    a signing key, a positive vote that carries an app hash is not
    signed. *)
Lemma SignVote_nil_key :
  SignVote bytes toySign toyPublic toyKeyType toyVoteBytes
    [Byte.x0a] true (Some [Byte.x0b]) None = Err ErrNilKey.
Proof. reflexivity. Qed.

(** ** The node on sample traffic *)

(** A leader receives a valid ACK of peer B, its own ACK and a payload
    that does not decode: one asynchronous delivery, with B's key. *)
Example ackRecvLoop_leader :
  ackRecvLoop toyBlock toyAckUnmarshal toyPubKeyFromPeerID peerA
    [mkDelivery (mkMessage peerB [Byte.x01] peerB) RoleLeader 0;
     mkDelivery (mkMessage peerA [Byte.x01] peerB) RoleLeader 0;
     mkDelivery (mkMessage peerB [Byte.x02] peerB) RoleLeader 0]
  = [EvGo toyBlock (NotifyACK toyBlock (Byte.xff :: peerB) (toyAck true))].
Proof. reflexivity. Qed.

(** A validator drops the same ACK. *)
Example ackRecvLoop_follower :
  ackRecvLoop toyBlock toyAckUnmarshal toyPubKeyFromPeerID peerA
    [mkDelivery (mkMessage peerB [Byte.x01] peerB) RoleValidator 0] = [].
Proof. reflexivity. Qed.

(** A validator acts on a reset of peer B, in the receive loop itself. *)
Example resetRecvLoop_validator :
  resetRecvLoop toyBlock toyResetUnmarshal toyPubKeyFromPeerID peerA
    [mkDelivery (mkMessage peerB [Byte.x05] peerB) RoleValidator 0;
     mkDelivery (mkMessage peerA [Byte.x05] peerB) RoleValidator 0]
  = [EvCall toyBlock (NotifyResetState toyBlock 5 [] (Byte.xff :: peerB))].
Proof. reflexivity. Qed.

(** A sentry answers a discovery request of peer B with its best height. *)
Example discReqRecvLoop_sentry :
  discReqRecvLoop toyBlock peerA
    [mkDelivery (mkMessage peerB [] peerB) RoleSentry 42;
     mkDelivery (mkMessage peerA [] peerA) RoleSentry 43]
  = [EvSendDiscResp toyBlock (mkDiscoveryResponse 42)].
Proof. reflexivity. Qed.

(** The second publish fails: the third value is never published. *)
Example ackPublishLoop_stops :
  ackPublishLoop toyBlock toyAckMarshal
    [SelRecv (toyAck true) None;
     SelRecv (toyAck false) (Some ErrTransport);
     SelRecv (toyAck true) None]
  = ([EvPublish toyBlock TopicACKs [Byte.x01] None;
      EvPublish toyBlock TopicACKs [Byte.x00] (Some ErrTransport)], Exited).
Proof. reflexivity. Qed.

(** The stream of [write_error_stream] with a working write: the block is
    requested, checked and handed to the engine. *)
Example blkPropStreamHandler_delivers :
  blkPropStreamHandler toyBlock toyDecodeBlock fst snd toyGetMsg acceptAll
    (mkStream (s_in write_error_stream) None)
  = ([EvAcceptProposal toyBlock 1 (le_split 32 7) (le_split 32 9) [] 0 true;
      EvWrite toyBlock toyGetMsg None;
      EvCall toyBlock (NotifyBlockProposal toyBlock announced_block);
      EvClose toyBlock], Returned).
Proof. vm_compute. reflexivity. Qed.

(** An announcement with a negative [sigLen]: the handler panics, the
    deferred close still runs. *)
Example blkPropStreamHandler_panics :
  blkPropStreamHandler toyBlock toyDecodeBlock fst snd toyGetMsg acceptAll
    (mkStream (NewReader (header_with_sigLen (-1))) None)
  = ([EvClose toyBlock], Panicked).
Proof. vm_compute. reflexivity. Qed.

(** * Properties of the chain metadata store *)

(** ** The chain state *)

Lemma SetChainState_cases (f : Faults) (db : Store) (h : Z) (a : bytes) :
  (exists e, SetChainState f db h a = (Some e, db)) \/
  SetChainState f db h a =
    (None,
     mkStore (match chain_rows db with
              | [] => [(SqlInt h, SqlBytes a)]
              | _ :: _ => map (fun _ => (SqlInt h, SqlBytes a)) (chain_rows db)
              end)
       (param_rows db)).
Proof.
  unfold SetChainState, Execute.
  destruct (begin_fails f); [left; eexists; reflexivity |].
  destruct (exec_fails f 0); [left; eexists; reflexivity |].
  cbn [run RowsAffected].
  destruct (chain_rows db) as [| r rows] eqn:Hrows.
  - cbn [length map Z.of_nat Z.eqb].
    destruct (exec_fails f 1); [left; eexists; reflexivity |].
    cbn [run chain_rows param_rows app].
    destruct (commit_fails f); [left; eexists; reflexivity |].
    right. reflexivity.
  - replace (Z.of_nat (length (r :: rows)) =? 0) with false
      by (symmetry; apply Z.eqb_neq; cbn [length]; lia).
    destruct (commit_fails f); [left; eexists; reflexivity |].
    right. reflexivity.
Qed.

(** X14: [SetChainState] is all or nothing.  It returns an error and
    leaves both tables as they were, or it returns nil, every row of the
    chain table then holds the given height and app hash, a row having
    been inserted only into an empty table, and the parameters table is
    untouched. *)
Theorem SetChainState_atomic (f : Faults) (db : Store) (h : Z) (a : bytes) :
  (exists e, SetChainState f db h a = (Some e, db)) \/
  (exists db',
     SetChainState f db h a = (None, db') /\
     Forall (fun r => r = (SqlInt h, SqlBytes a)) (chain_rows db') /\
     length (chain_rows db') = Nat.max 1 (length (chain_rows db)) /\
     param_rows db' = param_rows db).
Proof.
  destruct (SetChainState_cases f db h a) as [H | H]; [left; exact H |].
  right. eexists. split; [exact H |]. cbn [chain_rows param_rows].
  destruct (chain_rows db) as [| r rows].
  - repeat split. repeat constructor.
  - split; [| split; [| reflexivity]].
    + apply Forall_forall. intros x Hx. apply in_map_iff in Hx.
      destruct Hx as (y & <- & _). reflexivity.
    + rewrite length_map. cbn [length]. lia.
Qed.

Lemma GetChainState_one (h : Z) (a : bytes) (params : list (String.string * bytes)) :
  GetChainState no_faults (mkStore [(SqlInt h, SqlBytes a)] params) = (h, a, None).
Proof. reflexivity. Qed.

(** X15: starting from empty tables, after any history of
    [SetChainState] calls, failed ones included, [GetChainState] returns
    the height and app hash of the last call that returned no error, and
    height -1 with no app hash if there was none. *)
Theorem GetChainState_after_sets (calls : list SetCall) :
  GetChainState no_faults (run_sets calls fresh_store) =
    match last_set calls fresh_store None with
    | None => (-1, [], None)
    | Some (h, a) => (h, a, None)
    end.
Proof.
  enough (H : forall db prev,
            chain_rows db = match prev with
                            | None => []
                            | Some (h, a) => [(SqlInt h, SqlBytes a)]
                            end ->
            GetChainState no_faults (run_sets calls db) =
              match last_set calls db prev with
              | None => (-1, [], None)
              | Some (h, a) => (h, a, None)
              end)
    by (apply (H fresh_store None); reflexivity).
  induction calls as [| [[f h] a] calls IH]; intros db prev Hinv.
  - cbn [run_sets last_set]. destruct db as [rows params]. cbn [chain_rows] in Hinv.
    subst rows. destruct prev as [[h a] |]; reflexivity.
  - cbn [run_sets last_set].
    destruct (SetChainState_cases f db h a) as [[e H] | H]; rewrite H; cbn [snd].
    + apply IH. exact Hinv.
    + apply IH. cbn [chain_rows]. rewrite Hinv.
      destruct prev as [[h' a'] |]; reflexivity.
Qed.

(** X16: [GetChainState] reports a database error as it is; on a chain
    table with several rows it fails, and [SetChainState], which updates
    every row, does not repair such a table; and it fails on a row whose
    app hash is NULL. *)
Theorem GetChainState_errors :
  (forall f db e, exec_fails f 0 = Some e ->
     GetChainState f db = (0, [], Some (DbErr e))) /\
  (forall db, (2 <= length (chain_rows db))%nat ->
     GetChainState no_faults db = (0, [], Some (ErrTooManyRows (length (chain_rows db))))) /\
  (forall db h a, (2 <= length (chain_rows db))%nat ->
     exists db', SetChainState no_faults db h a = (None, db') /\
       GetChainState no_faults db' =
         (0, [], Some (ErrTooManyRows (length (chain_rows db))))) /\
  (forall h params,
     GetChainState no_faults (mkStore [(SqlInt h, SqlNull)] params) =
       (0, [], Some ErrAppHashType)).
Proof.
  assert (Hmany : forall db, (2 <= length (chain_rows db))%nat ->
     GetChainState no_faults db = (0, [], Some (ErrTooManyRows (length (chain_rows db))))).
  { intros [rows params] Hlen. unfold GetChainState, Execute. cbn [exec_fails no_faults run fst Rows chain_rows] in *.
    rewrite length_map. destruct rows as [| r1 [| r2 rows]]; cbn [length] in *; try lia.
    reflexivity. }
  split; [| split; [exact Hmany | split]].
  - intros f db e He. unfold GetChainState, Execute. rewrite He. reflexivity.
  - intros db h a Hlen.
    destruct (SetChainState_cases no_faults db h a) as [[e H] | H].
    + unfold SetChainState, Execute in H. cbn [begin_fails exec_fails commit_fails no_faults run RowsAffected] in H.
      destruct (Z.of_nat (length (chain_rows db)) =? 0); discriminate H.
    + eexists. split; [exact H |]. rewrite Hmany; cbn [chain_rows].
      * destruct (chain_rows db) as [| r rows]; [cbn in Hlen; lia |].
        rewrite length_map. reflexivity.
      * destruct (chain_rows db) as [| r rows]; [cbn in Hlen; lia |].
        rewrite length_map. exact Hlen.
  - reflexivity.
Qed.

(** ** The consensus parameters *)

Ltac key_eqb :=
  repeat match goal with
         | |- context [String.eqb ?a ?b] =>
             let r := eval vm_compute in (String.eqb a b) in
             change (String.eqb a b) with r
         end.

Lemma lookup_param_notin (k : String.string) (rows : list (String.string * bytes)) :
  ~ In k (map fst rows) -> lookup_param k rows = None.
Proof.
  induction rows as [| [k' v] rows IH]; intros Hn; [reflexivity |].
  cbn [lookup_param]. destruct (String.eqb_spec k k') as [-> | Hne].
  - exfalso. apply Hn. left. reflexivity.
  - apply IH. intros Hin. apply Hn. right. exact Hin.
Qed.

Lemma lookup_param_in (k : String.string) (v : bytes) (rows : list (String.string * bytes)) :
  NoDup (map fst rows) -> In (k, v) rows -> lookup_param k rows = Some v.
Proof.
  induction rows as [| [k' v'] rows IH]; intros Hnd Hin; [destruct Hin |].
  cbn [map fst] in Hnd. inversion Hnd as [| ? ? Hnotin Hnd']. subst.
  cbn [lookup_param]. destruct Hin as [E | Hin].
  - injection E as -> ->. rewrite String.eqb_refl. reflexivity.
  - destruct (String.eqb_spec k k') as [-> | Hne].
    + exfalso. apply Hnotin. apply in_map_iff. exists (k', v). auto.
    + apply IH; assumption.
Qed.

Lemma lookup_param_some (k : String.string) (v : bytes) (rows : list (String.string * bytes)) :
  lookup_param k rows = Some v -> In (k, v) rows.
Proof.
  induction rows as [| [k' v'] rows IH]; intros H; [discriminate H |].
  cbn [lookup_param] in H. destruct (String.eqb_spec k k') as [-> | Hne].
  - injection H as ->. left. reflexivity.
  - right. apply IH. exact H.
Qed.

Lemma lookup_upsert_same (k : String.string) (v : bytes) (rows : list (String.string * bytes)) :
  lookup_param k (upsert k v rows) = Some v.
Proof.
  induction rows as [| [k' v'] rows IH]; cbn [upsert lookup_param].
  - rewrite String.eqb_refl. reflexivity.
  - destruct (String.eqb_spec k k') as [-> | Hne]; cbn [lookup_param].
    + rewrite String.eqb_refl. reflexivity.
    + destruct (String.eqb_spec k k'); [contradiction | exact IH].
Qed.

Lemma lookup_upsert_other (k k' : String.string) (v : bytes)
  (rows : list (String.string * bytes)) :
  k' <> k -> lookup_param k' (upsert k v rows) = lookup_param k' rows.
Proof.
  intros Hne. induction rows as [| [k0 v0] rows IH]; cbn [upsert lookup_param].
  - destruct (String.eqb_spec k' k); [contradiction | reflexivity].
  - destruct (String.eqb_spec k k0) as [-> | Hk]; cbn [lookup_param].
    + destruct (String.eqb_spec k' k0); [contradiction | reflexivity].
    + rewrite IH. reflexivity.
Qed.

Lemma keys_upsert (k k' : String.string) (v : bytes) (rows : list (String.string * bytes)) :
  In k' (map fst (upsert k v rows)) <-> k' = k \/ In k' (map fst rows).
Proof.
  induction rows as [| [k0 v0] rows IH]; cbn [upsert map fst In].
  - split; intros [H | H]; auto.
  - destruct (String.eqb_spec k k0) as [-> | Hk]; cbn [map fst In].
    + split; intros H; [destruct H as [H | H]; auto | destruct H as [H | [H | H]]; auto].
    + rewrite IH. split; intros H.
      * destruct H as [H | [H | H]]; auto.
      * destruct H as [H | [H | H]]; auto.
Qed.

Lemma wf_upsert (k : String.string) (v : bytes) (rows : list (String.string * bytes)) :
  In k param_keys -> wf_param_rows rows -> wf_param_rows (upsert k v rows).
Proof.
  intros Hk [Hnd Hincl]. split.
  - clear Hincl. induction rows as [| [k0 v0] rows IH]; cbn [upsert].
    + cbn. constructor; [intros [] | constructor].
    + cbn [map fst] in Hnd. inversion Hnd as [| ? ? Hnotin Hnd']. subst.
      destruct (String.eqb_spec k k0) as [-> | Hne]; cbn [map fst].
      * constructor; assumption.
      * constructor; [| apply IH; exact Hnd'].
        intros Hin. apply keys_upsert in Hin. destruct Hin as [-> | Hin]; auto.
  - intros k' Hin. apply keys_upsert in Hin. destruct Hin as [-> | Hin]; auto.
Qed.

Lemma PutUint64_overwrite (buf : bytes) (v : Z) :
  length buf = 8%nat -> PutUint64 buf 0 v = le_split 8 v.
Proof.
  intros H. unfold PutUint64. rewrite <- (app_nil_r buf).
  rewrite copy_at_head by (rewrite length_le_split; exact H). apply app_nil_r.
Qed.

Lemma param_keys_NoDup : NoDup param_keys.
Proof.
  unfold param_keys. repeat constructor; cbn [In]; intros H;
    repeat (destruct H as [H | H]; [discriminate H |]); exact H.
Qed.

Lemma wf_param_rows_full (rows : list (String.string * bytes)) :
  wf_param_rows rows ->
  (forall k, In k param_keys -> lookup_param k rows <> None) ->
  length rows = 4%nat.
Proof.
  intros [Hnd Hincl] Hall. rewrite <- (length_map fst rows).
  apply Nat.le_antisymm.
  - apply (NoDup_incl_length Hnd Hincl).
  - change 4%nat with (length param_keys).
    apply (NoDup_incl_length param_keys_NoDup).
    intros k Hk. specialize (Hall k Hk).
    destruct (lookup_param k rows) as [v |] eqn:E; [| contradiction].
    apply lookup_param_some in E. apply in_map_iff. exists (k, v). auto.
Qed.

(** The loop of [LoadParams] over readable rows with distinct names: each
    field is decoded from the row of its name, or left as it was. *)
Lemma load_rows_readable (rows : list (String.string * bytes)) :
  forall acc,
  NoDup (map fst rows) -> Forall row_readable rows ->
  load_rows (map (fun r => [SqlText (fst r); SqlBytes (snd r)]) rows) acc =
    Done (LoadedParams
      (mkParams
         (match lookup_param maxBlockSizeKey rows with
          | Some v => Int64.of_uint64 (Uint64 (firstn 8 v)) | None => MaxBlockSize acc end)
         (match lookup_param joinExpiryKey rows with
          | Some v => Int64.of_uint64 (Uint64 (firstn 8 v)) | None => JoinExpiry acc end)
         (match lookup_param voteExpiryKey rows with
          | Some v => Int64.of_uint64 (Uint64 (firstn 8 v)) | None => VoteExpiry acc end)
         (match lookup_param disabledGasKey rows with
          | Some (b :: _) => Byte.eqb b Byte.x01
          | Some [] => false
          | None => DisabledGasCosts acc end))).
Proof.
  induction rows as [| [k v] rows IH]; intros acc Hnd Hok.
  - destruct acc; reflexivity.
  - cbn [map fst] in Hnd. inversion Hnd as [| ? ? Hnotin Hnd']. subst.
    inversion Hok as [| ? ? Hr Hok']. subst.
    pose proof (lookup_param_notin k rows Hnotin) as Hnone.
    cbn [map fst snd load_rows length Nat.eqb negb nth lookup_param].
    unfold row_readable in Hr. cbn [fst snd] in Hr.
    destruct Hr as [[[-> | [-> | ->]] Hlen] | [-> Hne]]; key_eqb; cbv iota.
    + replace (length v <? 8)%nat with false by (symmetry; apply Nat.ltb_ge; exact Hlen).
      rewrite (IH _ Hnd' Hok'), Hnone. reflexivity.
    + replace (length v <? 8)%nat with false by (symmetry; apply Nat.ltb_ge; exact Hlen).
      rewrite (IH _ Hnd' Hok'), Hnone. reflexivity.
    + replace (length v <? 8)%nat with false by (symmetry; apply Nat.ltb_ge; exact Hlen).
      rewrite (IH _ Hnd' Hok'), Hnone. reflexivity.
    + destruct v as [| b v]; [contradiction |].
      rewrite (IH _ Hnd' Hok'), Hnone. reflexivity.
Qed.

Lemma enc_int64_decodes (x : Z) :
  Int64.in_range x -> Int64.of_uint64 (Uint64 (firstn 8 (enc_int64 x))) = x.
Proof.
  intros H. unfold enc_int64.
  rewrite firstn_all2 by (rewrite length_le_split; apply Nat.le_refl).
  rewrite Uint64_le_split by apply to_uint64_range. apply of_to_uint64. exact H.
Qed.

Lemma LoadParams_holds (db : Store) (p : NetworkParameters) :
  wf_params p -> holds_params (param_rows db) p ->
  LoadParams no_faults db = Done (LoadedParams p).
Proof.
  intros (HM & HJ & HV) (Hwf & Lm & Lj & Lv & Lg).
  assert (Hlen : length (param_rows db) = 4%nat).
  { apply wf_param_rows_full; [exact Hwf |].
    intros k Hk. unfold param_keys in Hk. cbn [In] in Hk.
    destruct Hk as [<- | [<- | [<- | [<- | []]]]]; congruence. }
  assert (Hok : Forall row_readable (param_rows db)).
  { apply Forall_forall. intros [k v] Hin. destruct Hwf as [Hnd Hincl].
    assert (Hk : In k param_keys) by (apply Hincl, in_map_iff; exists (k, v); auto).
    pose proof (lookup_param_in k v _ Hnd Hin) as Hl.
    unfold row_readable, param_keys in *. cbn [In fst snd] in *.
    destruct Hk as [<- | [<- | [<- | [<- | []]]]].
    - left. rewrite Lm in Hl. injection Hl as <-. split; [auto |].
      unfold enc_int64. rewrite length_le_split. apply Nat.le_refl.
    - left. rewrite Lj in Hl. injection Hl as <-. split; [auto |].
      unfold enc_int64. rewrite length_le_split. apply Nat.le_refl.
    - left. rewrite Lv in Hl. injection Hl as <-. split; [auto |].
      unfold enc_int64. rewrite length_le_split. apply Nat.le_refl.
    - right. rewrite Lg in Hl. injection Hl as <-. split; [reflexivity |].
      destruct (DisabledGasCosts p); discriminate. }
  unfold LoadParams, Execute. cbn [exec_fails no_faults run fst Rows].
  rewrite length_map, Hlen. cbn [Nat.eqb negb].
  rewrite (load_rows_readable _ zero_params (proj1 Hwf) Hok).
  rewrite Lm, Lj, Lv, Lg, !enc_int64_decodes by assumption.
  destruct p as [m j v g]. cbn [DisabledGasCosts]. destruct g; reflexivity.
Qed.

Lemma StoreParams_no_faults (db : Store) (p : NetworkParameters) :
  StoreParams no_faults db p =
    (None,
     mkStore (chain_rows db)
       (upsert disabledGasKey (gas_byte (DisabledGasCosts p))
          (upsert voteExpiryKey (enc_int64 (VoteExpiry p))
             (upsert joinExpiryKey (enc_int64 (JoinExpiry p))
                (upsert maxBlockSizeKey (enc_int64 (MaxBlockSize p)) (param_rows db)))))).
Proof.
  unfold StoreParams, Execute, enc_int64.
  cbn [begin_fails exec_fails commit_fails no_faults]. cbv zeta.
  rewrite (PutUint64_overwrite (make 8)) by apply length_make.
  cbn [run chain_rows param_rows].
  repeat rewrite (PutUint64_overwrite (le_split 8 _)) by apply length_le_split.
  reflexivity.
Qed.

Lemma holds_after_StoreParams (rows : list (String.string * bytes))
  (p : NetworkParameters) :
  wf_param_rows rows ->
  holds_params
    (upsert disabledGasKey (gas_byte (DisabledGasCosts p))
       (upsert voteExpiryKey (enc_int64 (VoteExpiry p))
          (upsert joinExpiryKey (enc_int64 (JoinExpiry p))
             (upsert maxBlockSizeKey (enc_int64 (MaxBlockSize p)) rows)))) p.
Proof.
  intros Hwf. unfold holds_params. split.
  - repeat apply wf_upsert; try exact Hwf; unfold param_keys; cbn [In]; auto.
  - repeat split;
      repeat (first [ apply lookup_upsert_same
                    | rewrite lookup_upsert_other by discriminate ]).
Qed.

(** X17: parameters stored are parameters loaded.  On tables whose
    parameter rows have distinct names among the four of the package,
    empty tables included, [StoreParams] of parameters within [int64]
    succeeds, leaves the chain table alone, and [LoadParams] then returns
    the same parameters. *)
Theorem StoreParams_LoadParams (db : Store) (p : NetworkParameters) :
  wf_params p ->
  wf_param_rows (param_rows db) ->
  exists db',
    StoreParams no_faults db p = (None, db') /\
    chain_rows db' = chain_rows db /\
    holds_params (param_rows db') p /\
    LoadParams no_faults db' = Done (LoadedParams p).
Proof.
  intros Hp Hwf. eexists. split; [apply StoreParams_no_faults |].
  split; [reflexivity |].
  pose proof (holds_after_StoreParams (param_rows db) p Hwf) as Hh.
  split; [exact Hh |]. apply LoadParams_holds; [exact Hp | exact Hh].
Qed.


(** X18: [StoreParams] is all or nothing.  With a fault of the database
    at the start of the transaction, at one of the four statements or at
    the commit it returns that error and the tables are as before; without
    one it does what it does on a database without faults. *)
Theorem StoreParams_atomic (f : Faults) (db : Store) (p : NetworkParameters) :
  (exists e,
     StoreParams f db p = (Some (DbErr e), db) /\
     (begin_fails f = Some e \/
      (exists i, (i < 4)%nat /\ exec_fails f i = Some e) \/
      commit_fails f = Some e)) \/
  (StoreParams f db p = StoreParams no_faults db p /\
   fst (StoreParams f db p) = None /\
   begin_fails f = None /\
   (forall i, (i < 4)%nat -> exec_fails f i = None) /\
   commit_fails f = None).
Proof.
  unfold StoreParams, Execute.
  destruct (begin_fails f) as [e |] eqn:Hb;
    [left; exists e; split; [reflexivity | left; reflexivity] |].
  destruct (exec_fails f 0) as [e |] eqn:H0;
    [left; exists e; split; [reflexivity | right; left; exists 0%nat; split; [lia | exact H0]] |].
  cbv zeta. cbn [run].
  destruct (exec_fails f 1) as [e |] eqn:H1;
    [left; exists e; split; [reflexivity | right; left; exists 1%nat; split; [lia | exact H1]] |].
  cbn [run].
  destruct (exec_fails f 2) as [e |] eqn:H2;
    [left; exists e; split; [reflexivity | right; left; exists 2%nat; split; [lia | exact H2]] |].
  cbn [run].
  destruct (exec_fails f 3) as [e |] eqn:H3;
    [left; exists e; split; [reflexivity | right; left; exists 3%nat; split; [lia | exact H3]] |].
  cbn [run].
  destruct (commit_fails f) as [e |] eqn:Hc;
    [left; exists e; split; [reflexivity | right; right; reflexivity] |].
  right. split; [reflexivity |]. split; [reflexivity |]. split; [reflexivity |].
  split; [| reflexivity].
  intros i Hi. destruct i as [| [| [| [| i]]]]; try assumption. lia.
Qed.

Lemma diff_lookup (o n : NetworkParameters) :
  lookup_param maxBlockSizeKey (diff o n) =
    (if MaxBlockSize o =? MaxBlockSize n then None
     else Some (enc_int64 (MaxBlockSize n))) /\
  lookup_param joinExpiryKey (diff o n) =
    (if JoinExpiry o =? JoinExpiry n then None
     else Some (enc_int64 (JoinExpiry n))) /\
  lookup_param voteExpiryKey (diff o n) =
    (if VoteExpiry o =? VoteExpiry n then None
     else Some (enc_int64 (VoteExpiry n))) /\
  lookup_param disabledGasKey (diff o n) =
    (if Bool.eqb (DisabledGasCosts o) (DisabledGasCosts n) then None
     else Some (gas_byte (DisabledGasCosts n))).
Proof.
  unfold diff, enc_int64.
  rewrite !(PutUint64_overwrite (make 8)) by apply length_make.
  destruct (MaxBlockSize o =? MaxBlockSize n), (JoinExpiry o =? JoinExpiry n),
    (VoteExpiry o =? VoteExpiry n), (Bool.eqb (DisabledGasCosts o) (DisabledGasCosts n));
    cbn [negb app];
    repeat match goal with |- _ /\ _ => split end; reflexivity.
Qed.

Lemma diff_keys (o n : NetworkParameters) :
  NoDup (map fst (diff o n)) /\ incl (map fst (diff o n)) param_keys.
Proof.
  unfold diff, incl, param_keys.
  destruct (MaxBlockSize o =? MaxBlockSize n), (JoinExpiry o =? JoinExpiry n),
    (VoteExpiry o =? VoteExpiry n), (Bool.eqb (DisabledGasCosts o) (DisabledGasCosts n));
    cbn [negb app map fst]; (split;
      [ repeat constructor; cbn [In]; intros H;
        repeat (destruct H as [H | H]; [discriminate H |]); exact H
      | intros k Hk; cbn [In] in *; tauto ]).
Qed.

Lemma diff_nil (o n : NetworkParameters) : diff o n = [] <-> o = n.
Proof.
  split.
  - intros H. destruct (diff_lookup o n) as (Dm & Dj & Dv & Dg).
    rewrite H in Dm, Dj, Dv, Dg. cbn [lookup_param] in Dm, Dj, Dv, Dg.
    destruct (MaxBlockSize o =? MaxBlockSize n) eqn:Em; [| discriminate Dm].
    destruct (JoinExpiry o =? JoinExpiry n) eqn:Ej; [| discriminate Dj].
    destruct (VoteExpiry o =? VoteExpiry n) eqn:Ev; [| discriminate Dv].
    destruct (Bool.eqb (DisabledGasCosts o) (DisabledGasCosts n)) eqn:Eg; [| discriminate Dg].
    apply Z.eqb_eq in Em, Ej, Ev. apply eqb_prop in Eg.
    destruct o, n. cbn in Em, Ej, Ev, Eg. subst. reflexivity.
  - intros ->. unfold diff. rewrite !Z.eqb_refl, Bool.eqb_reflx. reflexivity.
Qed.

(** X19: [diff] is empty exactly when the two sets of parameters are the
    same, and [StoreDiff] then returns nil without touching the database,
    whatever its state; when they differ it begins a transaction, and a
    failure to begin is returned. *)
Theorem StoreDiff_equal_params (o n : NetworkParameters) :
  (diff o n = [] <-> o = n) /\
  (forall f db ranged, o = n -> StoreDiff f db o n ranged = (None, db)) /\
  (forall f db ranged e, o <> n -> begin_fails f = Some e ->
     StoreDiff f db o n ranged = (Some (DbErr e), db)).
Proof.
  split; [apply diff_nil |]. split.
  - intros f db ranged E. apply diff_nil in E. unfold StoreDiff. rewrite E. reflexivity.
  - intros f db ranged e Hne Hb. unfold StoreDiff.
    destruct (diff o n) as [| kv l] eqn:E.
    + exfalso. apply Hne. apply diff_nil. exact E.
    + cbn [length Nat.eqb]. rewrite Hb. reflexivity.
Qed.

Lemma store_entries_no_faults (entries : list (String.string * bytes)) :
  forall i tx,
  store_entries no_faults i entries tx =
    (None,
     mkStore (chain_rows tx)
       (fold_left (fun rows kv => upsert (fst kv) (snd kv) rows) entries (param_rows tx))).
Proof.
  induction entries as [| [k v] entries IH]; intros i tx.
  - destruct tx; reflexivity.
  - cbn [store_entries]. unfold Execute. cbn [exec_fails no_faults run].
    rewrite IH. reflexivity.
Qed.

Lemma store_entries_cases (f : Faults) (entries : list (String.string * bytes)) :
  forall i tx,
  (exists e tx', store_entries f i entries tx = (Some e, tx')) \/
  store_entries f i entries tx = store_entries no_faults i entries tx.
Proof.
  induction entries as [| [k v] entries IH]; intros i tx.
  - right. reflexivity.
  - cbn [store_entries]. unfold Execute. cbn [exec_fails no_faults].
    destruct (exec_fails f i) as [e |]; [left; exists e, tx; reflexivity |].
    cbn [run]. rewrite !store_entries_no_faults.
    destruct (IH (S i) (mkStore (chain_rows tx) (upsert k v (param_rows tx)))) as [H | H].
    + left. exact H.
    + right. rewrite H. apply store_entries_no_faults.
Qed.

Lemma lookup_fold_upsert (entries : list (String.string * bytes)) :
  forall rows k,
  NoDup (map fst entries) ->
  lookup_param k (fold_left (fun rows kv => upsert (fst kv) (snd kv) rows) entries rows) =
    match lookup_param k entries with
    | Some v => Some v
    | None => lookup_param k rows
    end.
Proof.
  induction entries as [| [k0 v0] entries IH]; intros rows k Hnd; [reflexivity |].
  cbn [map fst] in Hnd. inversion Hnd as [| ? ? Hnotin Hnd']. subst.
  cbn [fold_left fst snd lookup_param]. rewrite (IH _ _ Hnd').
  destruct (String.eqb_spec k k0) as [-> | Hne].
  - rewrite (lookup_param_notin _ _ Hnotin). apply lookup_upsert_same.
  - rewrite (lookup_upsert_other _ _ _ _ Hne). reflexivity.
Qed.

Lemma wf_fold_upsert (entries : list (String.string * bytes)) :
  forall rows,
  incl (map fst entries) param_keys -> wf_param_rows rows ->
  wf_param_rows (fold_left (fun rows kv => upsert (fst kv) (snd kv) rows) entries rows).
Proof.
  induction entries as [| [k0 v0] entries IH]; intros rows Hincl Hwf; [exact Hwf |].
  cbn [fold_left fst snd]. apply IH.
  - intros k Hk. apply Hincl. right. exact Hk.
  - apply wf_upsert; [apply Hincl; left; reflexivity | exact Hwf].
Qed.

Lemma lookup_param_perm (k : String.string) (l1 l2 : list (String.string * bytes)) :
  NoDup (map fst l2) -> Permutation l1 l2 -> lookup_param k l1 = lookup_param k l2.
Proof.
  intros Hnd2 HP.
  assert (Hnd1 : NoDup (map fst l1)).
  { apply (Permutation_NoDup (l := map fst l2)); [| exact Hnd2].
    apply Permutation_map. apply Permutation_sym. exact HP. }
  destruct (lookup_param k l1) as [v |] eqn:E1.
  - apply lookup_param_some in E1. symmetry. apply lookup_param_in; [exact Hnd2 |].
    apply (Permutation_in _ HP). exact E1.
  - destruct (lookup_param k l2) as [v |] eqn:E2; [| reflexivity].
    apply lookup_param_some in E2.
    apply (Permutation_in _ (Permutation_sym HP)) in E2.
    apply (lookup_param_in _ _ _ Hnd1) in E2. rewrite E2 in E1. discriminate E1.
Qed.

(** X20: [StoreDiff] brings stored parameters up to date.  On a table
    that holds [original], whatever the order in which the map of the
    differences is ranged over, [StoreDiff original new] succeeds, leaves
    the chain table alone, and [LoadParams] then returns [new]. *)
Theorem StoreDiff_LoadParams (db : Store) (o n : NetworkParameters)
  (ranged : list (String.string * bytes)) :
  wf_params n ->
  holds_params (param_rows db) o ->
  Permutation ranged (diff o n) ->
  exists db',
    StoreDiff no_faults db o n ranged = (None, db') /\
    chain_rows db' = chain_rows db /\
    holds_params (param_rows db') n /\
    LoadParams no_faults db' = Done (LoadedParams n).
Proof.
  intros Hn (Hwf & Lm & Lj & Lv & Lg) HP.
  destruct (diff_keys o n) as [Dnd Dincl].
  assert (Rnd : NoDup (map fst ranged)).
  { apply (Permutation_NoDup (l := map fst (diff o n))); [| exact Dnd].
    apply Permutation_map. apply Permutation_sym. exact HP. }
  assert (Hh : holds_params
                 (fold_left (fun rows kv => upsert (fst kv) (snd kv) rows) ranged
                    (param_rows db)) n).
  { split.
    - apply wf_fold_upsert; [| exact Hwf].
      intros k Hk. apply Dincl.
      apply (Permutation_in _ (Permutation_map fst HP)). exact Hk.
    - rewrite !lookup_fold_upsert by exact Rnd.
      rewrite !(lookup_param_perm _ ranged (diff o n)) by assumption.
      destruct (diff_lookup o n) as (Dm & Dj & Dv & Dg). rewrite Dm, Dj, Dv, Dg.
      split; [| split; [| split]].
      + destruct (MaxBlockSize o =? MaxBlockSize n) eqn:E; [| reflexivity].
        apply Z.eqb_eq in E. rewrite <- E. exact Lm.
      + destruct (JoinExpiry o =? JoinExpiry n) eqn:E; [| reflexivity].
        apply Z.eqb_eq in E. rewrite <- E. exact Lj.
      + destruct (VoteExpiry o =? VoteExpiry n) eqn:E; [| reflexivity].
        apply Z.eqb_eq in E. rewrite <- E. exact Lv.
      + destruct (Bool.eqb (DisabledGasCosts o) (DisabledGasCosts n)) eqn:E;
          [| reflexivity].
        apply eqb_prop in E. rewrite <- E. exact Lg. }
  unfold StoreDiff. destruct (length (diff o n) =? 0)%nat eqn:E.
  - apply Nat.eqb_eq, length_zero_iff_nil in E. rewrite E in HP.
    apply Permutation_sym, Permutation_nil in HP. subst ranged.
    cbn [fold_left] in Hh. exists db.
    split; [reflexivity |]. split; [reflexivity |]. split; [exact Hh |].
    apply LoadParams_holds; assumption.
  - cbn [begin_fails commit_fails no_faults]. rewrite store_entries_no_faults.
    eexists. split; [reflexivity |]. cbn [chain_rows param_rows].
    split; [reflexivity |]. split; [exact Hh |].
    apply LoadParams_holds; [exact Hn | exact Hh].
Qed.

(** X21: [StoreDiff] is all or nothing, in whatever order the differences
    are ranged over: it returns an error of the database and the tables
    are as before, also when some of the statements had already run, or
    it does what it does on a database without faults. *)
Theorem StoreDiff_atomic (f : Faults) (db : Store) (o n : NetworkParameters)
  (ranged : list (String.string * bytes)) :
  (exists e, StoreDiff f db o n ranged = (Some (DbErr e), db)) \/
  (StoreDiff f db o n ranged = StoreDiff no_faults db o n ranged /\
   fst (StoreDiff f db o n ranged) = None).
Proof.
  unfold StoreDiff. destruct (length (diff o n) =? 0)%nat.
  - right. split; reflexivity.
  - destruct (begin_fails f) as [e |]; [left; exists e; reflexivity |].
    cbn [begin_fails commit_fails no_faults].
    destruct (store_entries_cases f ranged 0 db) as [(e & tx' & H) | H]; rewrite H.
    + left. exists e. reflexivity.
    + rewrite store_entries_no_faults.
      destruct (commit_fails f) as [e |]; [left; exists e; reflexivity |].
      right. split; reflexivity.
Qed.

Lemma load_rows_prefix (pre : list (String.string * bytes)) :
  forall rest acc,
  Forall row_readable pre ->
  exists acc',
    load_rows (map (fun r => [SqlText (fst r); SqlBytes (snd r)]) (pre ++ rest)) acc =
    load_rows (map (fun r => [SqlText (fst r); SqlBytes (snd r)]) rest) acc'.
Proof.
  induction pre as [| [k v] pre IH]; intros rest acc Hok.
  - exists acc. reflexivity.
  - inversion Hok as [| ? ? Hr Hok']. subst.
    cbn [app map fst snd load_rows length Nat.eqb negb nth].
    unfold row_readable in Hr. cbn [fst snd] in Hr.
    destruct Hr as [[[-> | [-> | ->]] Hlen] | [-> Hne]]; key_eqb; cbv iota.
    + replace (length v <? 8)%nat with false by (symmetry; apply Nat.ltb_ge; exact Hlen).
      apply IH. exact Hok'.
    + replace (length v <? 8)%nat with false by (symmetry; apply Nat.ltb_ge; exact Hlen).
      apply IH. exact Hok'.
    + replace (length v <? 8)%nat with false by (symmetry; apply Nat.ltb_ge; exact Hlen).
      apply IH. exact Hok'.
    + destruct v as [| b v]; [contradiction |]. apply IH. exact Hok'.
Qed.

(** X22: how [LoadParams] fails.  An error of the query is returned as it
    is; an empty table gives [ErrParamsNotFound]; any other number of rows
    than four gives the row count error; and on four rows, the first row
    that is not readable decides: a value shorter than its field (fewer
    than 8 bytes for an integer, none for the flag) makes [LoadParams]
    panic, and a name that is none of the four is reported as unknown. *)
Theorem LoadParams_failures :
  (forall f db e, exec_fails f 0 = Some e ->
     LoadParams f db = Done (LoadFailed (DbErr e))) /\
  (forall db, param_rows db = [] ->
     LoadParams no_faults db = Done (LoadFailed ErrParamsNotFound)) /\
  (forall db, length (param_rows db) <> 0%nat -> length (param_rows db) <> 4%nat ->
     LoadParams no_faults db =
       Done (LoadFailed (ErrRowCount (length (param_rows db))))) /\
  (forall db pre r post,
     param_rows db = pre ++ r :: post -> length (param_rows db) = 4%nat ->
     Forall row_readable pre -> row_too_short r ->
     LoadParams no_faults db = Panic) /\
  (forall db pre r post,
     param_rows db = pre ++ r :: post -> length (param_rows db) = 4%nat ->
     Forall row_readable pre -> ~ In (fst r) param_keys ->
     LoadParams no_faults db = Done (LoadFailed (ErrUnknownParam (fst r)))).
Proof.
  split; [| split; [| split; [| split]]].
  - intros f db e He. unfold LoadParams, Execute. rewrite He. reflexivity.
  - intros db E. unfold LoadParams, Execute. cbn [exec_fails no_faults run fst Rows].
    rewrite E. reflexivity.
  - intros db H0 H4. unfold LoadParams, Execute. cbn [exec_fails no_faults run fst Rows].
    rewrite length_map.
    destruct (Nat.eqb_spec (length (param_rows db)) 0); [contradiction |].
    destruct (Nat.eqb_spec (length (param_rows db)) 4); [contradiction |].
    reflexivity.
  - intros db pre [k v] post E Hlen Hok Hshort.
    unfold LoadParams, Execute. cbn [exec_fails no_faults run fst Rows].
    rewrite length_map, Hlen. cbn [Nat.eqb negb]. rewrite E.
    destruct (load_rows_prefix pre ((k, v) :: post) zero_params Hok) as [acc' ->].
    cbn [map fst snd load_rows length Nat.eqb negb nth].
    unfold row_too_short in Hshort. cbn [fst snd] in Hshort.
    destruct Hshort as [[[-> | [-> | ->]] Hl] | [-> ->]]; key_eqb; cbv iota;
      try (replace (length v <? 8)%nat with true by (symmetry; apply Nat.ltb_lt; exact Hl));
      reflexivity.
  - intros db pre [k v] post E Hlen Hok Hun.
    unfold LoadParams, Execute. cbn [exec_fails no_faults run fst Rows].
    rewrite length_map, Hlen. cbn [Nat.eqb negb]. rewrite E.
    destruct (load_rows_prefix pre ((k, v) :: post) zero_params Hok) as [acc' ->].
    cbn [map fst snd load_rows length Nat.eqb negb nth].
    unfold param_keys in Hun. cbn [In fst] in Hun.
    destruct (String.eqb_spec k maxBlockSizeKey) as [-> | _]; [exfalso; apply Hun; auto |].
    destruct (String.eqb_spec k joinExpiryKey) as [-> | _]; [exfalso; apply Hun; auto |].
    destruct (String.eqb_spec k voteExpiryKey) as [-> | _]; [exfalso; apply Hun; auto |].
    destruct (String.eqb_spec k disabledGasKey) as [-> | _]; [exfalso; apply Hun; auto |].
    reflexivity.
Qed.


(** * Properties of the migration status *)

(** X26: [Valid] holds of the five named statuses only; [NoneActive]
    holds of [NoActiveMigration] and of the empty status; so among valid
    statuses [Active] means other than [NoActiveMigration], while every
    status that is not valid counts as an active migration, the empty one
    excepted. *)
Theorem MigrationStatus_cases (ms : MigrationStatus) :
  (Valid ms = true <->
   In ms [NoActiveMigration; ActivationPeriod; MigrationInProgress;
          MigrationCompleted; GenesisMigration]) /\
  (NoneActive ms = true <-> ms = NoActiveMigration \/ ms = String.EmptyString) /\
  (Valid ms = true -> (Active ms = true <-> ms <> NoActiveMigration)) /\
  (Valid ms = false -> (Active ms = false <-> ms = String.EmptyString)).
Proof.
  unfold Valid, Active, NoneActive. cbn [In].
  destruct (String.eqb_spec ms NoActiveMigration) as [E0 | N0];
    destruct (String.eqb_spec ms ActivationPeriod) as [E1 | N1];
    destruct (String.eqb_spec ms MigrationInProgress) as [E2 | N2];
    destruct (String.eqb_spec ms MigrationCompleted) as [E3 | N3];
    destruct (String.eqb_spec ms GenesisMigration) as [E4 | N4];
    destruct (String.eqb_spec ms String.EmptyString) as [E5 | N5];
    unfold NoActiveMigration, ActivationPeriod, MigrationInProgress,
      MigrationCompleted, GenesisMigration in *;
    cbn [orb negb]; try congruence;
    repeat match goal with |- _ /\ _ => split end;
    intuition congruence.
Qed.


(** * Instances of the further properties *)

Lemma ReadFrom_frames_witness :
  wf_blockProp sample_prop /\
  (length (LeaderSig sample_prop) <= 1000)%nat /\
  ReadFrom zero_blockProp
    (mkReader (fst (MarshalBinary sample_prop) ++ [Byte.xff]) ErrTransport) =
    Done (mkRes 91 None sample_prop (mkReader [Byte.xff] ErrTransport)).
Proof.
  split; [exact wf_sample_prop |]. split; [cbn; lia |].
  destruct (ReadFrom_frames sample_prop zero_blockProp [Byte.xff] ErrTransport)
    as (_ & H & _); [exact wf_sample_prop | exact wf_zero_blockProp | cbn; lia |].
  exact H.
Defined.

Lemma UnmarshalBinary_truncated_witness :
  (length [Byte.x01; Byte.x02] < 88)%nat /\
  exists e bp',
    UnmarshalBinary sample_prop [Byte.x01; Byte.x02] = Done (Some e, bp') /\
    (e = EOF <-> In 2%nat field_starts) /\
    LeaderSig bp' = LeaderSig sample_prop.
Proof.
  split; [cbn; lia |].
  destruct (UnmarshalBinary_truncated sample_prop [Byte.x01; Byte.x02])
    as (e & bp' & H & _ & He & Hs); [cbn; lia |].
  exists e, bp'. split; [exact H |]. split; [exact He | exact Hs].
Defined.

Lemma UnmarshalBinary_canonical_witness :
  UnmarshalBinary zero_blockProp (fst (MarshalBinary sample_prop) ++ [Byte.xff]) =
    Done (None, sample_prop) /\
  fst (MarshalBinary sample_prop) =
    firstn (88 + length (LeaderSig sample_prop))
      (fst (MarshalBinary sample_prop) ++ [Byte.xff]).
Proof.
  assert (H : UnmarshalBinary zero_blockProp
                (fst (MarshalBinary sample_prop) ++ [Byte.xff]) =
              Done (None, sample_prop)) by (vm_compute; reflexivity).
  split; [exact H |].
  destruct (UnmarshalBinary_canonical zero_blockProp
              (fst (MarshalBinary sample_prop) ++ [Byte.xff]) sample_prop
              wf_zero_blockProp H) as (_ & _ & E).
  exact E.
Defined.

Lemma WriteTo_ReadFrom_sequence_witness :
  exists nx ny w1 w2,
    WriteTo sample_prop (mkWriter [] None) = (nx, None, w1) /\
    WriteTo zero_blockProp w1 = (ny, None, w2) /\
    ReadFrom zero_blockProp (NewReader (sink w2)) =
      Done (mkRes nx None sample_prop (mkReader (fst (MarshalBinary zero_blockProp)) EOF)) /\
    ReadFrom sample_prop (mkReader (fst (MarshalBinary zero_blockProp)) EOF) =
      Done (mkRes ny None zero_blockProp (mkReader [] EOF)).
Proof.
  apply (WriteTo_ReadFrom_sequence sample_prop zero_blockProp zero_blockProp);
    [exact wf_sample_prop | exact wf_zero_blockProp | exact wf_zero_blockProp
    | cbn; lia | cbn; lia].
Defined.

Lemma UnmarshalBinary_prefix_fails_witness :
  (90 < length (fst (MarshalBinary sample_prop)))%nat /\
  exists e bp',
    UnmarshalBinary zero_blockProp (firstn 90 (fst (MarshalBinary sample_prop))) =
      Done (Some e, bp') /\
    (e = EOF \/ e = ErrUnexpectedEOF).
Proof.
  split; [vm_compute; lia |].
  apply (UnmarshalBinary_prefix_fails sample_prop zero_blockProp 90);
    [exact wf_sample_prop | cbn; lia | vm_compute; lia].
Defined.

Lemma announced_proposal_reaches_engine_witness :
  blkPropStreamHandler toyBlock toyDecodeBlock fst snd toyGetMsg acceptAll
    (mkStream
       (NewReader
          (fst (MarshalBinary (mkBlockProp 1 (le_split 32 7) (le_split 32 9) 0 []))
           ++ toyEncodeBlock announced_block))
       None) =
    ([EvAcceptProposal toyBlock 1 (le_split 32 7) (le_split 32 9) [] 0 true;
      EvWrite toyBlock toyGetMsg None;
      EvCall toyBlock (NotifyBlockProposal toyBlock announced_block);
      EvClose toyBlock], Returned).
Proof.
  apply (announced_proposal_reaches_engine toyBlock toyDecodeBlock fst snd toyGetMsg acceptAll
           toyEncodeBlock snd (fun _ => le_split 32 9) (fun _ => 0) (fun _ => [])
           (fun _ => []) peerA [peerA; peerB] (fun _ _ => None) announced_block peerB
           (mkContentAnn []
              (fst (MarshalBinary (mkBlockProp 1 (le_split 32 7) (le_split 32 9) 0 [])))
              (toyEncodeBlock announced_block))
           None).
  - unfold wf_blockProp, blockProp_of, Int64.in_range, Int64.min_int, Int64.max_int.
    cbn. repeat split; lia.
  - cbn; lia.
  - vm_compute. reflexivity.
  - reflexivity.
  - left. reflexivity.
Defined.



Lemma reset_gossip_end_to_end_witness :
  resetRecvLoop toyBlock toyResetUnmarshal toyPubKeyFromPeerID peerA
    (deliveries_of toyBlock peerB RoleValidator 0 TopicReset
       (fst (resetPublishLoop toyBlock toyResetBytes
               [SelRecv (mkConsensusReset 5 []) None; SelRecv (mkConsensusReset 6 []) None]))) =
    [EvCall toyBlock (NotifyResetState toyBlock 5 [] (Byte.xff :: peerB));
     EvCall toyBlock (NotifyResetState toyBlock 6 [] (Byte.xff :: peerB))].
Proof.
  apply (reset_gossip_end_to_end toyBlock toyResetUnmarshal toyPubKeyFromPeerID
           toyResetBytes peerA peerB (Byte.xff :: peerB) RoleValidator 0
           [(5, []); (6, [])]).
  - discriminate.
  - reflexivity.
  - intros r [<- | [<- | []]]; reflexivity.
Defined.

Lemma wf_sample_params : wf_params sample_params /\ wf_params other_params.
Proof.
  unfold wf_params, Int64.in_range, Int64.min_int, Int64.max_int. cbn. lia.
Qed.

Lemma wf_fresh_store : wf_param_rows (param_rows fresh_store).
Proof. split; [constructor | intros k []]. Qed.

Lemma sample_store_holds : holds_params (param_rows sample_store) sample_params.
Proof.
  unfold sample_store. rewrite StoreParams_no_faults. cbn [snd param_rows].
  apply holds_after_StoreParams. exact wf_fresh_store.
Qed.

Lemma StoreParams_LoadParams_witness :
  wf_params sample_params /\
  fst (StoreParams no_faults fresh_store sample_params) = None /\
  LoadParams no_faults (snd (StoreParams no_faults fresh_store sample_params)) =
    Done (LoadedParams sample_params).
Proof.
  split; [exact (proj1 wf_sample_params) |].
  destruct (StoreParams_LoadParams fresh_store sample_params
              (proj1 wf_sample_params) wf_fresh_store) as (db' & Hs & _ & _ & Hl).
  rewrite Hs. split; [reflexivity | exact Hl].
Defined.

Lemma StoreDiff_LoadParams_witness :
  exists db',
    StoreDiff no_faults sample_store sample_params other_params
      (rev (diff sample_params other_params)) = (None, db') /\
    LoadParams no_faults db' = Done (LoadedParams other_params).
Proof.
  destruct (StoreDiff_LoadParams sample_store sample_params other_params
              (rev (diff sample_params other_params))
              (proj2 wf_sample_params) sample_store_holds)
    as (db' & Hs & _ & _ & Hl).
  - apply Permutation_sym, Permutation_rev.
  - exists db'. split; [exact Hs | exact Hl].
Defined.

Lemma VotableEvent_roundtrip_witness :
  VotableEvent_UnmarshalBinary toyReadString toyReadBytes
    (mkVotableEvent String.EmptyString [])
    (fst (VotableEvent_MarshalBinary toyWriteString toyWriteBytes sample_event)
     ++ [Byte.xff]) = (None, sample_event).
Proof.
  apply (VotableEvent_roundtrip toyWriteString toyWriteBytes toyReadString toyReadBytes
           sample_event (mkVotableEvent String.EmptyString []) [Byte.xff] [Byte.xff]).
  - vm_compute. reflexivity.
  - vm_compute. reflexivity.
Defined.
